(** * Multiple-boundary edit distance (segeval)

    A shallow embedding of
    [src/segeval/similarity/distance/multipleboundary.py] and the
    properties of its edit decomposition.

    Modelling conventions.
    - A boundary label is a Python [int]; it is a [Z] here.
    - A [set]/[frozenset] of labels is a [gset Z].  Python fixes no
      iteration order for sets, and CPython's follows the hash table
      ([{2, 3}] is traversed 2, 3 and [{1, 8}] is traversed 8, 1).
      The loops [for x in s] of the source are modelled as traversals
      in ascending order ([iter_set], [iter_substitutions]): an order
      the language allows, and CPython's on the docstring example.  The
      permutations are taken of [sorted(a)] and [sorted(b)], as in the
      source.
    - A boundary string is a [list (gset Z)], indexed the way Python
      indexes lists ([py_index], negative indices included).
    - [options_set] and [options_transp] are dicts keyed by position:
      [gmap Z _].  [optional_set_edits] inserts keys in ascending order,
      nothing ever deletes one, and a dict iterates in insertion order,
      so [options_set.values()] is the list of values by ascending key
      ([dict_values]).
    - The in-place [discard] calls on the sets held by a [Difference]
      are state passing: [find_transpositions] returns the mutated
      mapping next to its list.
    - Exceptions are the [Raise] results of the [result] monad.
    - [t[2] is d] asks whether two label objects are one object, which
      their values do not settle: the answer is the runtime's, and the
      model takes it as a parameter ([ObjectIdentity]).  Identical
      labels are equal, and equal labels from -5 to 256, which CPython
      shares, are identical; nothing more is assumed.
    - [len(added) is len(additions)] compares two lengths; the
      assertion is modelled as their equality.
    - [/] is true division ([from __future__ import division]); the
      quotient is a rational ([Q]). *)

From stdpp Require Import gmap list sorting strings.
From Stdlib Require Import QArith.

Open Scope Z_scope.

(** ** Python runtime *)

Inductive exn := IndexError | KeyError | AssertionError.

Inductive result (A : Type) :=
  | Ok (x : A)
  | Raise (e : exn).
Arguments Ok {A} x.
Arguments Raise {A} e.

#[global] Instance result_ret : MRet result := λ A x, Ok x.
#[global] Instance result_bind : MBind result := λ A B f m,
  match m with
  | Ok x => f x
  | Raise e => Raise e
  end.

(** [for x in l: st = f(x, st)] where the body may raise. *)
Fixpoint for_each {A S : Type} (f : A → S → result S) (l : list A) (st : S)
    : result S :=
  match l with
  | [] => Ok st
  | x :: l' => st' ← f x st; for_each f l' st'
  end.

Definition len {A : Type} (l : list A) : Z := Z.of_nat (length l).

Definition len_set `{Countable A} (s : gset A) : Z := Z.of_nat (size s).

(** [range(lo, hi)] *)
Definition py_range (lo hi : Z) : list Z :=
  map (λ k : nat, lo + Z.of_nat k) (seq 0 (Z.to_nat (hi - lo))).

(** [l[i]] *)
Definition py_index {A : Type} (l : list A) (i : Z) : result A :=
  let k := if bool_decide (0 ≤ i) then i else len l + i in
  if bool_decide (0 ≤ k) then
    match l !! Z.to_nat k with
    | Some x => Ok x
    | None => Raise IndexError
    end
  else Raise IndexError.

(** [sorted(l)] on integers *)
Definition sorted (l : list Z) : list Z := merge_sort Z.le l.

(** [for x in s] over a set of labels *)
Definition iter_set (s : gset Z) : list Z := sorted (elements s).

(** [enumerate(l)] *)
Definition enumerate {A : Type} (l : list A) : list (Z * A) :=
  zip (py_range 0 (len l)) l.

(** [x ^ y] *)
Definition sym_diff (x y : gset Z) : gset Z := (x ∖ y) ∪ (y ∖ x).

Module itertools.

(** Every way of taking one element out of [l], leftmost first. *)
Fixpoint selections {A : Type} (l : list A) : list (A * list A) :=
  match l with
  | [] => []
  | x :: xs => (x, xs) :: map (λ s, (s.1, x :: s.2)) (selections xs)
  end.

Fixpoint permutations_of_length {A : Type} (n : nat) (l : list A)
    : list (list A) :=
  match n with
  | O => [[]]
  | S n' =>
      flat_map (λ s, map (cons s.1) (permutations_of_length n' s.2))
               (selections l)
  end.

(** [itertools.permutations(l)]: all orderings of [l], in the
    lexicographic order of the positions taken. *)
Definition permutations {A : Type} (l : list A) : list (list A) :=
  permutations_of_length (length l) l.

End itertools.

(** ** The named tuples *)

Record Addition := mkAddition { add_type : Z; add_side : string }.
Record Substitution := mkSubstitution { type_a : Z; type_b : Z }.
Record Transposition := mkTransposition { t_start : Z; t_end : Z; t_type : Z }.
Record Difference := mkDifference { sim : gset Z; a_b : gset Z; b_a : gset Z }.

#[global] Instance Substitution_eq_dec : EqDecision Substitution.
Proof. solve_decision. Defined.

#[global] Instance Substitution_countable : Countable Substitution.
Proof.
  refine (inj_countable' (λ s, (type_a s, type_b s))
                         (λ p, mkSubstitution p.1 p.2) _).
  by intros [].
Defined.

#[global] Instance Transposition_eq_dec : EqDecision Transposition.
Proof. solve_decision. Defined.

#[global] Instance Addition_eq_dec : EqDecision Addition.
Proof. solve_decision. Defined.

(** ** Object identity *)

(** The integers that CPython keeps as shared objects. *)
Definition small_int (d : Z) : Prop := -5 ≤ d ≤ 256.

#[global] Instance small_int_dec d : Decision (small_int d).
Proof. unfold small_int. apply _. Defined.

(** [t[2] is d], for a stored transposition [t] and the label [d] of
    the candidate [c = Transposition(i, j, d)]: is the label that the
    window [(t[0], t[1])] handed to [t] the very object that the window
    [(i, j)] hands to the candidate?  The model holds labels by value,
    so the answer is the runtime's.  One object has one value, and the
    shared integers are one object per value. *)
Class ObjectIdentity := {
  same_object : Transposition → Transposition → bool;
  same_object_sound t c : same_object t c = true → t_type t = t_type c;
  same_object_small t c :
    t_type t = t_type c → small_int (t_type c) → same_object t c = true
}.

(** A runtime in which equal labels are always one object. *)
Definition by_value : ObjectIdentity.
Proof.
  refine {| same_object := λ t c, bool_decide (t_type t = t_type c) |}.
  - intros t c. apply bool_decide_eq_true_1.
  - intros t c Heq _. by apply bool_decide_eq_true_2.
Defined.

(** A runtime in which a label outside the shared range is an object of
    its own at each window: the labels of two such candidates are one
    object only if the windows are the same. *)
Definition fresh_objects : ObjectIdentity.
Proof.
  refine {| same_object := λ t c,
              bool_decide (t_type t = t_type c) &&
              (bool_decide (small_int (t_type c)) ||
               bool_decide (t_start t = t_start c ∧ t_end t = t_end c)) |}.
  - intros t c [Heq _]%andb_true_iff. by apply bool_decide_eq_true_1 in Heq.
  - intros t c Heq Hsmall. apply andb_true_iff. split.
    + by apply bool_decide_eq_true_2.
    + apply orb_true_iff. left. by apply bool_decide_eq_true_2.
Defined.

(** Order in which a set of substitutions is traversed. *)
Definition subst_le (s1 s2 : Substitution) : Prop :=
  type_a s1 < type_a s2 ∨ (type_a s1 = type_a s2 ∧ type_b s1 ≤ type_b s2).

#[global] Instance subst_le_dec s1 s2 : Decision (subst_le s1 s2).
Proof. unfold subst_le. apply _. Defined.

Definition iter_substitutions (s : gset Substitution) : list Substitution :=
  merge_sort subst_le (elements s).

(** Order of the keys of [options_set]. *)
Definition key_le (p q : Z * Difference) : Prop := p.1 ≤ q.1.

#[global] Instance key_le_dec p q : Decision (key_le p q).
Proof. unfold key_le. apply _. Defined.

(** [options_set.values()] *)
Definition dict_values (options_set : gmap Z Difference) : list Difference :=
  map snd (merge_sort key_le (map_to_list options_set)).

(** ** additions_substitutions *)

Definition additions_substitutions (d a b : gset Z) : Z * Q :=
  let additions := Z.abs (len_set a - len_set b) in
  let substitutions := (inject_Z (len_set d - additions) / inject_Z 2)%Q in
  (additions, substitutions).

(** ** additions_substitutions_sets *)

(** [sum(abs(a_i - b_i) for a_i, b_i in current_substitutions)] *)
Definition pairing_delta (pairs : gset (Z * Z)) : Z :=
  foldr (λ p acc, Z.abs (p.1 - p.2) + acc) 0 (elements pairs).

(** Body of the inner loop: the state is [(delta, substitutions)]. *)
Definition consider_pairing (perm_a perm_b : list Z)
    (st : option Z * gset (Z * Z)) : option Z * gset (Z * Z) :=
  let current_substitutions : gset (Z * Z) := list_to_set (zip perm_a perm_b) in
  let current_delta := pairing_delta current_substitutions in
  match st.1 with
  | None => (Some current_delta, current_substitutions)
  | Some delta =>
      if bool_decide (current_delta < delta)
      then (Some current_delta, current_substitutions)
      else st
  end.

(** The two nested loops over the permutations. *)
Definition search_pairings (a b : gset Z) : option Z * gset (Z * Z) :=
  foldl (λ st perm_a,
           foldl (λ st perm_b, consider_pairing perm_a perm_b st)
                 st (itertools.permutations (sorted (elements b))))
        (None, ∅) (itertools.permutations (sorted (elements a))).

(** Labels appended to [substituted]. *)
Definition substituted_labels (pairs : gset (Z * Z)) : gset Z :=
  list_to_set (flat_map (λ p, [p.1; p.2]) (elements pairs)).

Definition additions_substitutions_sets (d a b : gset Z)
    : result (list Addition * gset Substitution) :=
  let substitutions := (search_pairings a b).2 in
  let substituted := substituted_labels substitutions in
  let additions := d ∖ substituted in
  let added :=
    map (λ x, mkAddition x "a") (iter_set (a ∖ substituted)) ++
    map (λ x, mkAddition x "b") (iter_set (b ∖ substituted)) in
  if bool_decide (length added = size additions)
  then Ok (added, set_map (λ p : Z * Z, mkSubstitution p.1 p.2) substitutions)
  else Raise AssertionError.

(** ** __has_substitutions__ and __overlaps_existing__ *)

Definition has_substitutions (i j d : Z) (options_set : gmap Z Difference)
    : bool :=
  match options_set !! i, options_set !! j with
  | Some r_i, Some r_j =>
      if bool_decide (d ∈ sim r_i) && bool_decide (d ∈ sim r_j) then
        (if Qlt_le_dec 0 (additions_substitutions (sim r_i) (a_b r_i) (b_a r_i)).2
         then true else false) &&
        (if Qlt_le_dec 0 (additions_substitutions (sim r_j) (a_b r_j) (b_a r_j)).2
         then true else false)
      else false
  | _, _ => false
  end.

(** The closure [check_position] of [__overlaps_existing__(i, j, d, _)];
    [t[2] is d] is the runtime's [same_object], asked of the stored
    tuple [t] and the candidate [Transposition(i, j, d)]. *)
Definition check_position {runtime : ObjectIdentity} (i j d : Z)
    (options_transp : gmap Z (list Transposition)) (position : Z) : bool :=
  match options_transp !! position with
  | Some ts => existsb (λ t, same_object t (mkTransposition i j d)) ts
  | None => false
  end.

Definition overlaps_existing {runtime : ObjectIdentity} (i j d : Z)
    (options_transp : gmap Z (list Transposition)) : bool :=
  check_position i j d options_transp i || check_position i j d options_transp j.

(** ** find_transpositions *)

Record scan_state := mkScan {
  options_transp : gmap Z (list Transposition);
  transpositions : list Transposition;
  options_set : gmap Z Difference
}.

(** [options_set[k][0].discard(d); ...[1].discard(d); ...[2].discard(d)] *)
Definition discard_label (d : Z) (r : Difference) : Difference :=
  mkDifference (sim r ∖ {[d]}) (a_b r ∖ {[d]}) (b_a r ∖ {[d]}).

Definition discard_at (k d : Z) (os : gmap Z Difference)
    : result (gmap Z Difference) :=
  match os !! k with
  | Some r => Ok (<[k := discard_label d r]> os)
  | None => Raise KeyError
  end.

(** [if k not in options_transp: options_transp[k] = list()] *)
Definition ensure_key (k : Z) (ot : gmap Z (list Transposition))
    : gmap Z (list Transposition) :=
  match ot !! k with
  | Some _ => ot
  | None => <[k := []]> ot
  end.

(** [options_transp[k].append(t)] (the key is present) *)
Definition append_at (k : Z) (t : Transposition)
    (ot : gmap Z (list Transposition)) : gmap Z (list Transposition) :=
  alter (λ ts, ts ++ [t]) k ot.

(** Body of [for d in t_p]. *)
Definition apply_candidate {runtime : ObjectIdentity} (i j d : Z) (st : scan_state) : result scan_state :=
  let option_transp := mkTransposition i j d in
  if negb (overlaps_existing i j d (options_transp st)) &&
     negb (has_substitutions i j d (options_set st))
  then
    let ts := transpositions st ++ [option_transp] in
    let ot := append_at j option_transp
                (append_at i option_transp
                   (ensure_key j (ensure_key i (options_transp st)))) in
    os ← discard_at i d (options_set st);
    os ← discard_at j d os;
    Ok (mkScan ot ts os)
  else Ok st.

(** The candidate labels [t_p] at the window [(i, j)]. *)
Definition potential_transpositions (a_i a_j b_i b_j : gset Z) : gset Z :=
  let diff_i := sym_diff a_i b_i in
  let diff_j := sym_diff a_j b_j in
  let diff_a := sym_diff a_i a_j in
  let diff_b := sym_diff b_i b_j in
  diff_i ∩ diff_j ∩ diff_a ∩ diff_b.

(** Body of [for i in range(0, len(boundary_string_a) - n_i)]. *)
Definition scan_window {runtime : ObjectIdentity} (boundary_string_a boundary_string_b : list (gset Z))
    (n_i i : Z) (st : scan_state) : result scan_state :=
  let j := i + n_i in
  a_i ← py_index boundary_string_a i;
  a_j ← py_index boundary_string_a j;
  b_i ← py_index boundary_string_b i;
  b_j ← py_index boundary_string_b j;
  let t_p := potential_transpositions a_i a_j b_i b_j in
  for_each (apply_candidate i j) (iter_set t_p) st.

(** Body of [for n_i in sorted(n_t)]. *)
Definition scan_span {runtime : ObjectIdentity} (boundary_string_a boundary_string_b : list (gset Z))
    (n : Z) (st : scan_state) : result scan_state :=
  let n_i := n - 1 in
  for_each (scan_window boundary_string_a boundary_string_b n_i)
           (py_range 0 (len boundary_string_a - n_i)) st.

Definition find_transpositions_from {runtime : ObjectIdentity}
    (boundary_string_a boundary_string_b : list (gset Z))
    (n_t : list Z) (st : scan_state) : result scan_state :=
  for_each (scan_span boundary_string_a boundary_string_b) (sorted n_t) st.

(** Returns the list and the mutated [options_set]. *)
Definition find_transpositions {runtime : ObjectIdentity}
    (boundary_string_a boundary_string_b : list (gset Z))
    (n_t : list Z) (options_set0 : gmap Z Difference)
    : result (list Transposition * gmap Z Difference) :=
  st ← find_transpositions_from boundary_string_a boundary_string_b n_t
         (mkScan ∅ [] options_set0);
  Ok (transpositions st, options_set st).

(** ** optional_set_edits *)

Definition record_position (os : gmap Z Difference) (e : Z * (gset Z * gset Z))
    : gmap Z Difference :=
  let i := e.1 in
  let a_i := e.2.1 in
  let b_i := e.2.2 in
  let a := a_i ∖ b_i in
  let b := b_i ∖ a_i in
  let d := sym_diff a_i b_i in
  if bool_decide (0 < len_set d) then <[i := mkDifference d a b]> os else os.

Definition optional_set_edits
    (boundary_string_a boundary_string_b : list (gset Z))
    : gmap Z Difference :=
  foldl record_position ∅ (enumerate (zip boundary_string_a boundary_string_b)).

(** ** boundary_edit_distance *)

(** Body of [for option in options_set.values()]. *)
Definition collect_edits (option : Difference)
    (acc : list Addition * list Substitution)
    : result (list Addition * list Substitution) :=
  cur ← additions_substitutions_sets (sim option) (a_b option) (b_a option);
  Ok (acc.1 ++ cur.1, acc.2 ++ iter_substitutions cur.2).

Definition boundary_edit_distance {runtime : ObjectIdentity}
    (boundary_string_a boundary_string_b : list (gset Z)) (n_t : Z)
    : result (list Addition * list Substitution * list Transposition) :=
  let n_t := py_range 2 (n_t + 1) in
  let options_set := optional_set_edits boundary_string_a boundary_string_b in
  found ← find_transpositions boundary_string_a boundary_string_b n_t options_set;
  edits ← for_each collect_edits (dict_values found.2) ([], []);
  Ok (edits.1, edits.2, found.1).

(** The default maximum span of the signature, [n_t = 2]. *)
Definition DEFAULT_N_T : Z := 2.

(** ** Vocabulary of the properties *)

(** The record [optional_set_edits] stores for one position, if any. *)
Definition position_record (p : gset Z * gset Z) : option Difference :=
  if decide (sym_diff p.1 p.2 = ∅) then None
  else Some (mkDifference (sym_diff p.1 p.2) (p.1 ∖ p.2) (p.2 ∖ p.1)).

(** Number of label occurrences in the per-position symmetric
    differences of two boundary strings. *)
Definition disagreements (boundary_string_a boundary_string_b : list (gset Z))
    : nat :=
  sum_list_with (λ p, size (sym_diff p.1 p.2))
                (zip boundary_string_a boundary_string_b).

(** Number of label occurrences left in a difference mapping. *)
Definition residual_size (os : gmap Z Difference) : nat :=
  sum_list_with (λ kr, size (sim kr.2)) (map_to_list os).

(** A difference record is consistent when its symmetric difference is
    the disjoint union of its one-sided sets. *)
Definition consistent (r : Difference) : Prop :=
  a_b r ## b_a r ∧ sim r = a_b r ∪ b_a r.

(** A pairing of [a] against [b]: pairs of an [a] label with a [b]
    label, no label used twice. *)
Definition is_pairing (a b : gset Z) (m : gset (Z * Z)) : Prop :=
  (∀ x y, (x, y) ∈ m → x ∈ a ∧ y ∈ b) ∧
  (∀ x y y', (x, y) ∈ m → (x, y') ∈ m → y = y') ∧
  (∀ x x' y, (x, y) ∈ m → (x', y) ∈ m → x = x').

(** A pairing that leaves no label of the smaller side unpaired. *)
Definition maximal_pairing (a b : gset Z) (m : gset (Z * Z)) : Prop :=
  is_pairing a b m ∧ size m = (size a `min` size b)%nat.

(** All pairs of orderings visited by the two nested loops, in order. *)
Definition all_orderings (a b : gset Z) : list (list Z * list Z) :=
  flat_map (λ perm_a, map (pair perm_a)
                          (itertools.permutations (sorted (elements b))))
           (itertools.permutations (sorted (elements a))).

(** The [added] list built from the labels a pairing leaves over. *)
Definition added_list (a b : gset Z) (m : gset (Z * Z)) : list Addition :=
  map (λ x, mkAddition x "a") (iter_set (a ∖ substituted_labels m)) ++
  map (λ x, mkAddition x "b") (iter_set (b ∖ substituted_labels m)).

(** The returned set of [Substitution] tuples of a pairing. *)
Definition substitution_set (m : gset (Z * Z)) : gset Substitution :=
  set_map (λ p : Z * Z, mkSubstitution p.1 p.2) m.

(** Position [p] is an endpoint of [t]. *)
Definition touches (t : Transposition) (p : Z) : Prop :=
  t_start t = p ∨ t_end t = p.

(** Some transposition of [ts] has label [d] and an endpoint at [p]. *)
Definition claimed (ts : list Transposition) (p d : Z) : Prop :=
  ∃ t, t ∈ ts ∧ t_type t = d ∧ touches t p.

(** The one-sided sets of [r] can pair at least one label:
    [min(|a|, |b|) > 0]. *)
Definition supports_substitution (r : Difference) : Prop :=
  0 < Z.min (len_set (a_b r)) (len_set (b_a r)).

(** Both endpoints still hold [d] and each still supports a
    substitution. *)
Definition two_substitutions (i j d : Z) (os : gmap Z Difference) : Prop :=
  ∃ r_i r_j, os !! i = Some r_i ∧ os !! j = Some r_j ∧
             d ∈ sim r_i ∧ d ∈ sim r_j ∧
             supports_substitution r_i ∧ supports_substitution r_j.

(** [d] is a candidate label of the window [(i, j)] of the two strings. *)
Definition candidate (a b : list (gset Z)) (i j d : Z) : Prop :=
  ∃ a_i a_j b_i b_j,
    0 ≤ i ∧ 0 ≤ j ∧
    a !! Z.to_nat i = Some a_i ∧ a !! Z.to_nat j = Some a_j ∧
    b !! Z.to_nat i = Some b_i ∧ b !! Z.to_nat j = Some b_j ∧
    d ∈ potential_transpositions a_i a_j b_i b_j.

(** What holds of the scan state between two candidates, [os0] being
    the mapping the scan started from. *)
Record scan_inv (os0 : gmap Z Difference) (st : scan_state) : Prop := {
  inv_dom : ∀ k, is_Some (options_set st !! k) ↔ is_Some (os0 !! k);
  inv_consistent : ∀ k r, options_set st !! k = Some r → consistent r;
  inv_transp : ∀ p t,
    (∃ l, options_transp st !! p = Some l ∧ t ∈ l)
    ↔ (t ∈ transpositions st ∧ touches t p);
  inv_residual : ∀ k r0 r x,
    os0 !! k = Some r0 → options_set st !! k = Some r →
    (x ∈ sim r ↔ x ∈ sim r0 ∧ ¬ claimed (transpositions st) k x);
  inv_count :
    (residual_size (options_set st) + 2 * length (transpositions st)
     = residual_size os0)%nat
}.

(** What holds of the scan state between two candidates whatever the
    runtime answers to [is]: all of [scan_inv] but the count. *)
Record scan_wf (os0 : gmap Z Difference) (st : scan_state) : Prop := {
  wf_dom : ∀ k, is_Some (options_set st !! k) ↔ is_Some (os0 !! k);
  wf_consistent : ∀ k r, options_set st !! k = Some r → consistent r;
  wf_transp : ∀ p t,
    (∃ l, options_transp st !! p = Some l ∧ t ∈ l)
    ↔ (t ∈ transpositions st ∧ touches t p);
  wf_residual : ∀ k r0 r x,
    os0 !! k = Some r0 → options_set st !! k = Some r →
    (x ∈ sim r ↔ x ∈ sim r0 ∧ ¬ claimed (transpositions st) k x)
}.

(** Every label of the string is a shared integer. *)
Definition small_labels (s : list (gset Z)) : Prop :=
  ∀ l d, l ∈ s → d ∈ l → small_int d.

(** The state an accepted candidate leaves behind. *)
Definition accept (i j d : Z) (r_i r_j : Difference) (st : scan_state)
    : scan_state :=
  let t := mkTransposition i j d in
  mkScan (append_at j t (append_at i t
            (ensure_key j (ensure_key i (options_transp st)))))
         (transpositions st ++ [t])
         (<[j := discard_label d r_j]>
            (<[i := discard_label d r_i]> (options_set st))).

(** The candidates [(i, j, d)] of one window, in the order of the
    [for d in t_p] loop. *)
Definition window_candidates (a b : list (gset Z)) (n_i i : Z)
    : list (Z * Z * Z) :=
  match py_index a i, py_index a (i + n_i), py_index b i, py_index b (i + n_i) with
  | Ok a_i, Ok a_j, Ok b_i, Ok b_j =>
      map (λ d, (i, i + n_i, d)) (iter_set (potential_transpositions a_i a_j b_i b_j))
  | _, _, _, _ => []
  end.

(** All candidates in the order [find_transpositions] meets them; the
    scan is the run of [apply_candidate] over this list
    ([find_transpositions_from_flat]). *)
Definition scan_order (a b : list (gset Z)) (n_t : list Z) : list (Z * Z * Z) :=
  flat_map (λ n, flat_map (window_candidates a b (n - 1))
                          (py_range 0 (len a - (n - 1))))
           (sorted n_t).

(** [apply_candidate] on a candidate given as a triple. *)
Definition apply_candidate' {runtime : ObjectIdentity} (c : Z * Z * Z)
    : scan_state → result scan_state :=
  apply_candidate c.1.1 c.1.2 c.2.

(** The [Transposition] tuple built for a candidate. *)
Definition transposition_of (c : Z * Z * Z) : Transposition :=
  mkTransposition c.1.1 c.1.2 c.2.

(** Label [d] is in none of the three sets of [r]. *)
Definition gone (d : Z) (r : Difference) : Prop :=
  (d ∉ sim r) ∧ (d ∉ a_b r) ∧ (d ∉ b_a r).

(** The record at position [k] exists and no longer holds [d]. *)
Definition removed_at (os : gmap Z Difference) (k d : Z) : Prop :=
  ∃ r, os !! k = Some r ∧ gone d r.

(** Every accepted transposition has had its label removed at both of
    its endpoints. *)
Definition claims_removed (st : scan_state) : Prop :=
  ∀ t, t ∈ transpositions st →
       removed_at (options_set st) (t_start t) (t_type t) ∧
       removed_at (options_set st) (t_end t) (t_type t).

(** The scan order: ascending span, then ascending start. *)
Definition scan_le (c1 c2 : Z * Z * Z) : Prop :=
  c1.1.2 - c1.1.1 < c2.1.2 - c2.1.1 ∨
  (c1.1.2 - c1.1.1 = c2.1.2 - c2.1.1 ∧ c1.1.1 ≤ c2.1.1).

(** The conditions under which a candidate is turned down. *)
Definition rejected (i j d : Z) (st : scan_state) : Prop :=
  claimed (transpositions st) i d ∨ claimed (transpositions st) j d ∨
  two_substitutions i j d (options_set st).

(** The candidates of the windows of span 2 starting in [lo, hi). *)
Definition adjacent_windows (a b : list (gset Z)) (lo hi : Z)
    : list (Z * Z * Z) :=
  flat_map (window_candidates a b 1) (py_range lo hi).

(** The sets of the docstring example: [a_i = {1, 2, 3, 4}],
    [b_i = {1, 6}]. *)
Definition scenario_a : gset Z := ({[1; 2; 3; 4]} : gset Z) ∖ {[1; 6]}.
Definition scenario_b : gset Z := ({[1; 6]} : gset Z) ∖ {[1; 2; 3; 4]}.
Definition scenario_d : gset Z := sym_diff {[1; 2; 3; 4]} {[1; 6]}.

(** [options_transp] lists at each position the accepted transpositions
    that end there. *)
Definition transp_link (st : scan_state) : Prop :=
  ∀ p t, (∃ l, options_transp st !! p = Some l ∧ t ∈ l)
         ↔ (t ∈ transpositions st ∧ touches t p).

(** No two entries of [ts] of the same label share an endpoint. *)
Definition non_overlapping (ts : list Transposition) : Prop :=
  ∀ (n m : nat) t1 t2,
    (n < m)%nat → ts !! n = Some t1 → ts !! m = Some t2 →
    t_type t1 = t_type t2 →
    ¬ touches t1 (t_start t2) ∧ ¬ touches t1 (t_end t2).

(** Record [r'] is what is left of record [r] once the transpositions
    [ts] have taken their labels at position [k]. *)
Definition shrunk_from (ts : list Transposition) (k : Z) (r r' : Difference)
    : Prop :=
  sim r' ⊆ sim r ∧ a_b r' ⊆ a_b r ∧ b_a r' ⊆ b_a r ∧
  (∀ x, x ∈ sim r → x ∉ sim r' → claimed ts k x) ∧
  (consistent r → consistent r').

(** Label [d] is in one string at [a_i], [b_i] and in the other one at
    [a_j], [b_j]. *)
Definition shifted (d : Z) (a_i a_j b_i b_j : gset Z) : Prop :=
  (d ∈ a_i ∧ (d ∉ b_i) ∧ (d ∉ a_j) ∧ d ∈ b_j) ∨
  ((d ∉ a_i) ∧ d ∈ b_i ∧ d ∈ a_j ∧ (d ∉ b_j)).

(** The record of a position when the two strings trade places. *)
Definition swap_record (r : Difference) : Difference :=
  mkDifference (sim r) (b_a r) (a_b r).

(** The scan state when the two strings trade places. *)
Definition swap_state (st : scan_state) : scan_state :=
  mkScan (options_transp st) (transpositions st)
         (swap_record <$> options_set st).

Definition result_map {A B : Type} (f : A → B) (m : result A) : result B :=
  match m with
  | Ok x => Ok (f x)
  | Raise e => Raise e
  end.

(** Labels of a record the matcher leaves unpaired, and pairs it makes. *)
Definition unpaired_count (r : Difference) : nat :=
  (size (a_b r) + size (b_a r) - 2 * (size (a_b r) `min` size (b_a r)))%nat.

Definition paired_count (r : Difference) : nat :=
  (size (a_b r) `min` size (b_a r))%nat.

(** The pairing and the delta of a pair of orderings. *)
Definition pairing_of (pp : list Z * list Z) : gset (Z * Z) :=
  list_to_set (zip pp.1 pp.2).

Definition delta_of (pp : list Z * list Z) : Z := pairing_delta (pairing_of pp).

(** * Properties *)

#[local] Set Warnings "-clear-no-such-hyp".

(** ** Sanity checks on concrete inputs *)

Example permutations_3 :
  itertools.permutations [1; 2; 3]
  = [[1;2;3]; [1;3;2]; [2;1;3]; [2;3;1]; [3;1;2]; [3;2;1]].
Proof. reflexivity. Qed.

Example permutations_0 : itertools.permutations (@nil Z) = [[]].
Proof. reflexivity. Qed.

Example docstring_additions_substitutions :
  let a_i : gset Z := {[1; 2; 3; 4]} in
  let b_i : gset Z := {[1; 6]} in
  additions_substitutions (sym_diff a_i b_i) (a_i ∖ b_i) (b_i ∖ a_i)
  = (2, (2 # 2)%Q).
Proof. vm_compute. reflexivity. Qed.

Example docstring_additions_substitutions_sets :
  let a_i : gset Z := {[1; 2; 3; 4]} in
  let b_i : gset Z := {[1; 6]} in
  additions_substitutions_sets (sym_diff a_i b_i) (a_i ∖ b_i) (b_i ∖ a_i)
  = Ok ([mkAddition 2 "a"; mkAddition 3 "a"], {[ mkSubstitution 4 6 ]}).
Proof. vm_compute. reflexivity. Qed.

Example transposition_example :
  boundary_edit_distance (runtime := by_value) [{[1]}; ∅; ∅] [∅; {[1]}; ∅] 2
  = Ok ([], [], [mkTransposition 0 1 1]).
Proof. vm_compute. reflexivity. Qed.

(** ** Loops, ranges and indexing *)

Section python_runtime.
Context {A S : Type}.
Implicit Types (f : A → S → result S) (l : list A) (st : S).

Lemma for_each_app f l1 l2 st :
  for_each f (l1 ++ l2) st = st' ← for_each f l1 st; for_each f l2 st'.
Proof.
  revert st. induction l1 as [|x l1 IH]; intros st; simpl; [done|].
  destruct (f x st) as [st1|e]; simpl; [apply IH|done].
Qed.

(** An invariant kept by every iteration that runs is kept by the loop,
    and the loop does not raise. *)
Lemma for_each_inv (P : S → Prop) f l st :
  P st →
  (∀ x st0, x ∈ l → P st0 → ∃ st1, f x st0 = Ok st1 ∧ P st1) →
  ∃ st', for_each f l st = Ok st' ∧ P st'.
Proof.
  revert st. induction l as [|x l IH]; intros st HP Hstep; simpl.
  - eauto.
  - destruct (Hstep x st) as (st1 & -> & HP1); [left|done|]. simpl.
    apply IH; [done|]. intros y st0 Hy. apply Hstep. by right.
Qed.

(** The same for a loop that is known to have returned. *)
Lemma for_each_inv_ok (P : S → Prop) f l st st' :
  for_each f l st = Ok st' →
  P st →
  (∀ x st0 st1, x ∈ l → P st0 → f x st0 = Ok st1 → P st1) →
  P st'.
Proof.
  revert st. induction l as [|x l IH]; intros st Hrun HP Hstep; simpl in *.
  - by injection Hrun as <-.
  - destruct (f x st) as [st1|e] eqn:Hf; simpl in Hrun; [|done].
    apply (IH st1); [done| |].
    + eapply Hstep; [left|done..].
    + intros y st0 st2 Hy. apply Hstep. by right.
Qed.

Lemma for_each_raise f l1 x l2 st st1 e :
  for_each f l1 st = Ok st1 →
  f x st1 = Raise e →
  for_each f (l1 ++ x :: l2) st = Raise e.
Proof. intros H1 H2. rewrite for_each_app, H1. simpl. by rewrite H2. Qed.

Lemma for_each_ext f g l st :
  (∀ x st0, x ∈ l → f x st0 = g x st0) →
  for_each f l st = for_each g l st.
Proof.
  revert st. induction l as [|x l IH]; intros st Hfg; simpl; [done|].
  rewrite Hfg by left. destruct (g x st); simpl; [|done].
  apply IH. intros y st0 Hy. apply Hfg. by right.
Qed.

End python_runtime.

Lemma for_each_flat_map {A B S : Type} (f : B → S → result S) (g : A → list B)
    (l : list A) (st : S) :
  for_each f (flat_map g l) st = for_each (λ x, for_each f (g x)) l st.
Proof.
  revert st. induction l as [|x l IH]; intros st; simpl; [done|].
  rewrite for_each_app. destruct (for_each f (g x) st); simpl; [apply IH|done].
Qed.

Lemma elem_of_py_range lo hi k : k ∈ py_range lo hi ↔ lo ≤ k < hi.
Proof.
  unfold py_range. rewrite list_elem_of_fmap. split.
  - intros (n & -> & Hn). apply elem_of_seq in Hn. lia.
  - intros Hk. exists (Z.to_nat (k - lo)). split; [lia|].
    apply elem_of_seq. lia.
Qed.

Lemma py_range_empty lo hi : hi ≤ lo → py_range lo hi = [].
Proof. intros H. unfold py_range. by replace (Z.to_nat (hi - lo)) with O by lia. Qed.

Lemma length_py_range lo hi : length (py_range lo hi) = Z.to_nat (hi - lo).
Proof. unfold py_range. by rewrite length_map, length_seq. Qed.

Lemma py_range_snoc lo hi : lo ≤ hi → py_range lo (hi + 1) = py_range lo hi ++ [hi].
Proof.
  intros H. unfold py_range.
  replace (Z.to_nat (hi + 1 - lo)) with (Z.to_nat (hi - lo) + 1)%nat by lia.
  rewrite seq_app, map_app. simpl. do 3 f_equal. lia.
Qed.

Lemma py_range_split lo mid hi :
  lo ≤ mid ≤ hi → py_range lo hi = py_range lo mid ++ py_range mid hi.
Proof.
  intros H. unfold py_range.
  replace (Z.to_nat (hi - lo)) with (Z.to_nat (mid - lo) + Z.to_nat (hi - mid))%nat by lia.
  rewrite seq_app, map_app. f_equal.
  replace (0 + Z.to_nat (mid - lo))%nat with (Z.to_nat (mid - lo) + 0)%nat by lia.
  rewrite <- fmap_add_seq.
  change (map ?f (?g <$> ?l)) with (f <$> (g <$> l)).
  rewrite <- list_fmap_compose. apply list_fmap_ext. intros _ k _. simpl. lia.
Qed.

Lemma py_range_cons lo hi : lo < hi → py_range lo hi = lo :: py_range (lo + 1) hi.
Proof.
  intros H. rewrite (py_range_split lo (lo + 1) hi) by lia.
  f_equal. unfold py_range. replace (Z.to_nat (lo + 1 - lo)) with 1%nat by lia.
  simpl. f_equal. lia.
Qed.

Lemma py_range_sorted lo hi : StronglySorted Z.le (py_range lo hi).
Proof.
  unfold py_range. generalize (Z.to_nat (hi - lo)) as n. generalize 0%nat as s.
  intros s n. revert s. induction n as [|n IH]; intros s; simpl; constructor.
  - apply IH.
  - apply Forall_forall. intros k Hk. apply list_elem_of_fmap in Hk as (m & -> & Hm).
    apply elem_of_seq in Hm. lia.
Qed.

#[local] Instance Zle_antisymm : AntiSymm eq Z.le.
Proof. intros x y ??. lia. Qed.
#[local] Instance Zle_total : Total Z.le.
Proof. intros x y. lia. Qed.

Lemma sorted_Permutation l : sorted l ≡ₚ l.
Proof. apply merge_sort_Permutation. Qed.

Lemma sorted_StronglySorted l : StronglySorted Z.le (sorted l).
Proof. apply StronglySorted_merge_sort; apply _. Qed.

Lemma sorted_id l : StronglySorted Z.le l → sorted l = l.
Proof.
  intros H. apply (StronglySorted_unique Z.le); [apply sorted_StronglySorted|done|].
  apply sorted_Permutation.
Qed.

Lemma sorted_py_range lo hi : sorted (py_range lo hi) = py_range lo hi.
Proof. apply sorted_id, py_range_sorted. Qed.

Lemma elem_of_iter_set (s : gset Z) x : x ∈ iter_set s ↔ x ∈ s.
Proof. unfold iter_set. rewrite sorted_Permutation. apply elem_of_elements. Qed.

Lemma length_iter_set (s : gset Z) : length (iter_set s) = size s.
Proof. unfold iter_set. apply Permutation_length, sorted_Permutation. Qed.

Lemma NoDup_iter_set (s : gset Z) : NoDup (iter_set s).
Proof. unfold iter_set. rewrite sorted_Permutation. apply NoDup_elements. Qed.

Lemma iter_set_empty : iter_set ∅ = [].
Proof. apply length_zero_iff_nil. by rewrite length_iter_set. Qed.

Lemma py_index_lookup {A} (l : list A) (i : nat) x :
  l !! i = Some x → py_index l (Z.of_nat i) = Ok x.
Proof.
  intros H. unfold py_index. cbv zeta.
  rewrite (bool_decide_true (0 ≤ Z.of_nat i)) by lia.
  rewrite bool_decide_true by lia. by rewrite Nat2Z.id, H.
Qed.

Lemma py_index_in_range {A} (l : list A) i :
  0 ≤ i < len l → ∃ x, l !! Z.to_nat i = Some x ∧ py_index l i = Ok x.
Proof.
  intros H. unfold len in H.
  destruct (lookup_lt_is_Some_2 l (Z.to_nat i)) as [x Hx]; [lia|].
  exists x. split; [done|]. rewrite <- (Z2Nat.id i) by lia. by apply py_index_lookup.
Qed.

Lemma py_index_past_end {A} (l : list A) i :
  len l ≤ i → py_index l i = Raise IndexError.
Proof.
  intros H. unfold py_index, len in *. cbv zeta.
  rewrite (bool_decide_true (0 ≤ i)) by lia.
  rewrite bool_decide_true by lia. by rewrite lookup_ge_None_2 by lia.
Qed.

(** C9 *)
Lemma additions_substitutions_spec (d a b : gset Z) :
  a ## b → d = a ∪ b →
  (additions_substitutions d a b).1 = Z.abs (len_set a - len_set b) ∧
  ((additions_substitutions d a b).2 == inject_Z (Z.min (len_set a) (len_set b)))%Q.
Proof.
  intros Hdisj ->. split; [done|]. unfold additions_substitutions; simpl.
  unfold len_set. rewrite size_union by done.
  unfold Qeq, Qdiv, Qmult, Qinv, inject_Z; simpl. lia.
Qed.

(** ** Difference extraction *)

Lemma enumerate_snoc {A} (l : list A) x :
  enumerate (l ++ [x]) = enumerate l ++ [(len l, x)].
Proof.
  unfold enumerate, len. rewrite length_app. simpl.
  rewrite Nat2Z.inj_add. change (Z.of_nat 1) with 1.
  rewrite py_range_snoc by lia.
  rewrite zip_with_app; [done|].
  rewrite length_py_range. lia.
Qed.

Lemma optional_set_edits_snoc (l : list (gset Z * gset Z)) x :
  foldl record_position ∅ (enumerate (l ++ [x]))
  = record_position (foldl record_position ∅ (enumerate l)) (len l, x).
Proof. by rewrite enumerate_snoc, foldl_app. Qed.

Lemma record_position_lookup os i x k :
  record_position os (i, x) !! k
  = if decide (i = k)
    then match position_record x with Some r => Some r | None => os !! k end
    else os !! k.
Proof.
  unfold record_position, position_record, len_set. simpl.
  destruct (decide (sym_diff x.1 x.2 = ∅)) as [He|Hne].
  - rewrite He, size_empty. rewrite bool_decide_false by lia. by case_decide.
  - rewrite bool_decide_true.
    + by rewrite lookup_insert.
    + assert (size (sym_diff x.1 x.2) ≠ 0%nat); [|lia].
      apply size_non_empty_iff. by intros ?%leibniz_equiv.
Qed.

Lemma enumerate_fold_lookup (l : list (gset Z * gset Z)) k :
  foldl record_position ∅ (enumerate l) !! k
  = if decide (0 ≤ k) then l !! Z.to_nat k ≫= position_record else None.
Proof.
  induction l as [|x l IH] using rev_ind.
  - simpl. rewrite lookup_empty. by case_decide.
  - rewrite optional_set_edits_snoc, record_position_lookup, IH. unfold len.
    destruct (decide (Z.of_nat (length l) = k)) as [<-|Hne].
    + rewrite decide_True by lia. rewrite Nat2Z.id.
      rewrite lookup_app_r, Nat.sub_diag by lia. simpl.
      rewrite (lookup_ge_None_2 l) by lia. simpl.
      rewrite decide_True by lia. by destruct (position_record x).
    + case_decide; [|done].
      destruct (decide (Z.to_nat k < length l)%nat).
      * by rewrite lookup_app_l by lia.
      * rewrite (lookup_ge_None_2 l) by lia.
        rewrite (lookup_ge_None_2 (l ++ [x])); [done|].
        rewrite length_app; simpl; lia.
Qed.

Lemma optional_set_edits_lookup a b k :
  optional_set_edits a b !! k
  = if decide (0 ≤ k) then zip a b !! Z.to_nat k ≫= position_record else None.
Proof. apply enumerate_fold_lookup. Qed.

Lemma optional_set_edits_lookup_Some a b k r :
  optional_set_edits a b !! k = Some r ↔
  ∃ a_k b_k, 0 ≤ k ∧ a !! Z.to_nat k = Some a_k ∧ b !! Z.to_nat k = Some b_k ∧
             sym_diff a_k b_k ≠ ∅ ∧
             r = mkDifference (sym_diff a_k b_k) (a_k ∖ b_k) (b_k ∖ a_k).
Proof.
  rewrite optional_set_edits_lookup. case_decide; [|naive_solver].
  rewrite lookup_zip_with. unfold position_record. split.
  - destruct (a !! Z.to_nat k) as [a_k|]; simpl; [|done].
    destruct (b !! Z.to_nat k) as [b_k|]; simpl; [|done].
    case_decide; [done|]. intros [= <-]. by exists a_k, b_k.
  - intros (a_k & b_k & _ & -> & -> & Hne & ->). simpl. by rewrite decide_False.
Qed.

Lemma position_record_consistent p r : position_record p = Some r → consistent r.
Proof.
  unfold position_record. case_decide; [done|]. intros [= <-].
  unfold consistent, sym_diff; simpl. set_solver.
Qed.

Lemma optional_set_edits_consistent a b k r :
  optional_set_edits a b !! k = Some r → consistent r.
Proof.
  rewrite optional_set_edits_lookup. case_decide; [|done].
  destruct (zip a b !! Z.to_nat k) as [p|]; simpl; [|done].
  apply position_record_consistent.
Qed.

Lemma residual_size_empty : residual_size ∅ = 0%nat.
Proof. unfold residual_size. by rewrite map_to_list_empty. Qed.

Lemma residual_size_insert_fresh os k r :
  os !! k = None → residual_size (<[k := r]> os) = (size (sim r) + residual_size os)%nat.
Proof. intros H. unfold residual_size. by rewrite map_to_list_insert. Qed.

Lemma residual_size_lookup os k r :
  os !! k = Some r → residual_size os = (size (sim r) + residual_size (delete k os))%nat.
Proof. intros H. unfold residual_size. by rewrite <- (map_to_list_delete os k r). Qed.

Lemma residual_size_insert os k r r' :
  os !! k = Some r →
  (residual_size (<[k := r']> os) + size (sim r) = residual_size os + size (sim r'))%nat.
Proof.
  intros H. rewrite (residual_size_lookup os k r H).
  rewrite <- (insert_delete_eq os k r').
  rewrite residual_size_insert_fresh by apply lookup_delete_eq. lia.
Qed.

Lemma residual_size_optional_set_edits a b :
  residual_size (optional_set_edits a b) = disagreements a b.
Proof.
  unfold optional_set_edits, disagreements.
  induction (zip a b) as [|x l IH] using rev_ind.
  - apply residual_size_empty.
  - rewrite optional_set_edits_snoc, sum_list_with_app. simpl. rewrite <- IH.
    unfold record_position. simpl. case_bool_decide as Hd.
    + rewrite residual_size_insert_fresh; [simpl; lia|].
      rewrite enumerate_fold_lookup, decide_True by (unfold len; lia).
      unfold len. by rewrite Nat2Z.id, lookup_ge_None_2.
    + unfold len_set in Hd. lia.
Qed.

Lemma residual_size_dict_values os :
  sum_list_with (λ r, size (sim r)) (dict_values os) = residual_size os.
Proof.
  unfold dict_values, residual_size.
  rewrite <- (merge_sort_Permutation key_le (map_to_list os)) at 2.
  generalize (merge_sort key_le (map_to_list os)). intros l.
  induction l as [|x l IH]; simpl; [done|]. by rewrite IH.
Qed.

Lemma elem_of_dict_values os r : r ∈ dict_values os ↔ ∃ k, os !! k = Some r.
Proof.
  unfold dict_values. rewrite list_elem_of_fmap. split.
  - intros ([k r'] & -> & H). rewrite merge_sort_Permutation in H.
    apply elem_of_map_to_list in H. eauto.
  - intros [k H]. exists (k, r). split; [done|].
    rewrite merge_sort_Permutation. by apply elem_of_map_to_list.
Qed.

(** ** Permutations and the pairing search *)

Section permutations.
Context {A : Type}.
Implicit Types (l p : list A).

Lemma selections_sound l x rest :
  (x, rest) ∈ itertools.selections l → l ≡ₚ x :: rest.
Proof.
  revert x rest. induction l as [|y l IH]; intros x rest; simpl.
  - by intros ?%elem_of_nil.
  - rewrite elem_of_cons, list_elem_of_fmap.
    intros [[= -> ->]|([x' rest'] & [= -> ->] & Hin)]; [done|].
    simpl. rewrite (IH _ _ Hin). apply Permutation_swap.
Qed.

Lemma selections_complete l x :
  x ∈ l → ∃ rest, (x, rest) ∈ itertools.selections l.
Proof.
  induction l as [|y l IH]; simpl.
  - by intros ?%elem_of_nil.
  - intros [->|Hin]%elem_of_cons.
    + exists l. left.
    + destruct (IH Hin) as [rest Hrest]. exists (y :: rest). right.
      apply list_elem_of_fmap. by exists (x, rest).
Qed.

Lemma permutations_of_length_sound n l p :
  length l = n → p ∈ itertools.permutations_of_length n l → p ≡ₚ l.
Proof.
  revert l p. induction n as [|n IH]; intros l p Hlen; simpl.
  - intros ->%list_elem_of_singleton. by destruct l.
  - rewrite list_elem_of_In, in_flat_map.
    intros ([x rest] & Hsel%list_elem_of_In & Hp%list_elem_of_In).
    simpl in Hp. apply list_elem_of_fmap in Hp as (p' & -> & Hp').
    pose proof (selections_sound _ _ _ Hsel) as Hl.
    rewrite Hl. constructor. apply IH; [|done].
    apply Permutation_length in Hl. simpl in Hl. lia.
Qed.

Lemma permutations_of_length_complete n l p :
  length l = n → p ≡ₚ l → p ∈ itertools.permutations_of_length n l.
Proof.
  revert l p. induction n as [|n IH]; intros l p Hlen Hp; simpl.
  - destruct l; [|done]. apply Permutation_nil_r in Hp as ->. left.
  - destruct p as [|x p].
    { apply Permutation_length in Hp. simpl in Hp. lia. }
    destruct (selections_complete l x) as [rest Hsel].
    { rewrite <- Hp. left. }
    pose proof (selections_sound _ _ _ Hsel) as Hl.
    rewrite list_elem_of_In, in_flat_map. exists (x, rest).
    split; [by apply list_elem_of_In|]. apply list_elem_of_In. simpl.
    apply list_elem_of_fmap. exists p. split; [done|]. apply IH.
    + apply Permutation_length in Hl. simpl in Hl. lia.
    + apply (Permutation_cons_inv (a := x)). by rewrite Hp.
Qed.

Lemma elem_of_permutations l p : p ∈ itertools.permutations l ↔ p ≡ₚ l.
Proof.
  split.
  - by apply permutations_of_length_sound.
  - by apply permutations_of_length_complete.
Qed.

End permutations.

Lemma foldl_nested {A B S} (f : A → B → S → S) (la : list A) (lb : list B) st :
  foldl (λ st x, foldl (λ st y, f x y st) st lb) st la
  = foldl (λ st pp, f pp.1 pp.2 st) st (flat_map (λ x, map (pair x) lb) la).
Proof.
  revert st. induction la as [|x la IH]; intros st; simpl; [done|].
  rewrite foldl_app, <- IH. f_equal.
  change (map ?g ?l) with (g <$> l). by rewrite foldl_fmap.
Qed.

Lemma search_pairings_flat a b :
  search_pairings a b
  = foldl (λ st pp, consider_pairing pp.1 pp.2 st) (None, ∅) (all_orderings a b).
Proof. apply (foldl_nested consider_pairing). Qed.

Lemma elem_of_all_orderings a b pa pb :
  (pa, pb) ∈ all_orderings a b ↔ pa ≡ₚ elements a ∧ pb ≡ₚ elements b.
Proof.
  unfold all_orderings. rewrite list_elem_of_In, in_flat_map. split.
  - intros (pa' & Hpa%list_elem_of_In & Hpb%list_elem_of_In).
    apply list_elem_of_fmap in Hpb as (pb' & [= -> ->] & Hpb).
    apply elem_of_permutations in Hpa, Hpb.
    split; (etrans; [eassumption|apply sorted_Permutation]).
  - intros [Hpa Hpb]. exists pa. split; apply list_elem_of_In.
    + apply elem_of_permutations. by rewrite sorted_Permutation.
    + apply list_elem_of_fmap. exists pb. split; [done|].
      apply elem_of_permutations. by rewrite sorted_Permutation.
Qed.

(** The search keeps the first pairing of least delta. *)
Lemma search_fold_spec (L : list (list Z * list Z)) :
  match (foldl (λ st pp, consider_pairing pp.1 pp.2 st) (None, ∅) L).1 with
  | None => L = []
  | Some delta =>
      let m := (foldl (λ st pp, consider_pairing pp.1 pp.2 st) (None, ∅) L).2 in
      delta = pairing_delta m ∧
      (∃ pp, pp ∈ L ∧ m = list_to_set (zip pp.1 pp.2)) ∧
      (∀ pp, pp ∈ L → delta ≤ pairing_delta (list_to_set (zip pp.1 pp.2)))
  end.
Proof.
  induction L as [|pp L IH] using rev_ind; [done|].
  rewrite foldl_app. simpl.
  destruct (foldl _ _ L) as [[delta|] m]; simpl in *.
  - destruct IH as (-> & (pp0 & Hpp0 & ->) & Hmin).
    unfold consider_pairing; simpl. case_bool_decide as Hlt; simpl.
    + split; [done|]. split.
      * exists pp. split; [|done]. apply elem_of_app. right. left.
      * intros pp' [Hin| ->%list_elem_of_singleton]%elem_of_app; [|lia].
        specialize (Hmin pp' Hin). lia.
    + split; [done|]. split.
      * exists pp0. split; [|done]. apply elem_of_app. by left.
      * intros pp' [Hin| ->%list_elem_of_singleton]%elem_of_app; [|lia].
        by apply Hmin.
  - subst L. unfold consider_pairing; simpl. split; [done|]. split.
    + exists pp. split; [left|done].
    + by intros pp' ->%list_elem_of_singleton.
Qed.

Section pairings.
Context (a b : gset Z).

Lemma zip_is_pairing (pa pb : list Z) :
  pa ≡ₚ elements a → pb ≡ₚ elements b →
  maximal_pairing a b (list_to_set (zip pa pb)).
Proof.
  intros Hpa Hpb.
  assert (NoDup pa) as Hna by (rewrite Hpa; apply NoDup_elements).
  assert (NoDup pb) as Hnb by (rewrite Hpb; apply NoDup_elements).
  split; [split; [|split]|].
  - intros x y Hxy%elem_of_list_to_set. split.
    + apply elem_of_elements. rewrite <- Hpa. by eapply elem_of_zip_l.
    + apply elem_of_elements. rewrite <- Hpb. by eapply elem_of_zip_r.
  - intros x y y' [i Hi]%elem_of_list_to_set%list_elem_of_lookup
                  [j Hj]%elem_of_list_to_set%list_elem_of_lookup.
    apply lookup_zip_with_Some in Hi as (x1 & y1 & Hi & Hi1 & Hi2).
    apply lookup_zip_with_Some in Hj as (x2 & y2 & Hj & Hj1 & Hj2).
    injection Hi as -> ->. injection Hj as -> ->.
    assert (i = j) as -> by apply (NoDup_lookup pa i j x2 Hna Hi1 Hj1).
    congruence.
  - intros x x' y [i Hi]%elem_of_list_to_set%list_elem_of_lookup
                  [j Hj]%elem_of_list_to_set%list_elem_of_lookup.
    apply lookup_zip_with_Some in Hi as (x1 & y1 & Hi & Hi1 & Hi2).
    apply lookup_zip_with_Some in Hj as (x2 & y2 & Hj & Hj1 & Hj2).
    injection Hi as -> ->. injection Hj as -> ->.
    assert (i = j) as -> by apply (NoDup_lookup pb i j y2 Hnb Hi2 Hj2).
    congruence.
  - rewrite size_list_to_set; [|by apply NoDup_zip_l].
    rewrite length_zip.
    by rewrite (Permutation_length Hpa), (Permutation_length Hpb).
Qed.

Lemma pairing_fst_inj m :
  is_pairing a b m → ∀ p q, p ∈ elements m → q ∈ elements m → p.1 = q.1 → p = q.
Proof.
  intros (_ & Hf & _) [x y] [x' y'] Hp%elem_of_elements Hq%elem_of_elements.
  simpl. intros <-. f_equal. eauto.
Qed.

Lemma pairing_snd_inj m :
  is_pairing a b m → ∀ p q, p ∈ elements m → q ∈ elements m → p.2 = q.2 → p = q.
Proof.
  intros (_ & _ & Hf) [x y] [x' y'] Hp%elem_of_elements Hq%elem_of_elements.
  simpl. intros <-. f_equal. eauto.
Qed.

(** Every maximal pairing is visited by the search. *)
Lemma maximal_pairing_visited m :
  maximal_pairing a b m →
  ∃ pa pb, (pa, pb) ∈ all_orderings a b ∧ m = list_to_set (zip pa pb).
Proof.
  intros [Hm Hsize].
  set (ps := elements m).
  set (ra := elements (a ∖ list_to_set (ps.*1))).
  set (rb := elements (b ∖ list_to_set (ps.*2))).
  assert (NoDup (ps.*1)) as Hn1.
  { apply NoDup_fmap_2_strong; [by apply pairing_fst_inj|apply NoDup_elements]. }
  assert (NoDup (ps.*2)) as Hn2.
  { apply NoDup_fmap_2_strong; [by apply pairing_snd_inj|apply NoDup_elements]. }
  assert (∀ x, x ∈ ps.*1 → x ∈ a) as Hin1.
  { intros x ([x' y] & -> & Hp%elem_of_elements)%list_elem_of_fmap.
    by destruct (proj1 Hm _ _ Hp). }
  assert (∀ y, y ∈ ps.*2 → y ∈ b) as Hin2.
  { intros y ([x y'] & -> & Hp%elem_of_elements)%list_elem_of_fmap.
    by destruct (proj1 Hm _ _ Hp). }
  assert (ps.*1 ++ ra ≡ₚ elements a) as Hpa.
  { apply NoDup_Permutation; [|apply NoDup_elements|].
    - apply NoDup_app. split; [done|]. split; [|apply NoDup_elements].
      intros x Hx. unfold ra. rewrite elem_of_elements. set_solver.
    - intros x. unfold ra. rewrite elem_of_app, !elem_of_elements.
      rewrite elem_of_difference, elem_of_list_to_set.
      destruct (decide (x ∈ ps.*1)); naive_solver. }
  assert (ps.*2 ++ rb ≡ₚ elements b) as Hpb.
  { apply NoDup_Permutation; [|apply NoDup_elements|].
    - apply NoDup_app. split; [done|]. split; [|apply NoDup_elements].
      intros x Hx. unfold rb. rewrite elem_of_elements. set_solver.
    - intros x. unfold rb. rewrite elem_of_app, !elem_of_elements.
      rewrite elem_of_difference, elem_of_list_to_set.
      destruct (decide (x ∈ ps.*2)); naive_solver. }
  exists (ps.*1 ++ ra), (ps.*2 ++ rb). split.
  { by apply elem_of_all_orderings. }
  rewrite zip_with_app; [|by rewrite !length_fmap].
  rewrite zip_fst_snd.
  assert (zip ra rb = []) as ->.
  { apply length_zero_iff_nil. rewrite length_zip.
    apply Permutation_length in Hpa, Hpb.
    rewrite length_app, length_fmap in Hpa, Hpb.
    unfold size, set_size in Hsize. simpl in Hsize.
    fold ps in Hsize. lia. }
  rewrite app_nil_r. unfold ps. by rewrite list_to_set_elements_L.
Qed.

End pairings.

(** What the search returns: a maximal pairing of least delta. *)
Lemma search_pairings_spec a b :
  let m := (search_pairings a b).2 in
  maximal_pairing a b m ∧
  ∀ m', maximal_pairing a b m' → pairing_delta m ≤ pairing_delta m'.
Proof.
  rewrite search_pairings_flat.
  pose proof (search_fold_spec (all_orderings a b)) as H.
  destruct (foldl _ _ _) as [[delta|] m]; simpl in *.
  - destruct H as (-> & ([pa pb] & Hpp & ->) & Hmin). split.
    + apply elem_of_all_orderings in Hpp as [??]. by apply zip_is_pairing.
    + intros m' (pa' & pb' & Hpp' & ->)%maximal_pairing_visited.
      apply (Hmin _ Hpp').
  - assert ((elements a, elements b) ∈ all_orderings a b) as Hin
      by by apply elem_of_all_orderings.
    rewrite H in Hin. by apply elem_of_nil in Hin.
Qed.

(** ** The substitution matcher *)

Lemma elem_of_substituted_labels m z :
  z ∈ substituted_labels m ↔ ∃ x y, (x, y) ∈ m ∧ (z = x ∨ z = y).
Proof.
  unfold substituted_labels.
  rewrite elem_of_list_to_set, list_elem_of_In, in_flat_map. split.
  - intros ([x y] & Hp%list_elem_of_In%elem_of_elements & Hz). simpl in Hz.
    exists x, y. naive_solver.
  - intros (x & y & Hp & Hz). exists (x, y). split.
    + by apply list_elem_of_In, elem_of_elements.
    + simpl. naive_solver.
Qed.

Lemma size_set_map_fst a b m :
  is_pairing a b m → size (set_map (D := gset Z) fst m) = size m.
Proof.
  intros Hm. unfold set_map. rewrite size_list_to_set; [by rewrite length_fmap|].
  apply NoDup_fmap_2_strong; [by eapply pairing_fst_inj|apply NoDup_elements].
Qed.

Lemma size_set_map_snd a b m :
  is_pairing a b m → size (set_map (D := gset Z) snd m) = size m.
Proof.
  intros Hm. unfold set_map. rewrite size_list_to_set; [by rewrite length_fmap|].
  apply NoDup_fmap_2_strong; [by eapply pairing_snd_inj|apply NoDup_elements].
Qed.

Lemma unpaired_left a b m :
  a ## b → is_pairing a b m →
  a ∖ substituted_labels m = a ∖ set_map fst m ∧ set_map (D := gset Z) fst m ⊆ a.
Proof.
  intros Hdisj (Hin & _). split.
  - apply set_eq. intros z. rewrite !elem_of_difference, elem_of_substituted_labels.
    rewrite elem_of_map. split; intros [Hz Hn]; (split; [done|]).
    + intros ([x y] & -> & Hp). apply Hn. exists x, y. auto.
    + intros (x & y & Hp & [->| ->]).
      * apply Hn. by exists (x, y).
      * apply Hin in Hp as [_ Hy]. set_solver.
  - intros z ([x y] & -> & Hp)%elem_of_map. by destruct (Hin _ _ Hp).
Qed.

Lemma unpaired_right a b m :
  a ## b → is_pairing a b m →
  b ∖ substituted_labels m = b ∖ set_map snd m ∧ set_map (D := gset Z) snd m ⊆ b.
Proof.
  intros Hdisj (Hin & _). split.
  - apply set_eq. intros z. rewrite !elem_of_difference, elem_of_substituted_labels.
    rewrite elem_of_map. split; intros [Hz Hn]; (split; [done|]).
    + intros ([x y] & -> & Hp). apply Hn. exists x, y. auto.
    + intros (x & y & Hp & [->| ->]).
      * apply Hin in Hp as [Hx _]. set_solver.
      * apply Hn. by exists (x, y).
  - intros z ([x y] & -> & Hp)%elem_of_map. by destruct (Hin _ _ Hp).
Qed.

Lemma length_added_list a b m :
  length (added_list a b m)
  = (size (a ∖ substituted_labels m) + size (b ∖ substituted_labels m))%nat.
Proof. unfold added_list. by rewrite length_app, !length_map, !length_iter_set. Qed.

Lemma length_added_list_pairing a b m :
  a ## b → is_pairing a b m →
  (length (added_list a b m) + 2 * size m = size a + size b)%nat.
Proof.
  intros Hdisj Hm. rewrite length_added_list.
  destruct (unpaired_left a b m Hdisj Hm) as [-> Hsa].
  destruct (unpaired_right a b m Hdisj Hm) as [-> Hsb].
  rewrite !size_difference by done.
  apply subseteq_size in Hsa, Hsb.
  rewrite (size_set_map_fst a b) in * by done.
  rewrite (size_set_map_snd a b) in * by done. lia.
Qed.

Lemma size_substitution_set m : size (substitution_set m) = size m.
Proof.
  unfold substitution_set, set_map.
  rewrite size_list_to_set; [by rewrite length_fmap|].
  apply NoDup_fmap_2_strong; [|apply NoDup_elements].
  intros [x y] [x' y'] _ _ [= -> ->]. done.
Qed.

Lemma elem_of_substitution_set m x y :
  mkSubstitution x y ∈ substitution_set m ↔ (x, y) ∈ m.
Proof.
  unfold substitution_set. rewrite elem_of_map. split.
  - by intros ([x' y'] & [= -> ->] & Hp).
  - intros Hp. by exists (x, y).
Qed.

Lemma length_iter_substitutions s : length (iter_substitutions s) = size s.
Proof. apply Permutation_length, merge_sort_Permutation. Qed.

(** On a consistent record the assertion holds and the matcher returns. *)
Lemma additions_substitutions_sets_returns d a b :
  a ## b → d = a ∪ b →
  additions_substitutions_sets d a b
  = Ok (added_list a b (search_pairings a b).2,
        substitution_set (search_pairings a b).2).
Proof.
  intros Hdisj ->. unfold additions_substitutions_sets.
  fold (added_list a b (search_pairings a b).2).
  fold (substitution_set (search_pairings a b).2).
  rewrite bool_decide_true; [done|].
  rewrite length_added_list, <- size_union by set_solver.
  f_equal. set_solver.
Qed.

(** Each label of a consistent record is spent once: as an addition or
    as one end of a substitution. *)
Lemma additions_substitutions_sets_count r :
  consistent r →
  ∃ added subs,
    additions_substitutions_sets (sim r) (a_b r) (b_a r) = Ok (added, subs) ∧
    (length added + 2 * length (iter_substitutions subs) = size (sim r))%nat.
Proof.
  intros [Hdisj Hd]. eexists _, _. split.
  { by apply additions_substitutions_sets_returns. }
  rewrite length_iter_substitutions, size_substitution_set.
  rewrite length_added_list_pairing; [|done|apply search_pairings_spec].
  rewrite Hd. by rewrite size_union.
Qed.

(** ** Conflict checks *)

Section conflict_checks.
Context {runtime : ObjectIdentity}.

Lemma small_labels_Forall s :
  small_labels s ↔ Forall (set_Forall small_int) s.
Proof.
  unfold small_labels. rewrite Forall_forall. unfold set_Forall. naive_solver.
Qed.

#[global] Instance small_labels_dec s : Decision (small_labels s).
Proof.
  refine (cast_if (decide (Forall (set_Forall small_int) s)));
    by rewrite small_labels_Forall.
Defined.

Lemma scan_inv_wf os0 st : scan_inv os0 st → scan_wf os0 st.
Proof. intros []. by split. Qed.

(** A detected overlap is an overlap. *)
Lemma check_position_sound i j d ot p :
  check_position i j d ot p = true →
  ∃ l t, ot !! p = Some l ∧ t ∈ l ∧ t_type t = d.
Proof.
  unfold check_position. destruct (ot !! p) as [l|]; [|done].
  rewrite existsb_exists.
  intros (t & Ht%list_elem_of_In & Hd%same_object_sound). eauto.
Qed.

(** On a shared integer no overlap is missed. *)
Lemma check_position_small i j d ot p :
  small_int d →
  (∃ l t, ot !! p = Some l ∧ t ∈ l ∧ t_type t = d) →
  check_position i j d ot p = true.
Proof.
  intros Hd (l & t & Hl & Ht & Heq). unfold check_position. rewrite Hl.
  apply existsb_exists. exists t. split; [by apply list_elem_of_In|].
  by apply same_object_small.
Qed.

Lemma overlaps_existing_sound i j d st os0 :
  scan_wf os0 st →
  overlaps_existing i j d (options_transp st) = true →
  claimed (transpositions st) i d ∨ claimed (transpositions st) j d.
Proof.
  intros Hwf. unfold overlaps_existing, claimed. rewrite orb_true_iff.
  pose proof (wf_transp _ _ Hwf) as Ht.
  intros [H|H]; apply check_position_sound in H as (l & t & Hl & Hin & Hd);
    [left|right]; exists t.
  - destruct (proj1 (Ht i t)) as [??]; eauto.
  - destruct (proj1 (Ht j t)) as [??]; eauto.
Qed.

Lemma overlaps_existing_true i j d st os0 :
  scan_wf os0 st → small_int d →
  overlaps_existing i j d (options_transp st) = true
  ↔ claimed (transpositions st) i d ∨ claimed (transpositions st) j d.
Proof.
  intros Hwf Hsmall. split; [by eapply overlaps_existing_sound|].
  unfold overlaps_existing, claimed. rewrite orb_true_iff.
  pose proof (wf_transp _ _ Hwf) as Ht.
  intros [H|H]; [left|right]; apply check_position_small; try done.
  - destruct H as (t & Hin & Hd & Htouch).
    destruct (proj2 (Ht i t)) as (l & ? & ?); eauto.
  - destruct H as (t & Hin & Hd & Htouch).
    destruct (proj2 (Ht j t)) as (l & ? & ?); eauto.
Qed.

Lemma substitutions_positive r :
  consistent r →
  (if Qlt_le_dec 0 (additions_substitutions (sim r) (a_b r) (b_a r)).2
   then true else false) = bool_decide (supports_substitution r).
Proof.
  intros [Hdisj Hd].
  destruct (additions_substitutions_spec (sim r) (a_b r) (b_a r) Hdisj Hd)
    as [_ Hq].
  unfold supports_substitution.
  destruct (Qlt_le_dec _ _) as [Hlt|Hle]; symmetry.
  - apply bool_decide_eq_true. rewrite Hq in Hlt.
    change 0%Q with (inject_Z 0) in Hlt. by rewrite <- Zlt_Qlt in Hlt.
  - apply bool_decide_eq_false. intros Hpos. rewrite Hq in Hle.
    change 0%Q with (inject_Z 0) in Hle. rewrite <- Zle_Qle in Hle. lia.
Qed.

Lemma has_substitutions_true i j d st os0 :
  scan_wf os0 st →
  has_substitutions i j d (options_set st) = true
  ↔ two_substitutions i j d (options_set st).
Proof.
  intros Hinv. unfold has_substitutions, two_substitutions.
  destruct (options_set st !! i) as [r_i|] eqn:Hi; [|naive_solver].
  destruct (options_set st !! j) as [r_j|] eqn:Hj; [|naive_solver].
  rewrite !substitutions_positive by (eapply wf_consistent; eauto).
  split.
  - intros H. exists r_i, r_j.
    destruct (bool_decide (d ∈ sim r_i)) eqn:H1; [|done].
    destruct (bool_decide (d ∈ sim r_j)) eqn:H2; [|done].
    simpl in H. apply andb_true_iff in H as [H3 H4].
    apply bool_decide_eq_true in H1, H2, H3, H4. done.
  - intros (? & ? & [= <-] & [= <-] & H1 & H2 & H3 & H4).
    rewrite !bool_decide_true by done. done.
Qed.

Lemma ensure_key_lookup k ot p :
  ensure_key k ot !! p
  = match ot !! p with
    | Some l => Some l
    | None => if decide (k = p) then Some [] else None
    end.
Proof.
  unfold ensure_key. destruct (ot !! k) as [l|] eqn:Hk.
  - destruct (ot !! p) eqn:Hp; [done|]. case_decide; congruence.
  - rewrite lookup_insert. case_decide; subst; [by rewrite Hk|].
    by destruct (ot !! p).
Qed.

Lemma append_at_lookup k t ot p :
  append_at k t ot !! p
  = if decide (k = p) then (λ l, l ++ [t]) <$> ot !! p else ot !! p.
Proof. unfold append_at. rewrite lookup_alter. by case_decide; subst. Qed.

(** Recording [t] at both endpoints adds it there and nowhere else. *)
Lemma record_endpoints_lookup ot i j t p t' :
  (∃ l, append_at j t (append_at i t (ensure_key j (ensure_key i ot))) !! p
        = Some l ∧ t' ∈ l)
  ↔ (∃ l, ot !! p = Some l ∧ t' ∈ l) ∨ (t' = t ∧ (i = p ∨ j = p)).
Proof.
  rewrite !append_at_lookup, !ensure_key_lookup.
  destruct (ot !! p) as [l0|] eqn:Hp;
    repeat case_decide; simpl; split;
    try (intros (l & [= <-] & Hin)); try (intros (l & [=] & Hin));
    try (intros [(l & [= <-] & Hin)|[-> Hor]]);
    try (intros [(l & [=] & Hin)|[-> Hor]]);
    rewrite ?elem_of_app, ?list_elem_of_singleton in *;
    try (eexists; split; [done|]);
    rewrite ?elem_of_app, ?list_elem_of_singleton;
    try set_solver.
Qed.

Lemma discard_label_consistent d r : consistent r → consistent (discard_label d r).
Proof. unfold consistent. destruct r; simpl. set_solver. Qed.

Lemma claimed_snoc ts t p d :
  claimed (ts ++ [t]) p d ↔ claimed ts p d ∨ (t_type t = d ∧ touches t p).
Proof.
  unfold claimed. split.
  - intros (t' & [Hin| ->%list_elem_of_singleton]%elem_of_app & Hd & Ht); eauto.
  - intros [(t' & Hin & Hd & Ht)|[Hd Ht]].
    + exists t'. rewrite elem_of_app. auto.
    + exists t. rewrite elem_of_app, list_elem_of_singleton. auto.
Qed.

End conflict_checks.

(** ** One candidate *)

Section one_candidate.
Context {runtime : ObjectIdentity}.

Lemma apply_candidate_rejected i j d st :
  overlaps_existing i j d (options_transp st) = true ∨
  has_substitutions i j d (options_set st) = true →
  apply_candidate i j d st = Ok st.
Proof. unfold apply_candidate. by intros [-> | ->]; rewrite ?andb_false_r. Qed.

Lemma apply_candidate_accepted i j d st r_i r_j :
  overlaps_existing i j d (options_transp st) = false →
  has_substitutions i j d (options_set st) = false →
  options_set st !! i = Some r_i → options_set st !! j = Some r_j → i ≠ j →
  apply_candidate i j d st = Ok (accept i j d r_i r_j st).
Proof.
  intros Ho Hs Hi Hj Hne. unfold apply_candidate, discard_at.
  rewrite Ho, Hs, Hi. simpl. by rewrite lookup_insert_ne, Hj.
Qed.

Lemma size_discard (s : gset Z) d : d ∈ s → (size (s ∖ {[d]}) + 1 = size s)%nat.
Proof.
  intros Hd. rewrite size_difference by set_solver. rewrite size_singleton.
  assert (size s ≠ 0%nat); [|lia].
  apply size_non_empty_iff. set_solver.
Qed.

Lemma accept_wf os0 st i j d r_i r_j :
  scan_wf os0 st → i ≠ j →
  options_set st !! i = Some r_i → options_set st !! j = Some r_j →
  scan_wf os0 (accept i j d r_i r_j st).
Proof.
  intros Hinv Hne Hi Hj. split; simpl.
  - intros k. rewrite <- (wf_dom _ _ Hinv k), !lookup_insert.
    repeat case_decide; subst; rewrite ?Hi, ?Hj; by split; eauto.
  - intros k r. rewrite !lookup_insert. repeat case_decide; subst.
    + intros [= <-]. eapply discard_label_consistent, wf_consistent; eauto.
    + intros [= <-]. eapply discard_label_consistent, wf_consistent; eauto.
    + eapply wf_consistent; eauto.
  - intros p t. rewrite record_endpoints_lookup, (wf_transp _ _ Hinv).
    rewrite elem_of_app, list_elem_of_singleton. unfold touches. split.
    + intros [[??]|[-> ?]]; simpl; auto.
    + intros [[?| ->] ?]; simpl in *; auto.
  - intros k r0 r x Hk0. rewrite claimed_snoc. unfold touches; simpl.
    rewrite !lookup_insert. repeat case_decide; subst.
    + intros [= <-]. simpl. rewrite elem_of_difference, elem_of_singleton.
      rewrite (wf_residual _ _ Hinv _ _ _ x Hk0 Hj). naive_solver.
    + intros [= <-]. simpl. rewrite elem_of_difference, elem_of_singleton.
      rewrite (wf_residual _ _ Hinv _ _ _ x Hk0 Hi). naive_solver.
    + intros Hk. rewrite (wf_residual _ _ Hinv _ _ _ x Hk0 Hk). naive_solver.
Qed.

Lemma accept_inv os0 st i j d r_i r_j :
  scan_inv os0 st → i ≠ j →
  options_set st !! i = Some r_i → options_set st !! j = Some r_j →
  d ∈ sim r_i → d ∈ sim r_j →
  scan_inv os0 (accept i j d r_i r_j st).
Proof.
  intros Hinv Hne Hi Hj Hdi Hdj.
  destruct (accept_wf os0 st i j d r_i r_j (scan_inv_wf _ _ Hinv) Hne Hi Hj)
    as [H1 H2 H3 H4].
  split; try done.
  simpl. rewrite length_app. simpl.
  pose proof (inv_count _ _ Hinv) as Hc.
  pose proof (residual_size_insert (options_set st) i r_i (discard_label d r_i) Hi) as H5.
  pose proof (residual_size_insert (<[i:=discard_label d r_i]> (options_set st))
                j r_j (discard_label d r_j)) as H6.
  rewrite lookup_insert_ne in H6 by done. specialize (H6 Hj). simpl in *.
  pose proof (size_discard _ _ Hdi). pose proof (size_discard _ _ Hdj). lia.
Qed.

(** One candidate, whatever the runtime answers: it is either rejected,
    leaving the state as it is, or accepted; nothing raises. *)
Lemma apply_candidate_wf os0 st i j d :
  scan_wf os0 st → i ≠ j →
  is_Some (os0 !! i) → is_Some (os0 !! j) →
  ∃ st', apply_candidate i j d st = Ok st' ∧ scan_wf os0 st'.
Proof.
  intros Hinv Hne H0i H0j.
  destruct (overlaps_existing i j d (options_transp st)) eqn:Ho.
  { exists st. split; [apply apply_candidate_rejected; auto|done]. }
  destruct (has_substitutions i j d (options_set st)) eqn:Hs.
  { exists st. split; [apply apply_candidate_rejected; auto|done]. }
  destruct (proj2 (wf_dom _ _ Hinv i)) as [r_i Hi]; [done|].
  destruct (proj2 (wf_dom _ _ Hinv j)) as [r_j Hj]; [done|].
  exists (accept i j d r_i r_j st). split.
  { by apply apply_candidate_accepted. }
  by apply accept_wf.
Qed.

(** One candidate with a shared integer for label: no overlap is missed,
    and the count survives as well. *)
Lemma apply_candidate_inv os0 st i j d :
  scan_inv os0 st → i ≠ j → small_int d →
  (∃ r, os0 !! i = Some r ∧ d ∈ sim r) →
  (∃ r, os0 !! j = Some r ∧ d ∈ sim r) →
  ∃ st', apply_candidate i j d st = Ok st' ∧ scan_inv os0 st'.
Proof.
  intros Hinv Hne Hsmall (r0i & H0i & Hd0i) (r0j & H0j & Hd0j).
  destruct (overlaps_existing i j d (options_transp st)) eqn:Ho.
  { exists st. split; [apply apply_candidate_rejected; auto|done]. }
  destruct (has_substitutions i j d (options_set st)) eqn:Hs.
  { exists st. split; [apply apply_candidate_rejected; auto|done]. }
  assert (¬ (claimed (transpositions st) i d ∨ claimed (transpositions st) j d))
    as Hfree.
  { rewrite <- (overlaps_existing_true i j d st os0 (scan_inv_wf _ _ Hinv) Hsmall).
    by rewrite Ho. }
  destruct (proj2 (inv_dom _ _ Hinv i)) as [r_i Hi]; [eauto|].
  destruct (proj2 (inv_dom _ _ Hinv j)) as [r_j Hj]; [eauto|].
  exists (accept i j d r_i r_j st). split.
  { by apply apply_candidate_accepted. }
  apply accept_inv; try done.
  - apply (inv_residual _ _ Hinv _ _ _ d H0i Hi). tauto.
  - apply (inv_residual _ _ Hinv _ _ _ d H0j Hj). tauto.
Qed.

Lemma scan_inv_init os0 :
  (∀ k r, os0 !! k = Some r → consistent r) → scan_inv os0 (mkScan ∅ [] os0).
Proof.
  intros Hc. split; simpl.
  - done.
  - done.
  - intros p t. rewrite lookup_empty. split.
    + by intros (? & [=] & _).
    + by intros [?%elem_of_nil _].
  - intros k r0 r x -> [= <-]. unfold claimed. split; [|tauto].
    intros Hx. split; [done|]. by intros (? & ?%elem_of_nil & _).
  - lia.
Qed.

Lemma scan_wf_init os0 :
  (∀ k r, os0 !! k = Some r → consistent r) → scan_wf os0 (mkScan ∅ [] os0).
Proof. intros Hc. by apply scan_inv_wf, scan_inv_init. Qed.

End one_candidate.

(** ** The scan as a run over candidates *)

Section scan_run.
Context {runtime : ObjectIdentity}.

Lemma scan_window_flat a b n_i i st :
  0 ≤ i → 0 ≤ n_i → i + n_i < len a → i + n_i < len b →
  scan_window a b n_i i st
  = for_each apply_candidate' (window_candidates a b n_i i) st.
Proof.
  intros Hi Hn Ha Hb. unfold scan_window, window_candidates.
  destruct (py_index_in_range a i) as (a_i & _ & ->); [lia|].
  destruct (py_index_in_range a (i + n_i)) as (a_j & _ & ->); [lia|].
  destruct (py_index_in_range b i) as (b_i & _ & ->); [lia|].
  destruct (py_index_in_range b (i + n_i)) as (b_j & _ & ->); [lia|].
  simpl. generalize (iter_set (potential_transpositions a_i a_j b_i b_j)).
  intros l. revert st. induction l as [|d l IH]; intros st; simpl; [done|].
  change (apply_candidate' (i, i + n_i, d) st) with (apply_candidate i (i + n_i) d st).
  destruct (apply_candidate i (i + n_i) d st); simpl; [apply IH|done].
Qed.

Lemma find_transpositions_from_flat a b n_t st :
  (∀ n, n ∈ n_t → 1 ≤ n) → len a ≤ len b →
  find_transpositions_from a b n_t st
  = for_each apply_candidate' (scan_order a b n_t) st.
Proof.
  intros Hn Hlen. unfold find_transpositions_from, scan_order.
  rewrite for_each_flat_map. apply for_each_ext. intros n st0 Hin.
  rewrite sorted_Permutation in Hin. specialize (Hn n Hin).
  unfold scan_span. rewrite for_each_flat_map. apply for_each_ext.
  intros i st1 Hi%elem_of_py_range. apply scan_window_flat; lia.
Qed.

Lemma elem_of_window_candidates a b n_i i c :
  c ∈ window_candidates a b n_i i →
  0 ≤ i → 0 ≤ n_i →
  c.1.1 = i ∧ c.1.2 = i + n_i ∧ candidate a b c.1.1 c.1.2 c.2.
Proof.
  unfold window_candidates, py_index. intros Hc Hi Hn. cbv zeta in Hc.
  rewrite !(bool_decide_true (0 ≤ i)), !(bool_decide_true (0 ≤ i + n_i)) in Hc by lia.
  destruct (a !! Z.to_nat i) as [a_i|] eqn:Hai; [|by apply elem_of_nil in Hc].
  destruct (a !! Z.to_nat (i + n_i)) as [a_j|] eqn:Haj; [|by apply elem_of_nil in Hc].
  destruct (b !! Z.to_nat i) as [b_i|] eqn:Hbi; [|by apply elem_of_nil in Hc].
  destruct (b !! Z.to_nat (i + n_i)) as [b_j|] eqn:Hbj; [|by apply elem_of_nil in Hc].
  apply list_elem_of_fmap in Hc as (d & -> & Hd%elem_of_iter_set). simpl.
  split; [done|]. split; [done|].
  exists a_i, a_j, b_i, b_j. repeat split; try done; lia.
Qed.

Lemma elem_of_scan_order a b n_t c :
  (∀ n, n ∈ n_t → 1 ≤ n) →
  c ∈ scan_order a b n_t →
  candidate a b c.1.1 c.1.2 c.2 ∧
  ∃ n, n ∈ n_t ∧ c.1.2 = c.1.1 + (n - 1) ∧ c.1.2 < len a.
Proof.
  intros Hn. unfold scan_order. rewrite list_elem_of_In, in_flat_map.
  intros (n & Hin%list_elem_of_In & Hc). rewrite sorted_Permutation in Hin.
  apply in_flat_map in Hc as (i & Hi%list_elem_of_In%elem_of_py_range
                                & Hc%list_elem_of_In).
  specialize (Hn n Hin).
  apply elem_of_window_candidates in Hc as (H1 & H2 & H3); [|lia..].
  split; [done|]. exists n. split; [done|]. lia.
Qed.

Lemma candidate_distinct a b i j d : candidate a b i j d → i ≠ j.
Proof.
  intros (a_i & a_j & b_i & b_j & Hi & Hj & Hai & Haj & _ & _ & Hd) ->.
  unfold potential_transpositions, sym_diff in Hd.
  assert (a_i = a_j) by congruence. set_solver.
Qed.

Lemma candidate_recorded a b i j d :
  candidate a b i j d →
  (∃ r, optional_set_edits a b !! i = Some r ∧ d ∈ sim r) ∧
  (∃ r, optional_set_edits a b !! j = Some r ∧ d ∈ sim r).
Proof.
  intros (a_i & a_j & b_i & b_j & Hi & Hj & Hai & Haj & Hbi & Hbj & Hd).
  unfold potential_transpositions in Hd. split.
  - exists (mkDifference (sym_diff a_i b_i) (a_i ∖ b_i) (b_i ∖ a_i)). split.
    + apply optional_set_edits_lookup_Some. exists a_i, b_i.
      repeat split; try done. set_solver.
    + simpl. set_solver.
  - exists (mkDifference (sym_diff a_j b_j) (a_j ∖ b_j) (b_j ∖ a_j)). split.
    + apply optional_set_edits_lookup_Some. exists a_j, b_j.
      repeat split; try done. set_solver.
    + simpl. set_solver.
Qed.

(** A candidate label is a label of the first string. *)
Lemma candidate_small a b i j d :
  small_labels a → candidate a b i j d → small_int d.
Proof.
  intros Hsmall (a_i & a_j & b_i & b_j & Hi & Hj & Hai & Haj & _ & _ & Hd).
  unfold potential_transpositions, sym_diff in Hd.
  apply list_elem_of_lookup_2 in Hai, Haj.
  assert (d ∈ a_i ∨ d ∈ a_j) as [?|?] by set_solver.
  - by apply (Hsmall a_i).
  - by apply (Hsmall a_j).
Qed.

(** A run over candidates of the two strings returns, whatever the
    runtime answers. *)
Lemma for_each_candidates_wf a b cs st :
  (∀ c, c ∈ cs → candidate a b c.1.1 c.1.2 c.2) →
  scan_wf (optional_set_edits a b) st →
  ∃ st', for_each apply_candidate' cs st = Ok st' ∧
         scan_wf (optional_set_edits a b) st'.
Proof.
  intros Hcs Hinv. apply for_each_inv; [done|].
  intros [[i j] d] st0 Hc%Hcs Hinv0. unfold apply_candidate'. simpl in *.
  destruct (candidate_recorded _ _ _ _ _ Hc) as [(? & ? & _) (? & ? & _)].
  apply apply_candidate_wf; eauto. by eapply candidate_distinct.
Qed.

(** With shared integers for labels it keeps the count as well. *)
Lemma for_each_candidates_inv a b cs st :
  small_labels a →
  (∀ c, c ∈ cs → candidate a b c.1.1 c.1.2 c.2) →
  scan_inv (optional_set_edits a b) st →
  ∃ st', for_each apply_candidate' cs st = Ok st' ∧
         scan_inv (optional_set_edits a b) st'.
Proof.
  intros Hsmall Hcs Hinv. apply for_each_inv; [done|].
  intros [[i j] d] st0 Hc%Hcs Hinv0. unfold apply_candidate'. simpl in *.
  destruct (candidate_recorded _ _ _ _ _ Hc) as [Hri Hrj].
  apply apply_candidate_inv; try done.
  - by eapply candidate_distinct.
  - by eapply candidate_small.
Qed.

Lemma scan_order_candidates a b n_t c :
  (∀ n, n ∈ n_t → 1 ≤ n) → c ∈ scan_order a b n_t → candidate a b c.1.1 c.1.2 c.2.
Proof. intros Hn Hc. by apply (elem_of_scan_order a b n_t c Hn) in Hc as [? _]. Qed.

Lemma find_transpositions_from_wf a b n_t :
  (∀ n, n ∈ n_t → 1 ≤ n) → len a ≤ len b →
  ∃ st', find_transpositions_from a b n_t (mkScan ∅ [] (optional_set_edits a b))
         = Ok st' ∧
         scan_wf (optional_set_edits a b) st'.
Proof.
  intros Hn Hlen. rewrite find_transpositions_from_flat by done.
  apply for_each_candidates_wf.
  - intros c. by apply scan_order_candidates.
  - apply scan_wf_init, optional_set_edits_consistent.
Qed.

Lemma find_transpositions_from_inv a b n_t :
  small_labels a →
  (∀ n, n ∈ n_t → 1 ≤ n) → len a ≤ len b →
  ∃ st', find_transpositions_from a b n_t (mkScan ∅ [] (optional_set_edits a b))
         = Ok st' ∧
         scan_inv (optional_set_edits a b) st'.
Proof.
  intros Hsmall Hn Hlen. rewrite find_transpositions_from_flat by done.
  apply for_each_candidates_inv; [done|..].
  - intros c. by apply scan_order_candidates.
  - apply scan_inv_init, optional_set_edits_consistent.
Qed.

(** What one candidate does to the state, whatever the state. *)
Lemma apply_candidate_cases i j d st st' :
  apply_candidate i j d st = Ok st' →
  (st' = st ∧
   (overlaps_existing i j d (options_transp st) = true ∨
    has_substitutions i j d (options_set st) = true)) ∨
  (overlaps_existing i j d (options_transp st) = false ∧
   has_substitutions i j d (options_set st) = false ∧
   ∃ r_i r_j,
     options_set st !! i = Some r_i ∧
     <[i := discard_label d r_i]> (options_set st) !! j = Some r_j ∧
     st' = accept i j d r_i r_j st).
Proof.
  unfold apply_candidate, discard_at.
  destruct (overlaps_existing _ _ _ _); simpl.
  { intros [= <-]. auto. }
  destruct (has_substitutions _ _ _ _); simpl.
  { intros [= <-]. auto. }
  destruct (options_set st !! i) as [r_i|]; simpl; [|done].
  destruct (_ !! j) as [r_j|] eqn:Hj; simpl; [|done].
  intros [= <-]. right. repeat split. by exists r_i, r_j.
Qed.

(** The transpositions a run adds are candidates it met, and the
    difference sets only lose labels. *)
Lemma for_each_candidates_trace cs st st' :
  for_each apply_candidate' cs st = Ok st' →
  ∃ acc, transpositions st' = transpositions st ++ acc ∧
         (∀ t, t ∈ acc → ∃ c, c ∈ cs ∧ t = transposition_of c) ∧
         (∀ k r', options_set st' !! k = Some r' →
                  ∃ r, options_set st !! k = Some r ∧ sim r' ⊆ sim r) ∧
         (∀ k, (∀ t, t ∈ acc → ¬ touches t k) →
               options_set st' !! k = options_set st !! k).
Proof.
  revert st. induction cs as [|[[i j] d] cs IH]; intros st; simpl.
  - intros [= <-]. exists []. rewrite app_nil_r. split; [done|].
    split; [by intros ? ?%elem_of_nil|]. split; [|done]. intros k r' ->. eauto.
  - change (apply_candidate' (i, j, d) st) with (apply_candidate i j d st).
    destruct (apply_candidate i j d st) as [st1|] eqn:Hstep; simpl; [|done].
    intros (acc & Hts & Hacc & Hsub & Hsame)%IH.
    apply apply_candidate_cases in Hstep
      as [[-> _]|(_ & _ & r_i & r_j & Hi & Hj & ->)].
    + exists acc. split; [done|]. split; [|done].
      intros t (c & Hc & ->)%Hacc. exists c. split; [by right|done].
    + exists (mkTransposition i j d :: acc). simpl in *.
      split; [by rewrite Hts, <- app_assoc|]. split; [|split].
      * intros t [->|(c & Hc & ->)%Hacc]%elem_of_cons.
        -- exists (i, j, d). split; [left|done].
        -- exists c. split; [by right|done].
      * intros k r' (r & Hr & Hs)%Hsub.
        destruct (decide (j = k)) as [->|Hjk].
        -- rewrite lookup_insert_eq in Hr. injection Hr as <-.
           rewrite lookup_insert in Hj. case_decide as Hij.
           ++ subst. injection Hj as <-. exists r_i. split; [done|].
              simpl in *. set_solver.
           ++ exists r_j. split; [done|]. simpl in *. set_solver.
        -- rewrite lookup_insert_ne in Hr by done.
           rewrite lookup_insert in Hr. case_decide as Hik.
           ++ subst. injection Hr as <-. exists r_i. split; [done|].
              simpl in *. set_solver.
           ++ by exists r.
      * intros k Hk. rewrite Hsame.
        2:{ intros t Ht. apply Hk. by right. }
        specialize (Hk (mkTransposition i j d)). unfold touches in Hk.
        simpl in Hk. rewrite !lookup_insert_ne; [done|..].
        -- intros ->. apply Hk; [left|auto].
        -- intros ->. apply Hk; [left|auto].
Qed.

End scan_run.

(** ** The assembled call *)

Section assembled_call.
Context {runtime : ObjectIdentity}.

Lemma span_range n_t n : n ∈ py_range 2 (n_t + 1) → 2 ≤ n ≤ n_t.
Proof. rewrite elem_of_py_range. lia. Qed.

Lemma span_range_positive n_t n : n ∈ py_range 2 (n_t + 1) → 1 ≤ n.
Proof. intros ?%span_range. lia. Qed.

(** The matcher loop over consistent records returns, and spends every
    residual label once. *)
Lemma collect_edits_count (l : list Difference) acc :
  (∀ r, r ∈ l → consistent r) →
  ∃ acc', for_each collect_edits l acc = Ok acc' ∧
          (length acc'.1 + 2 * length acc'.2
           = length acc.1 + 2 * length acc.2
             + sum_list_with (λ r, size (sim r)) l)%nat.
Proof.
  revert acc. induction l as [|r l IH]; intros acc Hl; simpl.
  - exists acc. split; [done|lia].
  - destruct (additions_substitutions_sets_count r) as (added & subs & Hr & Hc).
    { apply Hl. left. }
    assert (collect_edits r acc
            = Ok (acc.1 ++ added, acc.2 ++ iter_substitutions subs)) as ->.
    { unfold collect_edits. by rewrite Hr. }
    simpl.
    destruct (IH (acc.1 ++ added, acc.2 ++ iter_substitutions subs))
      as (acc' & Hrun & Hcount).
    { intros r' Hr'. apply Hl. by right. }
    exists acc'. split; [done|]. simpl in Hcount.
    rewrite !length_app in Hcount. lia.
Qed.

(** Unfolding [boundary_edit_distance] along a scan that returned. *)
Lemma boundary_edit_distance_scanned a b n_t st :
  find_transpositions_from a b (py_range 2 (n_t + 1))
    (mkScan ∅ [] (optional_set_edits a b)) = Ok st →
  boundary_edit_distance a b n_t
  = edits ← for_each collect_edits (dict_values (options_set st)) ([], []);
    Ok (edits.1, edits.2, transpositions st).
Proof.
  intros Hst. unfold boundary_edit_distance, find_transpositions.
  by rewrite Hst.
Qed.

(** Once the scan has returned with consistent records, the call returns
    and its additions and substitutions spend the residual labels. *)
Lemma boundary_edit_distance_returns a b n_t st :
  find_transpositions_from a b (py_range 2 (n_t + 1))
    (mkScan ∅ [] (optional_set_edits a b)) = Ok st →
  (∀ k r, options_set st !! k = Some r → consistent r) →
  ∃ adds subs,
    boundary_edit_distance a b n_t = Ok (adds, subs, transpositions st) ∧
    (length adds + 2 * length subs = residual_size (options_set st))%nat.
Proof.
  intros Hst Hcons. rewrite (boundary_edit_distance_scanned a b n_t st Hst).
  destruct (collect_edits_count (dict_values (options_set st)) ([], []))
    as ([adds subs] & -> & Hc).
  { intros r [k Hk]%elem_of_dict_values. eauto. }
  exists adds, subs. split; [done|].
  simpl in Hc. by rewrite residual_size_dict_values in Hc.
Qed.

(** Strings of which the second is at least as long as the first: the
    call returns, whatever the runtime answers. *)
Lemma boundary_edit_distance_total a b n_t :
  len a ≤ len b →
  ∃ adds subs ts, boundary_edit_distance a b n_t = Ok (adds, subs, ts).
Proof.
  intros Hlen.
  destruct (find_transpositions_from_wf a b (py_range 2 (n_t + 1)))
    as (st & Hst & Hinv); [apply span_range_positive|done|].
  destruct (boundary_edit_distance_returns a b n_t st Hst) as (adds & subs & Hr & Hc).
  { apply (wf_consistent _ _ Hinv). }
  by exists adds, subs, (transpositions st).
Qed.

(** With shared integers for labels, the three lists account for every
    disagreement of the common positions. *)
Lemma boundary_edit_distance_conserves a b n_t :
  small_labels a → len a ≤ len b →
  ∃ adds subs ts,
    boundary_edit_distance a b n_t = Ok (adds, subs, ts) ∧
    (length adds + 2 * length subs + 2 * length ts = disagreements a b)%nat.
Proof.
  intros Hsmall Hlen.
  destruct (find_transpositions_from_inv a b (py_range 2 (n_t + 1)))
    as (st & Hst & Hinv); [done|apply span_range_positive|done|].
  destruct (boundary_edit_distance_returns a b n_t st Hst) as (adds & subs & Hr & Hc).
  { apply (inv_consistent _ _ Hinv). }
  exists adds, subs, (transpositions st). split; [done|].
  rewrite Hc, <- residual_size_optional_set_edits. apply (inv_count _ _ Hinv).
Qed.

(** X14 (conservation on shared labels).  For two boundary strings of
    equal length whose labels, in the first string, are integers from
    -5 to 256, and any maximum span, [boundary_edit_distance] returns,
    and the number of additions plus twice the number of substitutions
    plus twice the number of transpositions is the number of label
    occurrences in the per-position symmetric differences: every
    differing occurrence is spent once, as an addition or as one end of
    a substitution or of a transposition. *)
Theorem conservation_on_shared_labels (a b : list (gset Z)) n_t :
  length a = length b → small_labels a →
  ∃ adds subs ts,
    boundary_edit_distance a b n_t = Ok (adds, subs, ts) ∧
    (length adds + 2 * length subs + 2 * length ts = disagreements a b)%nat.
Proof.
  intros Hlen Hsmall. apply boundary_edit_distance_conserves; [done|].
  unfold len. lia.
Qed.

(** The scan never looks at what the second string holds beyond the
    length of the first. *)
Lemma py_index_take {A} (l : list A) (n : nat) i :
  0 ≤ i < Z.of_nat n → py_index (take n l) i = py_index l i.
Proof.
  intros Hi. unfold py_index. cbv zeta.
  rewrite !(bool_decide_true (0 ≤ i)) by lia.
  by rewrite lookup_take_lt by lia.
Qed.

Lemma flat_map_ext_elem {A B} (f g : A → list B) (l : list A) :
  (∀ x, x ∈ l → f x = g x) → flat_map f l = flat_map g l.
Proof.
  induction l as [|x l IH]; intros H; simpl; [done|].
  rewrite H by left. f_equal. apply IH. intros y Hy. apply H. by right.
Qed.

Lemma scan_order_take a b n_t :
  (∀ n, n ∈ n_t → 1 ≤ n) →
  scan_order a (take (length a) b) n_t = scan_order a b n_t.
Proof.
  intros Hn. unfold scan_order. apply flat_map_ext_elem. intros n Hin.
  rewrite sorted_Permutation in Hin. specialize (Hn n Hin).
  apply flat_map_ext_elem. intros i Hi%elem_of_py_range.
  unfold window_candidates, len in *. by rewrite !py_index_take by lia.
Qed.

Lemma optional_set_edits_take a b :
  optional_set_edits a (take (length a) b) = optional_set_edits a b.
Proof. unfold optional_set_edits. by rewrite zip_with_take_r. Qed.

(** C10.  When the second string is strictly longer than the first, the
    call raises nothing and returns what it returns on the first string
    and the prefix of the second of that length: the positions beyond
    are never read. *)
Theorem longer_second_string_is_truncated (a b : list (gset Z)) n_t :
  (length a < length b)%nat →
  boundary_edit_distance a b n_t
  = boundary_edit_distance a (take (length a) b) n_t ∧
  ∃ edits, boundary_edit_distance a b n_t = Ok edits.
Proof.
  intros Hlen%Nat2Z.inj_lt. split.
  - unfold boundary_edit_distance, find_transpositions.
    rewrite optional_set_edits_take.
    rewrite (find_transpositions_from_flat a b)
      by first [apply span_range_positive | unfold len; lia].
    rewrite (find_transpositions_from_flat a (take (length a) b))
      by first [apply span_range_positive | unfold len; rewrite length_take; lia].
    by rewrite scan_order_take by apply span_range_positive.
  - destruct (boundary_edit_distance_total a b n_t) as (adds & subs & ts & H).
    + unfold len. lia.
    + eauto.
Qed.

Lemma optional_set_edits_same s : optional_set_edits s s = ∅.
Proof.
  apply map_eq. intros k. rewrite lookup_empty.
  apply eq_None_not_Some. intros [r Hr].
  apply optional_set_edits_lookup_Some in Hr
    as (a_k & b_k & _ & Ha & Hb & Hne & _).
  apply Hne. unfold sym_diff. assert (a_k = b_k) by congruence. set_solver.
Qed.

Lemma scan_order_same s n_t : (∀ n, n ∈ n_t → 1 ≤ n) → scan_order s s n_t = [].
Proof.
  intros Hn. destruct (scan_order s s n_t) as [|c l] eqn:Hl; [done|].
  assert (c ∈ scan_order s s n_t) as Hc by (rewrite Hl; left).
  apply scan_order_candidates in Hc; [|done].
  destruct Hc as (a_i & a_j & b_i & b_j & _ & _ & Hai & _ & Hbi & _ & Hd).
  unfold potential_transpositions, sym_diff in Hd.
  assert (a_i = b_i) by congruence. set_solver.
Qed.

(** C8 (identity).  A boundary string compared with itself, whatever its
    length, its label sets and the maximum span, has the empty
    decomposition. *)
Theorem identity_decomposition s n_t : boundary_edit_distance s s n_t = Ok ([], [], []).
Proof.
  rewrite (boundary_edit_distance_scanned s s n_t
             (mkScan ∅ [] (optional_set_edits s s))).
  - simpl. rewrite optional_set_edits_same. done.
  - rewrite find_transpositions_from_flat; [|apply span_range_positive|lia].
    by rewrite scan_order_same by apply span_range_positive.
Qed.

End assembled_call.

(** ** Span bound, unequal lengths, removal of claimed labels *)

Section span_and_lengths.
Context {runtime : ObjectIdentity}.

Lemma find_transpositions_from_no_window a b n_t st :
  n_t < 2 ∨ len a < 2 →
  find_transpositions_from a b (py_range 2 (n_t + 1)) st = Ok st.
Proof.
  intros Hno. unfold find_transpositions_from.
  destruct (for_each_inv (λ st', st' = st) (scan_span a b)
              (sorted (py_range 2 (n_t + 1))) st) as (st' & Hrun & ->);
    [done| |done].
  intros n st0 Hin ->. rewrite sorted_Permutation in Hin.
  apply span_range in Hin. exists st. split; [|done].
  unfold scan_span. rewrite py_range_empty; [done|]. lia.
Qed.

(** C5 (span bound).  For strings of equal length the call returns, every
    transposition it returns spans between 2 and [n_t] positions, and
    for [n_t < 2] it returns no transposition and the additions and
    substitutions account for every disagreement. *)
Theorem span_bound (a b : list (gset Z)) n_t :
  length a = length b →
  ∃ adds subs ts,
    boundary_edit_distance a b n_t = Ok (adds, subs, ts) ∧
    (∀ t, t ∈ ts → 2 ≤ t_end t - t_start t + 1 ≤ n_t) ∧
    (n_t < 2 →
     ts = [] ∧ (length adds + 2 * length subs = disagreements a b)%nat).
Proof.
  intros Hlen.
  assert (len a ≤ len b) as Hle by (unfold len; lia).
  destruct (find_transpositions_from_wf a b (py_range 2 (n_t + 1)))
    as (st & Hst & Hinv); [apply span_range_positive|done|].
  destruct (boundary_edit_distance_returns a b n_t st Hst) as (adds & subs & Hr & Hc).
  { apply (wf_consistent _ _ Hinv). }
  exists adds, subs, (transpositions st). split; [done|].
  pose proof Hst as Hst0.
  assert (∀ t, t ∈ transpositions st → 2 ≤ t_end t - t_start t + 1 ≤ n_t) as Hspan.
  { rewrite find_transpositions_from_flat in Hst
      by first [apply span_range_positive | done].
    apply for_each_candidates_trace in Hst as (acc & Hts & Hacc & _).
    simpl in Hts. subst acc. intros t (c & Hc' & ->)%Hacc.
    apply elem_of_scan_order in Hc' as (_ & n & Hn%span_range & Hj & _);
      [|apply span_range_positive].
    simpl. lia. }
  split; [done|]. intros Hnt.
  assert (transpositions st = []) as Hnil.
  { destruct (transpositions st) as [|t ts]; [done|].
    assert (t ∈ t :: ts) as Ht by left. apply Hspan in Ht. lia. }
  split; [done|].
  rewrite find_transpositions_from_no_window in Hst0 by auto.
  injection Hst0 as <-.
  rewrite <- residual_size_optional_set_edits. exact Hc.
Qed.

(** ** Strings of unequal length *)

Lemma sorted_span_range n_t : sorted (py_range 2 (n_t + 1)) = py_range 2 (n_t + 1).
Proof. apply sorted_py_range. Qed.

Lemma scan_window_past_end a b st :
  len b < len a → 2 ≤ len a →
  scan_window a b 1 (Z.max (len b - 1) 0) st = Raise IndexError.
Proof.
  intros Hlen Ha. unfold scan_window.
  destruct (py_index_in_range a (Z.max (len b - 1) 0)) as (a_i & _ & ->); [lia|].
  destruct (py_index_in_range a (Z.max (len b - 1) 0 + 1)) as (a_j & _ & ->); [lia|].
  simpl. destruct (decide (len b = 0)) as [Hb|Hb].
  - rewrite (py_index_past_end b (Z.max (len b - 1) 0)) by lia. reflexivity.
  - destruct (py_index_in_range b (Z.max (len b - 1) 0)) as (b_i & _ & ->);
      [unfold len in *; lia|].
    simpl. rewrite (py_index_past_end b (Z.max (len b - 1) 0 + 1)) by lia.
    reflexivity.
Qed.

Lemma scan_windows_wf a b n_i (l : list Z) st :
  0 ≤ n_i →
  (∀ i, i ∈ l → 0 ≤ i ∧ i + n_i < len a ∧ i + n_i < len b) →
  scan_wf (optional_set_edits a b) st →
  ∃ st', for_each (scan_window a b n_i) l st = Ok st' ∧
         scan_wf (optional_set_edits a b) st'.
Proof.
  intros Hn Hl Hinv. apply for_each_inv; [done|].
  intros i st0 Hi%Hl Hinv0. rewrite scan_window_flat by lia.
  apply for_each_candidates_wf; [|done].
  intros c Hc. apply elem_of_window_candidates in Hc; [tauto|lia..].
Qed.

Lemma find_transpositions_from_past_end a b n_t :
  len b < len a → 2 ≤ len a → 2 ≤ n_t →
  find_transpositions_from a b (py_range 2 (n_t + 1))
    (mkScan ∅ [] (optional_set_edits a b)) = Raise IndexError.
Proof.
  intros Hlen Ha Hn. unfold find_transpositions_from.
  rewrite sorted_span_range, (py_range_cons 2) by lia. simpl.
  assert (scan_span a b 2 (mkScan ∅ [] (optional_set_edits a b))
          = Raise IndexError) as ->; [|done].
  unfold scan_span. replace (2 - 1) with 1 by lia.
  set (m := Z.max (len b - 1) 0).
  rewrite (py_range_split 0 m (len a - 1)) by lia.
  rewrite (py_range_cons m) by lia.
  destruct (scan_windows_wf a b 1 (py_range 0 m)
              (mkScan ∅ [] (optional_set_edits a b))) as (st1 & Hst1 & _).
  - lia.
  - intros i Hi%elem_of_py_range. lia.
  - apply scan_wf_init, optional_set_edits_consistent.
  - eapply for_each_raise; [done|]. by apply scan_window_past_end.
Qed.

(** C2, amended.  Nothing checks the lengths.  On strings of unequal
    length the call raises [IndexError], from the transposition scan,
    when the second string is the shorter one, the first has at least
    two positions and [n_t] is at least 2; in every other case it
    returns normally. *)
Theorem unequal_lengths (a b : list (gset Z)) n_t :
  length a ≠ length b →
  ((length b < length a)%nat ∧ (2 ≤ length a)%nat ∧ 2 ≤ n_t →
   boundary_edit_distance a b n_t = Raise IndexError) ∧
  (¬ ((length b < length a)%nat ∧ (2 ≤ length a)%nat ∧ 2 ≤ n_t) →
   ∃ edits, boundary_edit_distance a b n_t = Ok edits).
Proof.
  intros Hne. split.
  - intros (Hlen & Ha & Hn). unfold boundary_edit_distance, find_transpositions.
    rewrite find_transpositions_from_past_end; [done|unfold len; lia..|done].
  - intros Hno. destruct (decide (length a < length b)%nat) as [Hlt|Hge].
    + destruct (boundary_edit_distance_total a b n_t)
        as (adds & subs & ts & H); [unfold len; lia|eauto].
    + pose proof (find_transpositions_from_no_window a b n_t
                    (mkScan ∅ [] (optional_set_edits a b))) as Hst.
      assert (n_t < 2 ∨ len a < 2) as Hw by (unfold len; lia).
      specialize (Hst Hw).
      destruct (boundary_edit_distance_returns a b n_t _ Hst)
        as (adds & subs & H & _); [|eauto].
      simpl. apply optional_set_edits_consistent.
Qed.

(** ** Removal of claimed labels *)

Lemma gone_discard_same d r : gone d (discard_label d r).
Proof. unfold gone, discard_label. simpl. set_solver. Qed.

Lemma gone_discard x d r : gone x r → gone x (discard_label d r).
Proof. unfold gone, discard_label. simpl. set_solver. Qed.

Lemma accept_removed_at os i j d r_i r_j k x :
  os !! i = Some r_i →
  <[i := discard_label d r_i]> os !! j = Some r_j →
  removed_at os k x →
  removed_at (<[j := discard_label d r_j]> (<[i := discard_label d r_i]> os)) k x.
Proof.
  intros Hi Hj (r & Hk & Hg). unfold removed_at.
  destruct (decide (j = k)) as [->|Hjk].
  - rewrite lookup_insert_eq. eexists. split; [done|]. apply gone_discard.
    destruct (decide (i = k)) as [->|Hik].
    + rewrite lookup_insert_eq in Hj. simplify_eq. by apply gone_discard.
    + rewrite lookup_insert_ne in Hj by done. by simplify_eq.
  - rewrite lookup_insert_ne by done.
    destruct (decide (i = k)) as [->|Hik].
    + rewrite lookup_insert_eq. eexists. split; [done|].
      simplify_eq. by apply gone_discard.
    + rewrite lookup_insert_ne by done. by exists r.
Qed.

Lemma accept_removes_label os i j d r_i r_j :
  os !! i = Some r_i →
  <[i := discard_label d r_i]> os !! j = Some r_j →
  removed_at (<[j := discard_label d r_j]> (<[i := discard_label d r_i]> os)) i d ∧
  removed_at (<[j := discard_label d r_j]> (<[i := discard_label d r_i]> os)) j d.
Proof.
  intros Hi Hj. unfold removed_at. split.
  - destruct (decide (j = i)) as [->|Hji].
    + rewrite lookup_insert_eq. eexists. split; [done|]. apply gone_discard_same.
    + rewrite lookup_insert_ne, lookup_insert_eq by done.
      eexists. split; [done|]. apply gone_discard_same.
  - rewrite lookup_insert_eq. eexists. split; [done|]. apply gone_discard_same.
Qed.

(** An accepted candidate has its label removed at both endpoints in the
    very state the next candidate is evaluated in. *)
Lemma apply_candidate_removes i j d st st' :
  apply_candidate i j d st = Ok st' →
  claims_removed st →
  claims_removed st' ∧
  (st' = st ∨
   (transpositions st' = transpositions st ++ [mkTransposition i j d] ∧
    removed_at (options_set st') i d ∧ removed_at (options_set st') j d)).
Proof.
  intros Hstep Hrem.
  apply apply_candidate_cases in Hstep
    as [[-> _]|(_ & _ & r_i & r_j & Hi & Hj & ->)]; [auto|].
  pose proof (accept_removes_label _ _ _ _ _ _ Hi Hj) as [Hri Hrj].
  split; [|right; done].
  intros t. simpl. intros [Ht| ->%list_elem_of_singleton]%elem_of_app.
  - destruct (Hrem t Ht) as [Hs He].
    split; by apply accept_removed_at.
  - done.
Qed.

(** A property every candidate keeps is kept by a scan that returns. *)
Lemma find_transpositions_from_preserves (P : scan_state → Prop) a b n_t st st' :
  find_transpositions_from a b n_t st = Ok st' →
  P st →
  (∀ i j d st0 st1, P st0 → apply_candidate i j d st0 = Ok st1 → P st1) →
  P st'.
Proof.
  intros Hrun HP Hstep. unfold find_transpositions_from in Hrun.
  apply (for_each_inv_ok P _ _ _ _ Hrun HP). clear Hrun HP st st'.
  intros n st st' _ HP Hrun. unfold scan_span in Hrun.
  apply (for_each_inv_ok P _ _ _ _ Hrun HP). clear Hrun HP st st'.
  intros i st st' _ HP Hrun. unfold scan_window in Hrun.
  destruct (py_index a i) as [a_i|]; simpl in Hrun; [|done].
  destruct (py_index a (i + (n - 1))) as [a_j|]; simpl in Hrun; [|done].
  destruct (py_index b i) as [b_i|]; simpl in Hrun; [|done].
  destruct (py_index b (i + (n - 1))) as [b_j|]; simpl in Hrun; [|done].
  apply (for_each_inv_ok P _ _ _ _ Hrun HP). clear Hrun HP st st'.
  intros d st st' _ HP Hrun. by eapply Hstep.
Qed.

(** C7 (I2).  An accepted candidate [(i, j, d)] leaves a state in which
    [d] is in none of the three sets of the records at [i] and at [j];
    in the mapping a returned [find_transpositions] hands back this
    holds for every transposition of its list, and that mapping is the
    one [boundary_edit_distance] runs the substitution matcher on. *)
Theorem claimed_labels_are_removed a b :
  (∀ i j d st st',
     apply_candidate i j d st = Ok st' →
     transpositions st' ≠ transpositions st →
     transpositions st' = transpositions st ++ [mkTransposition i j d] ∧
     removed_at (options_set st') i d ∧ removed_at (options_set st') j d) ∧
  (∀ n_t os ts os',
     find_transpositions a b n_t os = Ok (ts, os') →
     ∀ t, t ∈ ts →
          removed_at os' (t_start t) (t_type t) ∧
          removed_at os' (t_end t) (t_type t)) ∧
  (∀ n_t adds subs ts,
     boundary_edit_distance a b n_t = Ok (adds, subs, ts) →
     ∃ os',
       find_transpositions a b (py_range 2 (n_t + 1)) (optional_set_edits a b)
       = Ok (ts, os') ∧
       for_each collect_edits (dict_values os') ([], []) = Ok (adds, subs) ∧
       ∀ t, t ∈ ts →
            removed_at os' (t_start t) (t_type t) ∧
            removed_at os' (t_end t) (t_type t)).
Proof.
  assert (∀ n_t os ts os',
     find_transpositions a b n_t os = Ok (ts, os') →
     ∀ t, t ∈ ts →
          removed_at os' (t_start t) (t_type t) ∧
          removed_at os' (t_end t) (t_type t)) as Hrun.
  { intros n_t os ts os'. unfold find_transpositions.
    destruct (find_transpositions_from _ _ _ _) as [st|] eqn:Hst; simpl; [|done].
    intros [= <- <-].
    apply (find_transpositions_from_preserves claims_removed _ _ _ _ _ Hst).
    - by intros t ?%elem_of_nil.
    - intros i j d st0 st1 H0 Hstep.
      by destruct (apply_candidate_removes _ _ _ _ _ Hstep H0). }
  split; [|split; [done|]].
  - intros i j d st st' Hstep Hchanged.
    apply apply_candidate_cases in Hstep
      as [[-> _]|(_ & _ & r_i & r_j & Hi & Hj & ->)]; [done|].
    split; [done|]. by apply accept_removes_label.
  - intros n_t adds subs ts. unfold boundary_edit_distance.
    destruct (find_transpositions _ _ _ _) as [[ts' os']|] eqn:Hft; simpl; [|done].
    destruct (for_each _ _ _) as [[adds' subs']|] eqn:Hce; simpl; [|done].
    intros [= <- <- <-]. exists os'. split; [done|]. split; [done|].
    by apply (Hrun _ _ _ _ Hft).
Qed.

End span_and_lengths.

(** ** The decision on a candidate *)

Section decision.
Context {runtime : ObjectIdentity}.

Lemma py_range_strictly_sorted lo hi : StronglySorted Z.lt (py_range lo hi).
Proof.
  unfold py_range. generalize (Z.to_nat (hi - lo)) as n. generalize 0%nat as s.
  intros s n. revert s. induction n as [|n IH]; intros s; simpl; constructor.
  - apply IH.
  - apply Forall_forall. intros k Hk. apply list_elem_of_fmap in Hk as (m & -> & Hm).
    apply elem_of_seq in Hm. lia.
Qed.

Lemma StronglySorted_flat_map {A B} (R' : relation A) (R : relation B)
    (f : A → list B) (l : list A) :
  StronglySorted R' l →
  (∀ x, x ∈ l → StronglySorted R (f x)) →
  (∀ x y u v, x ∈ l → y ∈ l → R' x y → u ∈ f x → v ∈ f y → R u v) →
  StronglySorted R (flat_map f l).
Proof.
  induction 1 as [|x l Hl IH Hx]; intros Hf HR; simpl; [constructor|].
  apply StronglySorted_app_2.
  - intros u v Hu Hv. apply list_elem_of_In, in_flat_map in Hv
      as (y & Hy%list_elem_of_In & Hv%list_elem_of_In).
    apply (HR x y); [left|by right| |done..].
    by apply (proj1 (Forall_forall _ _) Hx).
  - apply Hf. left.
  - apply IH.
    + intros y Hy. apply Hf. by right.
    + intros y z u v Hy Hz. apply HR; by right.
Qed.

Lemma window_candidates_span a b n_i i c :
  c ∈ window_candidates a b n_i i → c.1.1 = i ∧ c.1.2 = i + n_i.
Proof.
  unfold window_candidates.
  destruct (py_index a i); [|by intros ?%elem_of_nil].
  destruct (py_index a (i + n_i)); [|by intros ?%elem_of_nil].
  destruct (py_index b i); [|by intros ?%elem_of_nil].
  destruct (py_index b (i + n_i)); [|by intros ?%elem_of_nil].
  by intros (d & -> & _)%list_elem_of_fmap.
Qed.

Lemma window_candidates_sorted a b n_i i :
  StronglySorted scan_le (window_candidates a b n_i i).
Proof.
  assert (∀ l, (∀ c, c ∈ l → c.1.1 = i ∧ c.1.2 = i + n_i) →
               StronglySorted scan_le l) as Hsame.
  { induction l as [|c l IH]; intros Hl; constructor.
    - apply IH. intros c' Hc'. apply Hl. by right.
    - apply Forall_forall. intros c' Hc'.
      destruct (Hl c) as [H1 H2]; [left|].
      destruct (Hl c') as [H3 H4]; [by right|]. unfold scan_le. right. lia. }
  apply Hsame. apply window_candidates_span.
Qed.

(** The candidates are met by ascending span, then ascending start. *)
Lemma scan_order_sorted a b n_t :
  StronglySorted scan_le (scan_order a b (py_range 2 (n_t + 1))).
Proof.
  unfold scan_order. rewrite sorted_span_range.
  apply (StronglySorted_flat_map Z.lt); [apply py_range_strictly_sorted|..].
  - intros n _.
    apply (StronglySorted_flat_map Z.lt); [apply py_range_strictly_sorted|..].
    + intros i _. apply window_candidates_sorted.
    + intros i i' u v _ _ Hlt Hu%window_candidates_span Hv%window_candidates_span.
      unfold scan_le. right. lia.
  - intros n n' u v _ _ Hlt Hu%list_elem_of_In%in_flat_map
                               Hv%list_elem_of_In%in_flat_map.
    destruct Hu as (i & _ & Hu%list_elem_of_In%window_candidates_span).
    destruct Hv as (i' & _ & Hv%list_elem_of_In%window_candidates_span).
    unfold scan_le. left. lia.
Qed.

(** Every candidate of a span within the range is met by the scan. *)
Lemma scan_order_complete a b n_t i j d :
  candidate a b i j d → j - i + 1 ∈ n_t →
  (i, j, d) ∈ scan_order a b n_t.
Proof.
  intros (a_i & a_j & b_i & b_j & Hi & Hj & Hai & Haj & Hbi & Hbj & Hd) Hn.
  unfold scan_order. apply list_elem_of_In, in_flat_map.
  exists (j - i + 1). split.
  { apply list_elem_of_In. by rewrite sorted_Permutation. }
  apply in_flat_map. exists i. split.
  { apply list_elem_of_In, elem_of_py_range.
    apply lookup_lt_Some in Haj. unfold len. lia. }
  apply list_elem_of_In. unfold window_candidates.
  replace (i + (j - i + 1 - 1)) with j by lia.
  rewrite <- (Z2Nat.id i), <- (Z2Nat.id j) by lia.
  rewrite (py_index_lookup a _ _ Hai), (py_index_lookup a _ _ Haj).
  rewrite (py_index_lookup b _ _ Hbi), (py_index_lookup b _ _ Hbj).
  apply list_elem_of_fmap. exists d. split; [done|]. by apply elem_of_iter_set.
Qed.

(** The decision on one candidate whose label is a shared integer. *)
Lemma decide_candidate os0 st i j d :
  scan_wf os0 st → i ≠ j → small_int d →
  (∃ r, os0 !! i = Some r ∧ d ∈ sim r) →
  (∃ r, os0 !! j = Some r ∧ d ∈ sim r) →
  (rejected i j d st ↔ apply_candidate i j d st = Ok st) ∧
  (¬ rejected i j d st →
   ∃ r_i r_j, options_set st !! i = Some r_i ∧ options_set st !! j = Some r_j ∧
              d ∈ sim r_i ∧ d ∈ sim r_j ∧
              apply_candidate i j d st = Ok (accept i j d r_i r_j st)).
Proof.
  intros Hinv Hne Hsmall (r0i & H0i & Hd0i) (r0j & H0j & Hd0j).
  pose proof (overlaps_existing_true i j d st os0 Hinv Hsmall) as Ho.
  pose proof (has_substitutions_true i j d st os0 Hinv) as Hs.
  assert (¬ rejected i j d st →
          ∃ r_i r_j, options_set st !! i = Some r_i ∧
                     options_set st !! j = Some r_j ∧
                     d ∈ sim r_i ∧ d ∈ sim r_j ∧
                     apply_candidate i j d st = Ok (accept i j d r_i r_j st))
    as Haccept.
  { unfold rejected. intros Hacc.
    destruct (proj2 (wf_dom _ _ Hinv i)) as [r_i Hi]; [eauto|].
    destruct (proj2 (wf_dom _ _ Hinv j)) as [r_j Hj]; [eauto|].
    exists r_i, r_j. split; [done|]. split; [done|].
    split; [|split].
    - apply (wf_residual _ _ Hinv _ _ _ d H0i Hi). tauto.
    - apply (wf_residual _ _ Hinv _ _ _ d H0j Hj). tauto.
    - apply apply_candidate_accepted; try done.
      + destruct (overlaps_existing _ _ _ _); [|done]. tauto.
      + destruct (has_substitutions _ _ _ _); [|done]. tauto. }
  split; [|done]. split.
  - unfold rejected. intros Hrej. apply apply_candidate_rejected. tauto.
  - intros Hsame.
    destruct (overlaps_existing i j d (options_transp st)) eqn:Hob.
    { unfold rejected. tauto. }
    destruct (has_substitutions i j d (options_set st)) eqn:Hsb.
    { unfold rejected. tauto. }
    destruct Haccept as (r_i & r_j & _ & _ & _ & _ & Hstep).
    { unfold rejected. intros [H|[H|H]].
      - pose proof (proj2 Ho (or_introl H)). discriminate.
      - pose proof (proj2 Ho (or_intror H)). discriminate.
      - pose proof (proj2 Hs H). discriminate. }
    rewrite Hstep in Hsame. injection Hsame as Hsame.
    apply (f_equal transpositions) in Hsame. simpl in Hsame.
    apply (f_equal length) in Hsame. rewrite length_app in Hsame.
    simpl in Hsame. lia.
Qed.

(** X15 (the decision on shared labels).  The scan meets the candidates
    by ascending span, then ascending start.  Let the labels of the
    first string be integers from -5 to 256.  A candidate [(i, j, d)]
    of two strings of equal length, of a span within the range, is met
    in the state [st] the candidates before it leave; it is rejected,
    the state staying as it is, exactly when an accepted transposition
    of label [d] touches [i] or [j] or both residual records still hold
    [d] and each supports a substitution, and it is accepted
    otherwise. *)
Theorem candidate_decision_on_shared_labels (a b : list (gset Z)) n_t i j d :
  length a = length b → small_labels a →
  candidate a b i j d → 2 ≤ j - i + 1 ≤ n_t →
  StronglySorted scan_le (scan_order a b (py_range 2 (n_t + 1))) ∧
  ∃ before after st,
    scan_order a b (py_range 2 (n_t + 1)) = before ++ (i, j, d) :: after ∧
    for_each apply_candidate' before (mkScan ∅ [] (optional_set_edits a b))
    = Ok st ∧
    find_transpositions_from a b (py_range 2 (n_t + 1))
      (mkScan ∅ [] (optional_set_edits a b))
    = (st' ← apply_candidate i j d st; for_each apply_candidate' after st') ∧
    (rejected i j d st ↔ apply_candidate i j d st = Ok st) ∧
    (¬ rejected i j d st →
     ∃ r_i r_j, options_set st !! i = Some r_i ∧ options_set st !! j = Some r_j ∧
                d ∈ sim r_i ∧ d ∈ sim r_j ∧
                apply_candidate i j d st = Ok (accept i j d r_i r_j st)).
Proof.
  intros Hlen Hsmall Hc Hspan. split; [apply scan_order_sorted|].
  assert ((i, j, d) ∈ scan_order a b (py_range 2 (n_t + 1))) as Hin.
  { apply scan_order_complete; [done|]. apply elem_of_py_range. lia. }
  apply list_elem_of_split in Hin as (before & after & Horder).
  assert (∀ c, c ∈ before → candidate a b c.1.1 c.1.2 c.2) as Hbefore.
  { intros c Hc'. apply (scan_order_candidates a b (py_range 2 (n_t + 1)));
      [apply span_range_positive|].
    rewrite Horder, elem_of_app. by left. }
  destruct (for_each_candidates_wf a b before
              (mkScan ∅ [] (optional_set_edits a b)) Hbefore)
    as (st & Hst & Hinv).
  { apply scan_wf_init, optional_set_edits_consistent. }
  exists before, after, st. split; [done|]. split; [done|]. split.
  { rewrite find_transpositions_from_flat;
      [|apply span_range_positive|unfold len; lia].
    rewrite Horder, for_each_app, Hst. done. }
  destruct (candidate_recorded _ _ _ _ _ Hc) as [Hri Hrj].
  apply (decide_candidate (optional_set_edits a b)); try done.
  - by eapply candidate_distinct.
  - by eapply candidate_small.
Qed.

End decision.

(** ** Minimum-cost pairing *)

Lemma elem_of_added_list a b m x s :
  a ## b → is_pairing a b m →
  mkAddition x s ∈ added_list a b m ↔
  (s = "a" ∧ x ∈ a ∧ ∀ y, (x, y) ∉ m) ∨ (s = "b" ∧ x ∈ b ∧ ∀ y, (y, x) ∉ m).
Proof.
  intros Hdisj Hm. unfold added_list.
  destruct (unpaired_left a b m Hdisj Hm) as [-> _].
  destruct (unpaired_right a b m Hdisj Hm) as [-> _].
  rewrite elem_of_app. change (map ?f ?l) with (f <$> l).
  rewrite !list_elem_of_fmap.
  setoid_rewrite elem_of_iter_set. setoid_rewrite elem_of_difference.
  setoid_rewrite elem_of_map. split.
  - intros [(x' & [= -> ->] & Hx & Hn)|(x' & [= -> ->] & Hx & Hn)]; [left|right].
    + repeat split; [done|]. intros y Hy. apply Hn. by exists (x', y).
    + repeat split; [done|]. intros y Hy. apply Hn. by exists (y, x').
  - intros [(-> & Hx & Hn)|(-> & Hx & Hn)]; [left|right].
    + exists x. repeat split; [done|]. intros ([x' y] & -> & Hp). by eapply Hn.
    + exists x. repeat split; [done|]. intros ([x' y] & -> & Hp). by eapply Hn.
Qed.

Lemma NoDup_added_list a b m : NoDup (added_list a b m).
Proof.
  unfold added_list. change (map ?f ?l) with (f <$> l).
  apply NoDup_app. split; [|split].
  - apply NoDup_fmap_2_strong; [|apply NoDup_iter_set]. by intros x y _ _ [= ->].
  - intros [x s] (x' & [= -> ->] & _)%list_elem_of_fmap
                 (x'' & [=] & _)%list_elem_of_fmap.
  - apply NoDup_fmap_2_strong; [|apply NoDup_iter_set]. by intros x y _ _ [= ->].
Qed.

(** C3.  On disjoint one-sided sets [a] and [b] with [d] their union, the
    matcher returns [min(|a|, |b|)] substitutions that form a pairing of
    [a] against [b] of least total distance among the maximal pairings,
    and one addition, tagged with its side, for each unpaired label; on
    [a = {2, 3, 4}], [b = {6}] these are the additions [(2, a)],
    [(3, a)] and the substitution [(4, 6)]. *)
Theorem minimum_cost_pairing :
  (∀ d a b : gset Z,
     a ## b → d = a ∪ b →
     ∃ added m,
       additions_substitutions_sets d a b = Ok (added, substitution_set m) ∧
       size (substitution_set m) = (size a `min` size b)%nat ∧
       is_pairing a b m ∧
       (∀ m', maximal_pairing a b m' → pairing_delta m ≤ pairing_delta m') ∧
       NoDup added ∧
       (∀ x s, mkAddition x s ∈ added ↔
               (s = "a" ∧ x ∈ a ∧ ∀ y, (x, y) ∉ m) ∨
               (s = "b" ∧ x ∈ b ∧ ∀ y, (y, x) ∉ m))) ∧
  additions_substitutions_sets {[2; 3; 4; 6]} {[2; 3; 4]} {[6]}
  = Ok ([mkAddition 2 "a"; mkAddition 3 "a"], {[ mkSubstitution 4 6 ]}).
Proof.
  split; [|by vm_compute].
  intros d a b Hdisj Hd.
  destruct (search_pairings_spec a b) as [[Hm Hsize] Hmin].
  exists (added_list a b (search_pairings a b).2), (search_pairings a b).2.
  split; [by apply additions_substitutions_sets_returns|].
  split; [by rewrite size_substitution_set|].
  split; [done|]. split; [done|].
  split; [apply NoDup_added_list|].
  intros x s. by apply elem_of_added_list.
Qed.

Lemma minimum_cost_pairing_witness :
  ∃ added m,
    additions_substitutions_sets {[1; 5; 7]} {[1; 7]} {[5]}
    = Ok (added, substitution_set m) ∧
    size (substitution_set m) = 1%nat ∧
    ∀ m', maximal_pairing {[1; 7]} {[5]} m' → pairing_delta m ≤ pairing_delta m'.
Proof.
  destruct (proj1 minimum_cost_pairing {[1; 5; 7]} {[1; 7]} {[5]})
    as (added & m & H1 & H2 & _ & H4 & _).
  - apply (bool_decide_unpack _). by vm_compute.
  - apply (bool_decide_unpack _). by vm_compute.
  - by exists added, m.
Defined.

(** ** A pure transposition *)

Section adjacent_runs.
Context {runtime : ObjectIdentity}.

Lemma singleton_supports_no_substitution r (l : Z) :
  consistent r → sim r ⊆ {[l]} → ¬ supports_substitution r.
Proof.
  intros [Hdisj Hd] Hsub. unfold supports_substitution, len_set.
  apply subseteq_size in Hsub. rewrite size_singleton, Hd in Hsub.
  rewrite size_union in Hsub by done. lia.
Qed.

Lemma consistent_empty r : consistent r → sim r ⊆ ∅ → r = mkDifference ∅ ∅ ∅.
Proof.
  intros [Hdisj Hd] Hsub. destruct r as [d x y]. simpl in *.
  assert (d = ∅) as -> by set_solver.
  assert (x = ∅) as -> by set_solver.
  assert (y = ∅) as -> by set_solver. done.
Qed.

Lemma iter_set_singleton (l : Z) : iter_set {[l]} = [l].
Proof.
  unfold iter_set. rewrite elements_singleton. apply sorted_id.
  repeat constructor.
Qed.

Lemma py_index_lookup_Z {A} (l : list A) i x :
  0 ≤ i → l !! Z.to_nat i = Some x → py_index l i = Ok x.
Proof.
  intros Hi H. rewrite <- (Z2Nat.id i) by lia. by apply py_index_lookup.
Qed.

(** A run over candidates: it returns, appends transpositions of
    candidates it met, and only shrinks the sets. *)
Lemma for_each_candidates_run a b cs st :
  (∀ c, c ∈ cs → candidate a b c.1.1 c.1.2 c.2) →
  scan_wf (optional_set_edits a b) st →
  ∃ st' acc,
    for_each apply_candidate' cs st = Ok st' ∧
    scan_wf (optional_set_edits a b) st' ∧
    transpositions st' = transpositions st ++ acc ∧
    (∀ t, t ∈ acc → ∃ c, c ∈ cs ∧ t = transposition_of c) ∧
    (∀ k r', options_set st' !! k = Some r' →
             ∃ r, options_set st !! k = Some r ∧ sim r' ⊆ sim r).
Proof.
  intros Hcs Hinv.
  destruct (for_each_candidates_wf a b cs st Hcs Hinv) as (st' & Hrun & Hinv').
  destruct (for_each_candidates_trace cs st st' Hrun)
    as (acc & Hts & Hacc & Hsub & _).
  by exists st', acc.
Qed.

Section adjacent_label.
Context (a b : list (gset Z)) (i l : Z) (a_i a_j b_i b_j : gset Z).
Hypothesis Hlen : length a = length b.
Hypothesis Hi : 0 ≤ i.
Hypothesis Hai : a !! Z.to_nat i = Some a_i.
Hypothesis Haj : a !! Z.to_nat (i + 1) = Some a_j.
Hypothesis Hbi : b !! Z.to_nat i = Some b_i.
Hypothesis Hbj : b !! Z.to_nat (i + 1) = Some b_j.
Hypothesis Hl_ai : l ∈ a_i.
Hypothesis Hl_bj : l ∈ b_j.
Hypothesis Hl_aj : l ∉ a_j.
Hypothesis Hl_bi : l ∉ b_i.
Hypothesis Hdiff_i : sym_diff a_i b_i = {[l]}.
Hypothesis Hdiff_j : sym_diff a_j b_j = {[l]}.

Abbreviation W := (window_candidates a b 1).
Abbreviation before := (adjacent_windows a b 0 i).
Abbreviation after := (adjacent_windows a b (i + 1) (len a - 1)).
Abbreviation os0 := (optional_set_edits a b).

Lemma pure_window : W i = [(i, i + 1, l)].
Proof.
  unfold window_candidates.
  rewrite (py_index_lookup_Z a i a_i), (py_index_lookup_Z a (i + 1) a_j) by (done || lia).
  rewrite (py_index_lookup_Z b i b_i), (py_index_lookup_Z b (i + 1) b_j) by (done || lia).
  assert (potential_transpositions a_i a_j b_i b_j = {[l]}) as ->.
  { unfold potential_transpositions. rewrite Hdiff_i, Hdiff_j.
    unfold sym_diff. set_solver. }
  by rewrite iter_set_singleton.
Qed.

Lemma pure_scan_order :
  scan_order a b (py_range 2 (DEFAULT_N_T + 1)) = before ++ (i, i + 1, l) :: after.
Proof.
  unfold scan_order. rewrite sorted_span_range.
  change (py_range 2 (DEFAULT_N_T + 1)) with [2]. cbn [flat_map].
  rewrite app_nil_r. change (2 - 1) with 1.
  pose proof (lookup_lt_Some _ _ _ Haj) as Hlt.
  rewrite (py_range_split 0 i (len a - 1)) by (unfold len; lia).
  rewrite (py_range_cons i) by (unfold len; lia).
  rewrite flat_map_app. cbn [flat_map]. by rewrite pure_window.
Qed.

Lemma before_spec c :
  c ∈ before → candidate a b c.1.1 c.1.2 c.2 ∧ c.1.1 < i ∧ c.1.2 = c.1.1 + 1.
Proof.
  unfold adjacent_windows. rewrite list_elem_of_In, in_flat_map.
  intros (k & Hk%list_elem_of_In%elem_of_py_range & Hc%list_elem_of_In).
  apply elem_of_window_candidates in Hc as (H1 & H2 & H3); [|lia..].
  split; [done|]. lia.
Qed.

Lemma after_spec c :
  c ∈ after → candidate a b c.1.1 c.1.2 c.2 ∧ i < c.1.1 ∧ c.1.2 = c.1.1 + 1.
Proof.
  unfold adjacent_windows. rewrite list_elem_of_In, in_flat_map.
  intros (k & Hk%list_elem_of_In%elem_of_py_range & Hc%list_elem_of_In).
  apply elem_of_window_candidates in Hc as (H1 & H2 & H3); [|lia..].
  split; [done|]. lia.
Qed.

Lemma pure_candidate : candidate a b i (i + 1) l.
Proof.
  exists a_i, a_j, b_i, b_j. repeat split; try done; try lia.
  unfold potential_transpositions. rewrite Hdiff_i, Hdiff_j.
  unfold sym_diff. set_solver.
Qed.

Lemma pure_records :
  os0 !! i = Some (mkDifference {[l]} (a_i ∖ b_i) (b_i ∖ a_i)) ∧
  os0 !! (i + 1) = Some (mkDifference {[l]} (a_j ∖ b_j) (b_j ∖ a_j)).
Proof.
  split; apply optional_set_edits_lookup_Some.
  - exists a_i, b_i. rewrite Hdiff_i. repeat split; try done; try lia; set_solver.
  - exists a_j, b_j. rewrite Hdiff_j. repeat split; try done; try lia; set_solver.
Qed.

Lemma adjacent_scan_result :
  ∃ adds subs ts os',
    find_transpositions a b (py_range 2 (DEFAULT_N_T + 1)) (optional_set_edits a b)
    = Ok (ts, os') ∧
    boundary_edit_distance a b DEFAULT_N_T = Ok (adds, subs, ts) ∧
    (mkTransposition (i - 1) i l ∈ ts → small_int l →
     mkTransposition i (i + 1) l ∉ ts) ∧
    (mkTransposition (i - 1) i l ∉ ts →
     (∃ ts1 ts2, ts = ts1 ++ mkTransposition i (i + 1) l :: ts2 ∧
                 (mkTransposition i (i + 1) l ∉ ts1) ∧
                 (mkTransposition i (i + 1) l ∉ ts2)) ∧
     os' !! i = Some (mkDifference ∅ ∅ ∅) ∧
     os' !! (i + 1) = Some (mkDifference ∅ ∅ ∅) ∧
     additions_substitutions_sets ∅ ∅ ∅ = Ok ([], ∅)) ∧
    (¬ candidate a b (i - 1) i l → mkTransposition (i - 1) i l ∉ ts).
Proof.
  set (st0 := mkScan ∅ [] (optional_set_edits a b)).
  set (T := mkTransposition i (i + 1) l).
  set (T' := mkTransposition (i - 1) i l).
  destruct pure_records as [H0i H0j].
  (* the windows before [i] *)
  destruct (for_each_candidates_run a b before st0)
    as (st1 & acc1 & Hrun1 & Hinv1 & Hts1 & Hacc1 & _).
  { intros c Hc. by apply before_spec. }
  { apply scan_wf_init, optional_set_edits_consistent. }
  simpl in Hts1.
  assert (∀ t, t ∈ transpositions st1 →
               candidate a b (t_start t) (t_end t) (t_type t) ∧
               t_start t < i ∧ t_end t = t_start t + 1) as Hold.
  { rewrite Hts1. intros t (c & Hc%before_spec & ->)%Hacc1. done. }
  assert (claimed (transpositions st1) i l ↔ T' ∈ transpositions st1) as Hclaim_i.
  { split.
    - intros (t & Ht & Hty & Htouch). destruct (Hold t Ht) as (_ & H1 & H2).
      destruct t as [s e ty]. unfold touches in Htouch. simpl in *.
      replace T' with (mkTransposition s e ty); [done|].
      unfold T'. f_equal; lia.
    - intros HT. exists T'. unfold touches. simpl. auto. }
  assert (¬ claimed (transpositions st1) (i + 1) l) as Hclaim_j.
  { intros (t & Ht & Hty & Htouch). destruct (Hold t Ht) as (_ & H1 & H2).
    unfold touches in Htouch. lia. }
  assert (¬ two_substitutions i (i + 1) l (options_set st1)) as Hsubs.
  { intros (r_i & r_j & Hri & _ & _ & _ & Hsup & _).
    eapply singleton_supports_no_substitution; [..|exact Hsup].
    - by eapply wf_consistent.
    - intros x Hx. by apply (wf_residual _ _ Hinv1 _ _ _ x H0i Hri) in Hx as [Hx _]. }
  assert (has_substitutions i (i + 1) l (options_set st1) = false) as Hhas.
  { destruct (has_substitutions _ _ _ _) eqn:Hh; [|done].
    by apply (has_substitutions_true _ _ _ _ _ Hinv1) in Hh. }
  assert (∀ st2, apply_candidate i (i + 1) l st1 = Ok st2 →
            scan_wf os0 st2 →
            ∃ st3 acc3,
              find_transpositions_from a b (py_range 2 (DEFAULT_N_T + 1)) st0
              = Ok st3 ∧
              scan_wf os0 st3 ∧
              transpositions st3 = transpositions st2 ++ acc3 ∧
              (∀ t, t ∈ acc3 → i < t_start t ∧
                    candidate a b (t_start t) (t_end t) (t_type t)) ∧
              (∀ k r', options_set st3 !! k = Some r' →
                       ∃ r, options_set st2 !! k = Some r ∧ sim r' ⊆ sim r))
    as Hrest.
  { intros st2 Hstep Hinv2.
    destruct (for_each_candidates_run a b after st2)
      as (st3 & acc3 & Hrun3 & Hinv3 & Hts3 & Hacc3 & Hshrink).
    { intros c Hc. by apply after_spec. }
    { done. }
    exists st3, acc3. split; [|split; [done|split; [done|split; [|done]]]].
    - rewrite find_transpositions_from_flat;
        [|apply span_range_positive|unfold len; lia].
      rewrite pure_scan_order, for_each_app. fold st0. rewrite Hrun1. simpl.
      change (apply_candidate' (i, i + 1, l) st1)
        with (apply_candidate i (i + 1) l st1).
      by rewrite Hstep.
    - intros t (c & Hc%after_spec & ->)%Hacc3. simpl. tauto. }
  assert (additions_substitutions_sets ∅ ∅ ∅ = Ok ([], ∅)) as Hempty
    by by vm_compute.
  destruct (decide (T' ∈ transpositions st1)) as [HT'|HT'].
  - (* position [i] is already claimed *)
    destruct (apply_candidate_wf os0 st1 i (i + 1) l Hinv1)
      as (st2 & Hstep & Hinv2); [lia|by eexists..|].
    destruct (Hrest st2 Hstep Hinv2) as (st3 & acc3 & Hrun & Hinv3 & Hts3 & Hacc3 & _).
    destruct (boundary_edit_distance_returns a b DEFAULT_N_T st3 Hrun)
      as (adds & subs & Hbed & _); [apply (wf_consistent _ _ Hinv3)|].
    exists adds, subs, (transpositions st3), (options_set st3).
    split; [unfold find_transpositions; fold st0; by rewrite Hrun|].
    split; [done|].
    assert (∃ acc2, transpositions st2 = transpositions st1 ++ acc2) as [acc2 Hts2].
    { apply apply_candidate_cases in Hstep as [[-> _]|(_ & _ & ? & ? & _ & _ & ->)].
      - exists []. by rewrite app_nil_r.
      - by eexists. }
    assert (T' ∈ transpositions st3) as HT3.
    { rewrite Hts3, Hts2, !elem_of_app. auto. }
    split; [|split; [done|]].
    + (* a shared integer: the overlap is seen *)
      intros _ Hsmall.
      rewrite apply_candidate_rejected in Hstep.
      2:{ left. apply (overlaps_existing_true _ _ _ _ _ Hinv1 Hsmall).
          left. by apply Hclaim_i. }
      injection Hstep as <-.
      rewrite Hts3, elem_of_app. intros [HT|HT].
      * apply Hold in HT. simpl in HT. lia.
      * apply Hacc3 in HT. simpl in HT. lia.
    + intros Hnc _. apply Hold in HT'. simpl in HT'. tauto.
  - (* accepted *)
    assert (overlaps_existing i (i + 1) l (options_transp st1) = false) as Hover.
    { destruct (overlaps_existing _ _ _ _) eqn:Ho; [|done].
      apply (overlaps_existing_sound _ _ _ _ _ Hinv1) in Ho. tauto. }
    destruct (proj2 (wf_dom _ _ Hinv1 i)) as [r_i Hri]; [by eexists|].
    destruct (proj2 (wf_dom _ _ Hinv1 (i + 1))) as [r_j Hrj]; [by eexists|].
    assert (apply_candidate i (i + 1) l st1
            = Ok (accept i (i + 1) l r_i r_j st1)) as Hstep.
    { apply apply_candidate_accepted; try done. lia. }
    destruct (Hrest _ Hstep) as (st3 & acc3 & Hrun & Hinv3 & Hts3 & Hacc3 & Hshrink).
    { apply accept_wf; try done. lia. }
    destruct (boundary_edit_distance_returns a b DEFAULT_N_T st3 Hrun)
      as (adds & subs & Hbed & _); [apply (wf_consistent _ _ Hinv3)|].
    exists adds, subs, (transpositions st3), (options_set st3).
    split; [unfold find_transpositions; fold st0; by rewrite Hrun|].
    split; [done|].
    simpl in Hts3. fold T in Hts3.
    assert (T' ∉ transpositions st3) as HT3.
    { rewrite Hts3, !elem_of_app, list_elem_of_singleton.
      intros [[HT|HT]|HT]; [done| |].
      - unfold T, T' in HT. injection HT. lia.
      - apply Hacc3 in HT. simpl in HT. lia. }
    assert (∀ k r_k r0, os0 !! k = Some r0 →
              options_set (accept i (i + 1) l r_i r_j st1) !! k = Some r_k →
              sim r_k ⊆ ∅ →
              options_set st3 !! k = Some (mkDifference ∅ ∅ ∅)) as Hfinal.
    { intros k r_k r0 Hk0 Hk2 Hsub.
      destruct (proj2 (wf_dom _ _ Hinv3 k)) as [r' Hr']; [by eexists|].
      rewrite Hr'. f_equal. apply consistent_empty.
      - by eapply wf_consistent.
      - apply Hshrink in Hr' as (r & Hr & Hs). rewrite Hk2 in Hr.
        injection Hr as <-. set_solver. }
    assert (sim r_i ⊆ {[l]}) as Hsi.
    { intros x Hx. by apply (wf_residual _ _ Hinv1 _ _ _ x H0i Hri) in Hx as [Hx _]. }
    assert (sim r_j ⊆ {[l]}) as Hsj.
    { intros x Hx. by apply (wf_residual _ _ Hinv1 _ _ _ x H0j Hrj) in Hx as [Hx _]. }
    split; [done|]. split; [|done]. intros _.
    split; [|split; [|split; [|done]]].
    + exists (transpositions st1), acc3.
      split; [by rewrite Hts3, <- app_assoc|]. split.
      * intros HT. apply Hold in HT. simpl in HT. lia.
      * intros HT. apply Hacc3 in HT. simpl in HT. lia.
    + eapply (Hfinal i); [apply H0i| |].
      * simpl. rewrite lookup_insert_ne, lookup_insert_eq by lia. done.
      * simpl. set_solver.
    + eapply (Hfinal (i + 1)); [apply H0j| |].
      * simpl. rewrite lookup_insert_eq. done.
      * simpl. set_solver.
Qed.

End adjacent_label.

End adjacent_runs.

(** ** The pure transposition and the exact counts *)

Section pure_transposition_claim.
Context {runtime : ObjectIdentity}.

(** C4, amended.  Let label [l] be in A at [i] and in B at [i + 1], in
    neither A at [i + 1] nor B at [i], with no other disagreement at
    these two positions, and take the default span.  If the scan has
    not accepted the transposition [(i - 1, i, l)], then
    [(i, i + 1, l)] is returned exactly once and the residual records
    at [i] and [i + 1] are empty, so no addition or substitution arises
    there.  If it has, and [l] is an integer from -5 to 256, then
    [(i, i + 1, l)] is not returned.  The scan can accept
    [(i - 1, i, l)] only if [l] is a candidate of the window
    [(i - 1, i)]. *)
Theorem pure_transposition (a b : list (gset Z)) (i l : Z)
    (a_i a_j b_i b_j : gset Z) :
  length a = length b → 0 ≤ i →
  a !! Z.to_nat i = Some a_i → a !! Z.to_nat (i + 1) = Some a_j →
  b !! Z.to_nat i = Some b_i → b !! Z.to_nat (i + 1) = Some b_j →
  l ∈ a_i → l ∈ b_j → l ∉ a_j → l ∉ b_i →
  sym_diff a_i b_i = {[l]} → sym_diff a_j b_j = {[l]} →
  ∃ adds subs ts os',
    find_transpositions a b (py_range 2 (DEFAULT_N_T + 1)) (optional_set_edits a b)
    = Ok (ts, os') ∧
    boundary_edit_distance a b DEFAULT_N_T = Ok (adds, subs, ts) ∧
    (mkTransposition (i - 1) i l ∈ ts → small_int l →
     mkTransposition i (i + 1) l ∉ ts) ∧
    (mkTransposition (i - 1) i l ∉ ts →
     (∃ ts1 ts2, ts = ts1 ++ mkTransposition i (i + 1) l :: ts2 ∧
                 (mkTransposition i (i + 1) l ∉ ts1) ∧
                 (mkTransposition i (i + 1) l ∉ ts2)) ∧
     os' !! i = Some (mkDifference ∅ ∅ ∅) ∧
     os' !! (i + 1) = Some (mkDifference ∅ ∅ ∅) ∧
     additions_substitutions_sets ∅ ∅ ∅ = Ok ([], ∅)) ∧
    (¬ candidate a b (i - 1) i l → mkTransposition (i - 1) i l ∉ ts).
Proof. intros. by eapply adjacent_scan_result. Qed.

End pure_transposition_claim.

(** C9.  For disjoint [a] and [b] with [d] their union,
    [additions_substitutions] returns [| |a| - |b| |] and
    [min(|a|, |b|)]: the dividend of the true division is even, so the
    quotient is a non-negative integer. *)
Theorem additions_substitutions_exact (d a b : gset Z) :
  a ## b → d = a ∪ b →
  (additions_substitutions d a b).1 = Z.abs (len_set a - len_set b) ∧
  ((additions_substitutions d a b).2
   == inject_Z (Z.min (len_set a) (len_set b)))%Q ∧
  ∃ k : Z, 0 ≤ k ∧ len_set d - (additions_substitutions d a b).1 = 2 * k ∧
           ((additions_substitutions d a b).2 == inject_Z k)%Q.
Proof.
  intros Hdisj Hd.
  destruct (additions_substitutions_spec d a b Hdisj Hd) as [H1 H2].
  split; [done|]. split; [done|].
  exists (Z.min (len_set a) (len_set b)). split; [unfold len_set; lia|].
  split; [|done]. rewrite H1, Hd. unfold len_set.
  rewrite size_union by done. lia.
Qed.

(** ** Scenarios on shared labels *)

Section shared_label_scenarios.

(** The labels below are integers from -5 to 256: whatever the runtime,
    equal labels are one object. *)
#[local] Existing Instance by_value.

Lemma pure_transposition_witness :
  ∃ adds subs ts os',
    find_transpositions [{[1]}; ∅] [∅; {[1]}] (py_range 2 (DEFAULT_N_T + 1))
      (optional_set_edits [{[1]}; ∅] [∅; {[1]}])
    = Ok (ts, os') ∧
    boundary_edit_distance [{[1]}; ∅] [∅; {[1]}] DEFAULT_N_T = Ok (adds, subs, ts) ∧
    (mkTransposition (0 - 1) 0 1 ∈ ts → small_int 1 →
     mkTransposition 0 (0 + 1) 1 ∉ ts) ∧
    (mkTransposition (0 - 1) 0 1 ∉ ts →
     (∃ ts1 ts2, ts = ts1 ++ mkTransposition 0 (0 + 1) 1 :: ts2 ∧
                 (mkTransposition 0 (0 + 1) 1 ∉ ts1) ∧
                 (mkTransposition 0 (0 + 1) 1 ∉ ts2)) ∧
     os' !! 0 = Some (mkDifference ∅ ∅ ∅) ∧
     os' !! (0 + 1) = Some (mkDifference ∅ ∅ ∅) ∧
     additions_substitutions_sets ∅ ∅ ∅ = Ok ([], ∅)) ∧
    (¬ candidate [{[1]}; ∅] [∅; {[1]}] (0 - 1) 0 1 →
     mkTransposition (0 - 1) 0 1 ∉ ts).
Proof.
  apply (pure_transposition [{[1]}; ∅] [∅; {[1]}] 0 1 {[1]} ∅ ∅ {[1]});
    try reflexivity; try lia;
    try (apply (bool_decide_unpack _); vm_compute; exact I).
Defined.

(** C4 as stated fails: the label sits in A at 1 and in B at 2 with no
    other disagreement there, yet the scan has already spent position 1
    on the transposition (0, 1, 1). *)
Lemma pure_transposition_counterexample :
  ¬ (∀ (a b : list (gset Z)) (i l : Z) (a_i a_j b_i b_j : gset Z),
       length a = length b → 0 ≤ i →
       a !! Z.to_nat i = Some a_i → a !! Z.to_nat (i + 1) = Some a_j →
       b !! Z.to_nat i = Some b_i → b !! Z.to_nat (i + 1) = Some b_j →
       l ∈ a_i → l ∈ b_j → l ∉ a_j → l ∉ b_i →
       sym_diff a_i b_i = {[l]} → sym_diff a_j b_j = {[l]} →
       ∃ adds subs ts,
         boundary_edit_distance a b DEFAULT_N_T = Ok (adds, subs, ts) ∧
         mkTransposition i (i + 1) l ∈ ts ∧
         (∀ s, mkAddition l s ∉ adds)).
Proof.
  intros H.
  destruct (H [∅; {[1]}; ∅] [{[1]}; ∅; {[1]}] 1 1 {[1]} ∅ ∅ {[1]})
    as (adds & subs & ts & Hbed & Hin & _);
    try reflexivity; try lia;
    try (apply (bool_decide_unpack _); vm_compute; exact I).
  assert (boundary_edit_distance [∅; {[1]}; ∅] [{[1]}; ∅; {[1]}] DEFAULT_N_T
          = Ok ([mkAddition 1 "b"], [], [mkTransposition 0 1 1])) as Heval
    by (vm_compute; reflexivity).
  rewrite Heval in Hbed. injection Hbed as <- <- <-.
  apply list_elem_of_singleton in Hin. discriminate Hin.
Qed.

(** C2 as stated fails: the second string is longer, its extra
    position holds a boundary, and the call returns the empty
    decomposition of the common prefix. *)
Lemma unequal_lengths_counterexample :
  ¬ (∀ (a b : list (gset Z)) (n_t : Z),
       length a ≠ length b → ∃ e, boundary_edit_distance a b n_t = Raise e).
Proof.
  intros H. destruct (H [{[1]}] [{[1]}; {[2]}] DEFAULT_N_T) as [e He].
  - discriminate.
  - assert (boundary_edit_distance [{[1]}] [{[1]}; {[2]}] DEFAULT_N_T
            = Ok ([], [], [])) as Heval by (vm_compute; reflexivity).
    rewrite Heval in He. discriminate He.
Qed.

Lemma unequal_lengths_witness :
  ((length [∅ : gset Z] < length [∅ : gset Z; ∅])%nat ∧
   (2 ≤ length [∅ : gset Z; ∅])%nat ∧ 2 ≤ 2 →
   boundary_edit_distance [∅; ∅] [∅] 2 = Raise IndexError) ∧
  (¬ ((length [∅ : gset Z] < length [∅ : gset Z; ∅])%nat ∧
      (2 ≤ length [∅ : gset Z; ∅])%nat ∧ 2 ≤ 2) →
   ∃ edits, boundary_edit_distance [∅; ∅] [∅] 2 = Ok edits).
Proof. apply (unequal_lengths [∅; ∅] [∅] 2). simpl. lia. Defined.

Lemma conservation_on_shared_labels_witness :
  ∃ adds subs ts,
    boundary_edit_distance [{[1; 2]}; {[3]}; ∅] [{[3]}; {[1; 2]}; {[4]}] 2
    = Ok (adds, subs, ts) ∧
    (length adds + 2 * length subs + 2 * length ts)%nat
    = disagreements [{[1; 2]}; {[3]}; ∅] [{[3]}; {[1; 2]}; {[4]}].
Proof.
  apply (conservation_on_shared_labels
           [{[1; 2]}; {[3]}; ∅] [{[3]}; {[1; 2]}; {[4]}] 2).
  - reflexivity.
  - apply (bool_decide_unpack _). vm_compute. exact I.
Defined.

Lemma span_bound_witness :
  ∃ adds subs ts,
    boundary_edit_distance [{[1]}; ∅; ∅] [∅; ∅; {[1]}] 3 = Ok (adds, subs, ts) ∧
    (∀ t, t ∈ ts → 2 ≤ t_end t - t_start t + 1 ≤ 3) ∧
    (3 < 2 →
     ts = [] ∧
     (length adds + 2 * length subs)%nat
     = disagreements [{[1]}; ∅; ∅] [∅; ∅; {[1]}]).
Proof. apply (span_bound [{[1]}; ∅; ∅] [∅; ∅; {[1]}] 3). reflexivity. Defined.

Lemma longer_second_string_is_truncated_witness :
  boundary_edit_distance [{[1]}] [{[1]}; {[2]}] 2
  = boundary_edit_distance [{[1]}] (take (length [{[1]} : gset Z]) [{[1]}; {[2]}]) 2 ∧
  ∃ edits, boundary_edit_distance [{[1]}] [{[1]}; {[2]}] 2 = Ok edits.
Proof.
  apply (longer_second_string_is_truncated [{[1]}] [{[1]}; {[2]}] 2).
  simpl. lia.
Defined.

Lemma claimed_labels_are_removed_witness :
  ∃ os',
    find_transpositions [{[1]}; ∅] [∅; {[1]}] (py_range 2 (2 + 1))
      (optional_set_edits [{[1]}; ∅] [∅; {[1]}])
    = Ok ([mkTransposition 0 1 1], os') ∧
    for_each collect_edits (dict_values os') ([], []) = Ok ([], []) ∧
    ∀ t, t ∈ [mkTransposition 0 1 1] →
         removed_at os' (t_start t) (t_type t) ∧
         removed_at os' (t_end t) (t_type t).
Proof.
  apply (proj2 (proj2 (claimed_labels_are_removed [{[1]}; ∅] [∅; {[1]}])) 2).
  vm_compute. reflexivity.
Defined.

Lemma candidate_decision_on_shared_labels_witness :
  candidate [{[1]}; ∅] [∅; {[1]}] 0 1 1 ∧
  ∃ before after st,
    scan_order [{[1]}; ∅] [∅; {[1]}] (py_range 2 (2 + 1))
    = before ++ (0, 1, 1) :: after ∧
    for_each apply_candidate' before
      (mkScan ∅ [] (optional_set_edits [{[1]}; ∅] [∅; {[1]}]))
    = Ok st ∧
    (rejected 0 1 1 st ↔ apply_candidate 0 1 1 st = Ok st) ∧
    (¬ rejected 0 1 1 st →
     ∃ r_i r_j, options_set st !! 0 = Some r_i ∧ options_set st !! 1 = Some r_j ∧
                apply_candidate 0 1 1 st = Ok (accept 0 1 1 r_i r_j st)).
Proof.
  assert (candidate [{[1]}; ∅] [∅; {[1]}] 0 1 1) as Hc.
  { exists {[1]}, ∅, ∅, {[1]}.
    repeat split; try reflexivity; try lia;
      try (apply (bool_decide_unpack _); vm_compute; exact I). }
  split; [exact Hc|].
  destruct (candidate_decision_on_shared_labels [{[1]}; ∅] [∅; {[1]}] 2 0 1 1)
    as (_ & before & after & st & H1 & H2 & _ & H4 & H5);
    [reflexivity|apply (bool_decide_unpack _); vm_compute; exact I
    |exact Hc|lia|].
  exists before, after, st. split; [exact H1|]. split; [exact H2|].
  split; [exact H4|]. intros Hn.
  destruct (H5 Hn) as (r_i & r_j & ? & ? & _ & _ & ?). by exists r_i, r_j.
Defined.

Lemma additions_substitutions_exact_witness :
  (additions_substitutions scenario_d scenario_a scenario_b).1
  = Z.abs (len_set scenario_a - len_set scenario_b) ∧
  ((additions_substitutions scenario_d scenario_a scenario_b).2
   == inject_Z (Z.min (len_set scenario_a) (len_set scenario_b)))%Q ∧
  ∃ k : Z, 0 ≤ k ∧
    len_set scenario_d
    - (additions_substitutions scenario_d scenario_a scenario_b).1 = 2 * k ∧
    ((additions_substitutions scenario_d scenario_a scenario_b).2 == inject_Z k)%Q.
Proof.
  apply (additions_substitutions_exact scenario_d scenario_a scenario_b).
  - apply (bool_decide_unpack _). vm_compute. exact I.
  - apply (bool_decide_unpack _). vm_compute. exact I.
Defined.

End shared_label_scenarios.

(** ** Equal labels held by distinct objects *)

(** C1 (conservation, I1) does not hold of the code.  The label 1000
    occurs three times, each occurrence an integer object of its own:
    in A at 1, in B at 0 and in B at 2.  The overlap test compares
    objects ([t[2] is d]), so it does not see that the candidate
    (1, 2, 1000) touches position 1 of the accepted (0, 1, 1000): both
    are returned, and the three disagreeing occurrences are counted as
    four. *)
Theorem conservation_breaks_on_distinct_objects :
  boundary_edit_distance (runtime := fresh_objects)
    [∅; {[1000]}; ∅] [{[1000]}; ∅; {[1000]}] 2
  = Ok ([], [], [mkTransposition 0 1 1000; mkTransposition 1 2 1000]) ∧
  disagreements [∅; {[1000]}; ∅] [{[1000]}; ∅; {[1000]}] = 3%nat.
Proof. split; vm_compute; reflexivity. Qed.

(** C6 does not hold of the code.  On the same strings the candidate
    (1, 2, 1000) is met after (0, 1, 1000) has been accepted, a
    transposition of its label that touches its position 1, yet it is
    accepted: the overlap test compares objects, and the two labels are
    equal integers held by distinct objects. *)
Theorem overlap_missed_on_distinct_objects :
  scan_order [∅; {[1000]}; ∅] [{[1000]}; ∅; {[1000]}] (py_range 2 (2 + 1))
  = [(0, 1, 1000); (1, 2, 1000)] ∧
  ∃ st st',
    for_each (apply_candidate' (runtime := fresh_objects)) [(0, 1, 1000)]
      (mkScan ∅ [] (optional_set_edits [∅; {[1000]}; ∅] [{[1000]}; ∅; {[1000]}]))
    = Ok st ∧
    transpositions st = [mkTransposition 0 1 1000] ∧
    rejected 1 2 1000 st ∧
    apply_candidate (runtime := fresh_objects) 1 2 1000 st = Ok st' ∧
    transpositions st'
    = [mkTransposition 0 1 1000; mkTransposition 1 2 1000].
Proof.
  split; [vm_compute; reflexivity|].
  eexists. eexists. split; [vm_compute; reflexivity|].
  split; [reflexivity|]. split.
  - left. exists (mkTransposition 0 1 1000). split; [left|].
    split; [reflexivity|]. by right.
  - split; [vm_compute; reflexivity|reflexivity].
Qed.

(** ** Difference records, one-sided records and empty strings *)

Section records_and_empty_strings.
Context {runtime : ObjectIdentity}.

(** X1.  [optional_set_edits] never raises, whatever the two lengths: it
    records position [k] exactly when both strings have a position [k]
    and their label sets differ there, and the record holds the
    symmetric difference and the two one-sided differences. *)
Theorem optional_set_edits_records (a b : list (gset Z)) (k : Z) :
  (∀ r, optional_set_edits a b !! k = Some r ↔
        ∃ a_k b_k, 0 ≤ k ∧ a !! Z.to_nat k = Some a_k ∧
                   b !! Z.to_nat k = Some b_k ∧ a_k ≠ b_k ∧
                   r = mkDifference (sym_diff a_k b_k) (a_k ∖ b_k) (b_k ∖ a_k)) ∧
  (is_Some (optional_set_edits a b !! k) → 0 ≤ k < len a `min` len b).
Proof.
  assert (∀ x y : gset Z, sym_diff x y ≠ ∅ ↔ x ≠ y) as Hne.
  { intros x y. unfold sym_diff. split.
    - intros H ->. apply H. set_solver.
    - intros H He. apply H. apply set_eq. intros z.
      destruct (decide (z ∈ x)), (decide (z ∈ y)); set_solver. }
  split.
  - intros r. rewrite optional_set_edits_lookup_Some.
    split; intros (a_k & b_k & ? & ? & ? & ? & ?); exists a_k, b_k;
      repeat split; try done; by apply Hne.
  - intros [r (a_k & b_k & Hk & Ha & Hb & _)%optional_set_edits_lookup_Some].
    apply lookup_lt_Some in Ha, Hb. unfold len. lia.
Qed.

(** ** The matcher against the counting function *)

Lemma maximal_pairing_empty_r a m : maximal_pairing a ∅ m → m = ∅.
Proof.
  intros [_ Hsize]. rewrite size_empty, Nat.min_0_r in Hsize.
  by apply size_empty_inv, leibniz_equiv in Hsize.
Qed.

Lemma maximal_pairing_empty_l b m : maximal_pairing ∅ b m → m = ∅.
Proof.
  intros [_ Hsize]. rewrite size_empty, Nat.min_0_l in Hsize.
  by apply size_empty_inv, leibniz_equiv in Hsize.
Qed.

Lemma substituted_labels_empty : substituted_labels ∅ = ∅.
Proof. unfold substituted_labels. by rewrite elements_empty. Qed.

Lemma substitution_set_empty : substitution_set ∅ = ∅.
Proof. unfold substitution_set, set_map. by rewrite elements_empty. Qed.

(** X2.  When one side has no label left, the matcher pairs nothing:
    the additions it returns are the labels of the other side, each
    once and tagged with that side, in the order the set is traversed
    in, and it returns no substitution. *)
Theorem one_sided_record_gives_additions (a : gset Z) :
  (∃ added, additions_substitutions_sets a a ∅ = Ok (added, ∅) ∧
            added ≡ₚ map (λ x, mkAddition x "a") (elements a)) ∧
  (∃ added, additions_substitutions_sets a ∅ a = Ok (added, ∅) ∧
            added ≡ₚ map (λ x, mkAddition x "b") (elements a)).
Proof.
  assert (iter_set a ≡ₚ elements a) as Hperm by apply sorted_Permutation.
  split; eexists.
  - rewrite additions_substitutions_sets_returns by set_solver.
    destruct (search_pairings_spec a ∅) as [Hm _].
    apply maximal_pairing_empty_r in Hm. rewrite Hm.
    unfold added_list. rewrite substituted_labels_empty, substitution_set_empty.
    rewrite !difference_empty_L, iter_set_empty. simpl. rewrite app_nil_r.
    split; [done|]. by rewrite Hperm.
  - rewrite additions_substitutions_sets_returns by set_solver.
    destruct (search_pairings_spec ∅ a) as [Hm _].
    apply maximal_pairing_empty_l in Hm. rewrite Hm.
    unfold added_list. rewrite substituted_labels_empty, substitution_set_empty.
    rewrite !difference_empty_L, iter_set_empty. simpl.
    split; [done|]. by rewrite Hperm.
Qed.

(** X3.  On a consistent record the two functions agree: the set-valued
    matcher returns as many additions and as many substitutions as
    [additions_substitutions] counts. *)
Theorem matcher_agrees_with_counts (d a b : gset Z) :
  a ## b → d = a ∪ b →
  ∃ added subs,
    additions_substitutions_sets d a b = Ok (added, subs) ∧
    Z.of_nat (length added) = (additions_substitutions d a b).1 ∧
    (inject_Z (Z.of_nat (size subs)) == (additions_substitutions d a b).2)%Q.
Proof.
  intros Hdisj Hd.
  destruct (search_pairings_spec a b) as [[Hm Hsize] _].
  destruct (additions_substitutions_spec d a b Hdisj Hd) as [H1 H2].
  eexists _, _. split; [by apply additions_substitutions_sets_returns|].
  pose proof (length_added_list_pairing a b _ Hdisj Hm) as Hlen.
  rewrite size_substitution_set, H1, H2, Hsize. unfold len_set.
  split; [lia|]. by rewrite Nat2Z.inj_min.
Qed.

Lemma matcher_agrees_with_counts_witness :
  ∃ added subs,
    additions_substitutions_sets scenario_d scenario_a scenario_b
    = Ok (added, subs) ∧
    Z.of_nat (length added)
    = (additions_substitutions scenario_d scenario_a scenario_b).1 ∧
    (inject_Z (Z.of_nat (size subs))
     == (additions_substitutions scenario_d scenario_a scenario_b).2)%Q.
Proof.
  apply (matcher_agrees_with_counts scenario_d scenario_a scenario_b).
  - apply (bool_decide_unpack _). vm_compute. exact I.
  - apply (bool_decide_unpack _). vm_compute. exact I.
Defined.

(** ** Empty strings *)

Lemma optional_set_edits_nil_l b : optional_set_edits [] b = ∅.
Proof. done. Qed.

Lemma optional_set_edits_nil_r a : optional_set_edits a [] = ∅.
Proof. unfold optional_set_edits. by destruct a. Qed.

Lemma dict_values_empty : dict_values ∅ = [].
Proof. unfold dict_values. by rewrite map_to_list_empty. Qed.

(** X4.  Zero-length strings.  An empty first string gives the empty
    decomposition whatever the second string and the span.  An empty
    second string gives the empty decomposition when no window is
    scanned ([n_t < 2] or fewer than two positions) and an [IndexError]
    otherwise. *)
Theorem empty_strings (s : list (gset Z)) (n_t : Z) :
  boundary_edit_distance [] s n_t = Ok ([], [], []) ∧
  (n_t < 2 ∨ (length s < 2)%nat →
   boundary_edit_distance s [] n_t = Ok ([], [], [])) ∧
  (2 ≤ n_t ∧ (2 ≤ length s)%nat →
   boundary_edit_distance s [] n_t = Raise IndexError).
Proof.
  split; [|split].
  - rewrite (boundary_edit_distance_scanned [] s n_t (mkScan ∅ [] ∅)).
    + simpl. by rewrite dict_values_empty.
    + rewrite optional_set_edits_nil_l.
      apply find_transpositions_from_no_window. right. unfold len. simpl. lia.
  - intros Hno.
    rewrite (boundary_edit_distance_scanned s [] n_t (mkScan ∅ [] ∅)).
    + simpl. by rewrite dict_values_empty.
    + rewrite optional_set_edits_nil_r.
      apply find_transpositions_from_no_window. unfold len. lia.
  - intros [Hn Hs]. unfold boundary_edit_distance, find_transpositions.
    rewrite find_transpositions_from_past_end; [done|unfold len; simpl; lia..|done].
Qed.

End records_and_empty_strings.

Section empty_string_scenarios.
#[local] Existing Instance by_value.

Lemma empty_strings_witness :
  boundary_edit_distance [] [{[1]}; ∅] 2 = Ok ([], [], []) ∧
  (2 < 2 ∨ (length [{[1%Z]} : gset Z; ∅] < 2)%nat →
   boundary_edit_distance [{[1]}; ∅] [] 2 = Ok ([], [], [])) ∧
  (2 ≤ 2 ∧ (2 ≤ length [{[1%Z]} : gset Z; ∅])%nat →
   boundary_edit_distance [{[1]}; ∅] [] 2 = Raise IndexError).
Proof. apply (empty_strings [{[1]}; ∅] 2). Defined.

End empty_string_scenarios.

(** ** What a returned scan guarantees *)

Section returned_scan.
Context {runtime : ObjectIdentity}.

Lemma py_index_elem {A} (l : list A) i x : py_index l i = Ok x → x ∈ l.
Proof.
  unfold py_index. cbv zeta. case_bool_decide; [|done].
  destruct (l !! _) eqn:Hl; intros [=]; subst.
  by eapply list_elem_of_lookup_2.
Qed.

Lemma py_index_Ok_nonneg {A} (l : list A) i x :
  0 ≤ i → py_index l i = Ok x → l !! Z.to_nat i = Some x.
Proof.
  intros Hi. unfold py_index. cbv zeta.
  rewrite !(bool_decide_true (0 ≤ i)) by done.
  by destruct (l !! Z.to_nat i); intros [=]; subst.
Qed.

(** A property kept by every candidate of every window is kept by a
    scan that returns. *)
Lemma scan_preserves (P : scan_state → Prop) a b n_t st st' :
  find_transpositions_from a b n_t st = Ok st' →
  P st →
  (∀ n i d a_i a_j b_i b_j st0 st1,
     n ∈ n_t → 0 ≤ i < len a - (n - 1) →
     py_index a i = Ok a_i → py_index a (i + (n - 1)) = Ok a_j →
     py_index b i = Ok b_i → py_index b (i + (n - 1)) = Ok b_j →
     d ∈ potential_transpositions a_i a_j b_i b_j →
     P st0 → apply_candidate i (i + (n - 1)) d st0 = Ok st1 → P st1) →
  P st'.
Proof.
  intros Hrun HP Hstep. unfold find_transpositions_from in Hrun.
  apply (for_each_inv_ok P _ _ _ _ Hrun HP). clear Hrun HP st st'.
  intros n st st' Hn HP Hrun. rewrite sorted_Permutation in Hn.
  unfold scan_span in Hrun.
  apply (for_each_inv_ok P _ _ _ _ Hrun HP). clear Hrun HP st st'.
  intros i st st' Hi%elem_of_py_range HP Hrun. unfold scan_window in Hrun.
  destruct (py_index a i) as [a_i|] eqn:Hai; simpl in Hrun; [|done].
  destruct (py_index a (i + (n - 1))) as [a_j|] eqn:Haj; simpl in Hrun; [|done].
  destruct (py_index b i) as [b_i|] eqn:Hbi; simpl in Hrun; [|done].
  destruct (py_index b (i + (n - 1))) as [b_j|] eqn:Hbj; simpl in Hrun; [|done].
  apply (for_each_inv_ok P _ _ _ _ Hrun HP). clear Hrun HP st st'.
  intros d st st' Hd%elem_of_iter_set HP Hrun.
  by eapply (Hstep n i d a_i a_j b_i b_j).
Qed.

Lemma find_transpositions_Ok a b n_t os ts os' :
  find_transpositions a b n_t os = Ok (ts, os') →
  ∃ st, find_transpositions_from a b n_t (mkScan ∅ [] os) = Ok st ∧
        transpositions st = ts ∧ options_set st = os'.
Proof.
  unfold find_transpositions.
  destruct (find_transpositions_from _ _ _ _) as [st|]; simpl; [|done].
  intros [= <- <-]. by exists st.
Qed.

Lemma boundary_edit_distance_Ok a b n_t adds subs ts :
  boundary_edit_distance a b n_t = Ok (adds, subs, ts) →
  ∃ st, find_transpositions_from a b (py_range 2 (n_t + 1))
          (mkScan ∅ [] (optional_set_edits a b)) = Ok st ∧
        transpositions st = ts ∧
        for_each collect_edits (dict_values (options_set st)) ([], [])
        = Ok (adds, subs).
Proof.
  unfold boundary_edit_distance.
  destruct (find_transpositions _ _ _ _) as [[ts' os']|] eqn:Hft; simpl; [|done].
  destruct (for_each _ _ _) as [[adds' subs']|] eqn:Hce; simpl; [|done].
  intros [= <- <- <-].
  apply find_transpositions_Ok in Hft as (st & Hst & <- & <-). by exists st.
Qed.

(** ** Non-overlapping transpositions *)

Lemma overlaps_existing_link i j d st :
  transp_link st → small_int d →
  overlaps_existing i j d (options_transp st) = false →
  ¬ claimed (transpositions st) i d ∧ ¬ claimed (transpositions st) j d.
Proof.
  intros Hlink Hsmall Ho. unfold overlaps_existing in Ho.
  apply orb_false_elim in Ho as [Hi Hj].
  split; intros (t & Ht & Hd & Htouch).
  - destruct (proj2 (Hlink i t)) as (l & Hl & Hin); [done|].
    assert (check_position i j d (options_transp st) i = true); [|congruence].
    apply check_position_small; eauto.
  - destruct (proj2 (Hlink j t)) as (l & Hl & Hin); [done|].
    assert (check_position i j d (options_transp st) j = true); [|congruence].
    apply check_position_small; eauto.
Qed.

Lemma accept_transp_link i j d r_i r_j st :
  transp_link st → transp_link (accept i j d r_i r_j st).
Proof.
  intros Hlink p t. simpl. rewrite record_endpoints_lookup, (Hlink p t).
  rewrite elem_of_app, list_elem_of_singleton. unfold touches. split.
  - intros [[??]|[-> ?]]; simpl; auto.
  - intros [[?| ->] ?]; simpl in *; auto.
Qed.

Lemma non_overlapping_snoc ts t :
  non_overlapping ts →
  ¬ claimed ts (t_start t) (t_type t) → ¬ claimed ts (t_end t) (t_type t) →
  non_overlapping (ts ++ [t]).
Proof.
  intros Hts Hs He n m t1 t2 Hnm H1 H2 Hty.
  destruct (decide (m < length ts)%nat) as [Hm|Hm].
  - rewrite lookup_app_l in H1, H2 by lia. exact (Hts n m t1 t2 Hnm H1 H2 Hty).
  - pose proof (lookup_lt_Some _ _ _ H2) as Hlt.
    rewrite length_app in Hlt. simpl in Hlt.
    assert (m = length ts) as -> by lia.
    rewrite lookup_app_r, Nat.sub_diag in H2 by lia. injection H2 as <-.
    rewrite lookup_app_l in H1 by lia.
    apply list_elem_of_lookup_2 in H1.
    split; intros Htouch; [apply Hs|apply He]; by exists t1.
Qed.

Lemma non_overlapping_NoDup ts : non_overlapping ts → NoDup ts.
Proof.
  intros Hts. apply NoDup_alt. intros n m t H1 H2.
  destruct (Nat.lt_total n m) as [Hlt|[->|Hlt]]; [|done|].
  - destruct (Hts n m t t Hlt H1 H2 eq_refl) as [H _].
    destruct H. by left.
  - destruct (Hts m n t t Hlt H2 H1 eq_refl) as [H _].
    destruct H. by left.
Qed.

(** X5.  The docstring's "non-overlapping", on shared labels: when the
    labels of the first string are integers from -5 to 256, whatever
    the spans and the mapping handed in, the list a returned
    [find_transpositions] gives has no repeated entry, and no two of
    its entries of the same label share an endpoint. *)
Theorem transpositions_do_not_overlap a b n_t os ts os' :
  small_labels a →
  find_transpositions a b n_t os = Ok (ts, os') →
  non_overlapping ts ∧ NoDup ts.
Proof.
  intros Hsmall (st & Hst & <- & _)%find_transpositions_Ok.
  assert (transp_link st ∧ non_overlapping (transpositions st)) as [_ H].
  { apply (scan_preserves
             (λ st, transp_link st ∧ non_overlapping (transpositions st))
             _ _ _ _ _ Hst).
    - split.
      + intros p t. simpl. rewrite lookup_empty. split.
        * by intros (? & [=] & _).
        * by intros [?%elem_of_nil _].
      + intros n m t1 t2 _ H1. simpl in H1. by destruct n.
    - intros n i d a_i a_j b_i b_j st0 st1 _ _ Hai%py_index_elem
        Haj%py_index_elem _ _ Hd [Hlink Hno] Hstep.
      assert (small_int d) as Hd_small.
      { unfold potential_transpositions, sym_diff in Hd.
        assert (d ∈ a_i ∨ d ∈ a_j) as [?|?] by set_solver.
        - by apply (Hsmall a_i).
        - by apply (Hsmall a_j). }
      apply apply_candidate_cases in Hstep
        as [[-> _]|(Ho & _ & r_i & r_j & _ & _ & ->)]; [done|].
      split; [by apply accept_transp_link|]. simpl.
      destruct (overlaps_existing_link _ _ _ _ Hlink Hd_small Ho).
      by apply non_overlapping_snoc. }
  split; [done|by apply non_overlapping_NoDup].
Qed.

(** ** The scan only removes claimed labels *)

Lemma shrunk_from_refl ts k r : shrunk_from ts k r r.
Proof.
  unfold shrunk_from. split; [done|]. split; [done|]. split; [done|].
  split; [|done]. by intros x ??.
Qed.

Lemma claimed_mono ts t k x : claimed ts k x → claimed (ts ++ [t]) k x.
Proof. intros H. apply claimed_snoc. by left. Qed.

Lemma shrunk_from_mono ts t k r r' :
  shrunk_from ts k r r' → shrunk_from (ts ++ [t]) k r r'.
Proof.
  intros (H1 & H2 & H3 & H4 & H5).
  split; [done|]. split; [done|]. split; [done|]. split; [|done].
  intros x Hx Hn. by apply claimed_mono, H4.
Qed.

Lemma shrunk_from_discard ts i j d k r r' :
  i = k ∨ j = k →
  shrunk_from (ts ++ [mkTransposition i j d]) k r r' →
  shrunk_from (ts ++ [mkTransposition i j d]) k r (discard_label d r').
Proof.
  intros Hk (H1 & H2 & H3 & H4 & H5). unfold shrunk_from.
  cbn [discard_label sim a_b b_a].
  split; [by intros z [Hz _]%elem_of_difference; apply H1|].
  split; [by intros z [Hz _]%elem_of_difference; apply H2|].
  split; [by intros z [Hz _]%elem_of_difference; apply H3|]. split.
  - intros x Hx Hn. destruct (decide (x ∈ sim r')) as [Hin|Hout].
    + assert (x = d) as ->.
      { destruct (decide (x = d)); [done|]. destruct Hn.
        apply elem_of_difference. split; [done|]. by apply not_elem_of_singleton. }
      apply claimed_snoc. right. unfold touches. simpl. tauto.
    + by apply H4.
  - intros Hc. by apply discard_label_consistent, H5.
Qed.

Lemma scan_shrinks a b n_t (os : gmap Z Difference) st :
  find_transpositions_from a b n_t (mkScan ∅ [] os) = Ok st →
  dom (options_set st) = dom os ∧
  ∀ k r', options_set st !! k = Some r' →
          ∃ r, os !! k = Some r ∧ shrunk_from (transpositions st) k r r'.
Proof.
  intros Hst.
  apply (find_transpositions_from_preserves
           (λ st, dom (options_set st) = dom os ∧
                  ∀ k r', options_set st !! k = Some r' →
                          ∃ r, os !! k = Some r ∧
                               shrunk_from (transpositions st) k r r')
           _ _ _ _ _ Hst).
  - split; [done|]. intros k r' Hk. exists r'. split; [done|].
    apply shrunk_from_refl.
  - intros i j d st0 st1 [Hdom Hrec] Hstep.
    apply apply_candidate_cases in Hstep
      as [[-> _]|(_ & _ & r_i & r_j & Hi & Hj & ->)]; [done|].
    simpl. split.
    + rewrite !dom_insert_L, <- Hdom.
      assert (i ∈ dom (options_set st0)) by (apply elem_of_dom; eauto).
      assert (j ∈ dom (options_set st0)).
      { destruct (decide (i = j)) as [->|Hne]; [done|].
        rewrite lookup_insert_ne in Hj by done. apply elem_of_dom. eauto. }
      set_solver.
    + intros k r' Hk.
      destruct (decide (j = k)) as [->|Hjk].
      * rewrite lookup_insert_eq in Hk. injection Hk as <-.
        destruct (decide (i = k)) as [->|Hik].
        -- rewrite lookup_insert_eq in Hj. injection Hj as <-.
           destruct (Hrec _ _ Hi) as (r & Hr & Hs). exists r. split; [done|].
           apply shrunk_from_discard; [by left|].
           apply shrunk_from_discard; [by left|]. by apply shrunk_from_mono.
        -- rewrite lookup_insert_ne in Hj by done.
           destruct (Hrec _ _ Hj) as (r & Hr & Hs). exists r. split; [done|].
           apply shrunk_from_discard; [by right|]. by apply shrunk_from_mono.
      * rewrite lookup_insert_ne in Hk by done.
        destruct (decide (i = k)) as [->|Hik].
        -- rewrite lookup_insert_eq in Hk. injection Hk as <-.
           destruct (Hrec _ _ Hi) as (r & Hr & Hs). exists r. split; [done|].
           apply shrunk_from_discard; [by left|]. by apply shrunk_from_mono.
        -- rewrite lookup_insert_ne in Hk by done.
           destruct (Hrec _ _ Hk) as (r & Hr & Hs). exists r. split; [done|].
           by apply shrunk_from_mono.
Qed.

(** X6.  Whatever it is given, a returned [find_transpositions] hands
    back a mapping with the keys it received; each record has lost
    labels only, a label missing from a symmetric difference has been
    claimed at that position by a returned transposition of that label,
    and a record that was consistent still is. *)
Theorem scan_only_removes_claimed_labels a b n_t
    (os : gmap Z Difference) ts os' :
  find_transpositions a b n_t os = Ok (ts, os') →
  dom os' = dom os ∧
  ∀ k r', os' !! k = Some r' → ∃ r, os !! k = Some r ∧ shrunk_from ts k r r'.
Proof.
  intros (st & Hst & <- & <-)%find_transpositions_Ok. by apply (scan_shrinks a b n_t).
Qed.

End returned_scan.

Section returned_scan_scenarios.
#[local] Existing Instance by_value.

Lemma transpositions_do_not_overlap_witness :
  non_overlapping [mkTransposition 0 1 1; mkTransposition 2 3 1] ∧
  NoDup [mkTransposition 0 1 1; mkTransposition 2 3 1].
Proof.
  apply (transpositions_do_not_overlap
           [{[1]}; ∅; {[1]}; ∅] [∅; {[1]}; ∅; {[1]}] [2]
           (optional_set_edits [{[1]}; ∅; {[1]}; ∅] [∅; {[1]}; ∅; {[1]}])
           [mkTransposition 0 1 1; mkTransposition 2 3 1]
           (<[3 := mkDifference ∅ ∅ ∅]>
              (<[2 := mkDifference ∅ ∅ ∅]>
                 (<[1 := mkDifference ∅ ∅ ∅]>
                    (<[0 := mkDifference ∅ ∅ ∅]> ∅))))).
  - apply (bool_decide_unpack _). vm_compute. exact I.
  - vm_compute. reflexivity.
Defined.

Lemma scan_only_removes_claimed_labels_witness :
  dom (<[1 := mkDifference ∅ ∅ ∅]> (<[0 := mkDifference ∅ ∅ ∅]> ∅)
       : gmap Z Difference)
  = dom (optional_set_edits [{[1]}; ∅] [∅; {[1]}]) ∧
  ∀ k r',
    (<[1 := mkDifference ∅ ∅ ∅]> (<[0 := mkDifference ∅ ∅ ∅]> ∅)
     : gmap Z Difference) !! k = Some r' →
    ∃ r, optional_set_edits [{[1]}; ∅] [∅; {[1]}] !! k = Some r ∧
         shrunk_from [mkTransposition 0 1 1] k r r'.
Proof.
  apply (scan_only_removes_claimed_labels [{[1]}; ∅] [∅; {[1]}] [2]).
  vm_compute. reflexivity.
Defined.

End returned_scan_scenarios.

(** ** Where the edits come from *)

Section edit_origins.
Context {runtime : ObjectIdentity}.

Lemma potential_transpositions_shifted d a_i a_j b_i b_j :
  d ∈ potential_transpositions a_i a_j b_i b_j ↔ shifted d a_i a_j b_i b_j.
Proof.
  unfold potential_transpositions, sym_diff, shifted.
  rewrite !elem_of_intersection, !elem_of_union, !elem_of_difference.
  destruct (decide (d ∈ a_i)), (decide (d ∈ a_j)),
           (decide (d ∈ b_i)), (decide (d ∈ b_j)); tauto.
Qed.

(** X7.  Every transposition [boundary_edit_distance] returns is a real
    shift: its two positions exist in both strings, the start comes
    before the end, and its label is in one string at the start and in
    the other string at the end, and nowhere else among the four
    sets. *)
Theorem transpositions_are_shifts a b n_t adds subs ts :
  boundary_edit_distance a b n_t = Ok (adds, subs, ts) →
  ∀ t, t ∈ ts →
       ∃ a_i a_j b_i b_j,
         0 ≤ t_start t < t_end t ∧
         a !! Z.to_nat (t_start t) = Some a_i ∧
         a !! Z.to_nat (t_end t) = Some a_j ∧
         b !! Z.to_nat (t_start t) = Some b_i ∧
         b !! Z.to_nat (t_end t) = Some b_j ∧
         shifted (t_type t) a_i a_j b_i b_j.
Proof.
  intros (st & Hst & <- & _)%boundary_edit_distance_Ok.
  apply (scan_preserves
           (λ st, ∀ t, t ∈ transpositions st →
              ∃ a_i a_j b_i b_j,
                0 ≤ t_start t < t_end t ∧
                a !! Z.to_nat (t_start t) = Some a_i ∧
                a !! Z.to_nat (t_end t) = Some a_j ∧
                b !! Z.to_nat (t_start t) = Some b_i ∧
                b !! Z.to_nat (t_end t) = Some b_j ∧
                shifted (t_type t) a_i a_j b_i b_j)
           _ _ _ _ _ Hst).
  - by intros t ?%elem_of_nil.
  - intros n i d a_i a_j b_i b_j st0 st1 Hn%span_range Hi Hai Haj Hbi Hbj Hd
           Hold Hstep.
    apply apply_candidate_cases in Hstep
      as [[-> _]|(_ & _ & r_i & r_j & _ & _ & ->)]; [done|].
    simpl. intros t [Ht| ->%list_elem_of_singleton]%elem_of_app; [by apply Hold|].
    simpl. exists a_i, a_j, b_i, b_j.
    split; [lia|]. repeat split; try (apply py_index_Ok_nonneg; [lia|done]).
    by apply potential_transpositions_shifted.
Qed.

(** ** Where additions and substitutions come from *)

Lemma additions_substitutions_sets_sound d a b added subs :
  additions_substitutions_sets d a b = Ok (added, subs) →
  (∀ e, e ∈ added → (add_side e = "a" ∧ add_type e ∈ a) ∨
                     (add_side e = "b" ∧ add_type e ∈ b)) ∧
  (∀ s, s ∈ subs → type_a s ∈ a ∧ type_b s ∈ b).
Proof.
  unfold additions_substitutions_sets. case_bool_decide; [|done].
  intros [= <- <-]. split.
  - intros e. rewrite elem_of_app. change (map ?f ?l) with (f <$> l).
    rewrite !list_elem_of_fmap.
    intros [(x & -> & Hx%elem_of_iter_set)|(x & -> & Hx%elem_of_iter_set)];
      simpl; [left|right]; (split; [done|]);
      by apply elem_of_difference in Hx as [Hx _].
  - intros [x y]. fold (substitution_set (search_pairings a b).2).
    rewrite elem_of_substitution_set. simpl.
    destruct (search_pairings_spec a b) as [[(Hin & _) _] _]. apply Hin.
Qed.

Lemma collect_edits_sound (l : list Difference) acc acc' :
  for_each collect_edits l acc = Ok acc' →
  (∀ e, e ∈ acc'.1 →
        e ∈ acc.1 ∨
        ∃ r, r ∈ l ∧ ((add_side e = "a" ∧ add_type e ∈ a_b r) ∨
                      (add_side e = "b" ∧ add_type e ∈ b_a r))) ∧
  (∀ s, s ∈ acc'.2 →
        s ∈ acc.2 ∨ ∃ r, r ∈ l ∧ type_a s ∈ a_b r ∧ type_b s ∈ b_a r).
Proof.
  revert acc. induction l as [|r l IH]; intros acc; simpl.
  - intros [= <-]. auto.
  - intros Hrun.
    destruct (additions_substitutions_sets (sim r) (a_b r) (b_a r))
      as [[added subs]|e] eqn:Hr.
    2:{ assert (collect_edits r acc = Raise e) as Hc
          by (unfold collect_edits; by rewrite Hr).
        by rewrite Hc in Hrun. }
    assert (collect_edits r acc
            = Ok (acc.1 ++ added, acc.2 ++ iter_substitutions subs)) as Hc
      by (unfold collect_edits; by rewrite Hr).
    rewrite Hc in Hrun. simpl in Hrun.
    apply additions_substitutions_sets_sound in Hr as [Hadd Hsub].
    apply IH in Hrun as [H1 H2]. simpl in *. split.
    + intros e [[He|He]%elem_of_app|(r' & Hr' & He)]%H1.
      * by left.
      * right. exists r. split; [left|]. by apply Hadd.
      * right. exists r'. split; [by right|done].
    + intros s [[Hs|Hs]%elem_of_app|(r' & Hr' & Hs)]%H2.
      * by left.
      * right. exists r. split; [left|].
        apply Hsub. unfold iter_substitutions in Hs.
        rewrite merge_sort_Permutation in Hs. by apply elem_of_elements in Hs.
      * right. exists r'. split; [by right|done].
Qed.

Lemma edits_located a b n_t adds subs ts :
  boundary_edit_distance a b n_t = Ok (adds, subs, ts) →
  (∀ e, e ∈ adds →
        ∃ (k : nat) a_k b_k,
          a !! k = Some a_k ∧ b !! k = Some b_k ∧
          ((add_side e = "a" ∧ add_type e ∈ a_k ∖ b_k) ∨
           (add_side e = "b" ∧ add_type e ∈ b_k ∖ a_k))) ∧
  (∀ s, s ∈ subs →
        ∃ (k : nat) a_k b_k,
          a !! k = Some a_k ∧ b !! k = Some b_k ∧
          type_a s ∈ a_k ∖ b_k ∧ type_b s ∈ b_k ∖ a_k).
Proof.
  intros Hbed.
  pose proof Hbed as (st & Hst & _ & Hcollect)%boundary_edit_distance_Ok.
  assert (∀ r', r' ∈ dict_values (options_set st) →
            ∃ (k : nat) a_k b_k,
              a !! k = Some a_k ∧ b !! k = Some b_k ∧
              a_b r' ⊆ a_k ∖ b_k ∧ b_a r' ⊆ b_k ∖ a_k) as Hrec.
  { intros r' [k Hk]%elem_of_dict_values.
    destruct (scan_shrinks a b (py_range 2 (n_t + 1))
                (optional_set_edits a b) st Hst) as [_ Hshrunk].
    destruct (Hshrunk k r' Hk) as (r & Hr & _ & Ha & Hb & _).
    apply optional_set_edits_lookup_Some in Hr
      as (a_k & b_k & _ & Hak & Hbk & _ & ->).
    by exists (Z.to_nat k), a_k, b_k. }
  apply collect_edits_sound in Hcollect as [Hadd Hsub]. simpl in *. split.
  - intros e [?%elem_of_nil|(r' & Hr' & He)]%Hadd; [done|].
    destruct (Hrec r' Hr') as (k & a_k & b_k & Hak & Hbk & Ha & Hb).
    exists k, a_k, b_k. split; [done|]. split; [done|].
    destruct He as [[? ?]|[? ?]]; [left|right]; auto.
  - intros s [?%elem_of_nil|(r' & Hr' & Hs1 & Hs2)]%Hsub; [done|].
    destruct (Hrec r' Hr') as (k & a_k & b_k & Hak & Hbk & Ha & Hb).
    exists k, a_k, b_k. auto.
Qed.

(** X8.  The decomposition invents nothing.  Every addition returned is
    a label that one string has and the other lacks at some position,
    tagged with the side that has it; every substitution returned pairs
    a label only the first string has with a label only the second
    string has, at one and the same position. *)
Theorem edits_are_disagreements a b n_t adds subs ts :
  boundary_edit_distance a b n_t = Ok (adds, subs, ts) →
  (∀ e, e ∈ adds →
        ∃ (k : nat) a_k b_k,
          a !! k = Some a_k ∧ b !! k = Some b_k ∧
          ((add_side e = "a" ∧ add_type e ∈ a_k ∖ b_k) ∨
           (add_side e = "b" ∧ add_type e ∈ b_k ∖ a_k))) ∧
  (∀ s, s ∈ subs →
        ∃ (k : nat) a_k b_k,
          a !! k = Some a_k ∧ b !! k = Some b_k ∧
          type_a s ∈ a_k ∖ b_k ∧ type_b s ∈ b_k ∖ a_k).
Proof. apply edits_located. Qed.

(** ** A mapping that lacks a record *)

Lemma apply_candidate_empty_mapping i j d :
  apply_candidate i j d (mkScan ∅ [] ∅) = Raise KeyError.
Proof. reflexivity. Qed.

(** X9.  [find_transpositions] relies on the mapping of
    [optional_set_edits]: handed an empty mapping, on strings of equal
    length, it raises [KeyError] as soon as some label is a candidate of
    a window of one of the spans, and returns no transposition and the
    empty mapping when there is none. *)
Theorem empty_mapping_raises_KeyError (a b : list (gset Z)) (n_t : list Z) :
  length a = length b → (∀ n, n ∈ n_t → 1 ≤ n) →
  ((∃ i j d, candidate a b i j d ∧ j - i + 1 ∈ n_t) →
   find_transpositions a b n_t ∅ = Raise KeyError) ∧
  (¬ (∃ i j d, candidate a b i j d ∧ j - i + 1 ∈ n_t) →
   find_transpositions a b n_t ∅ = Ok ([], ∅)).
Proof.
  intros Hlen Hn. unfold find_transpositions.
  rewrite find_transpositions_from_flat; [|done|unfold len; lia].
  split.
  - intros (i & j & d & Hc & Hspan).
    pose proof (scan_order_complete a b n_t i j d Hc Hspan) as Hin.
    destruct (scan_order a b n_t) as [|[[i' j'] d'] cs]; [by apply elem_of_nil in Hin|].
    reflexivity.
  - intros Hnone.
    destruct (scan_order a b n_t) as [|c cs] eqn:Horder; [done|].
    destruct Hnone. exists c.1.1, c.1.2, c.2.
    destruct (elem_of_scan_order a b n_t c Hn) as (Hc & n & Hin & Hj & _).
    { rewrite Horder. left. }
    split; [done|]. by replace (c.1.2 - c.1.1 + 1) with n by lia.
Qed.

End edit_origins.

Section edit_origin_scenarios.
#[local] Existing Instance by_value.

Lemma transpositions_are_shifts_witness :
  ∃ a_i a_j b_i b_j : gset Z,
    0 ≤ 0 < 2 ∧
    [{[1]}; ∅; ∅] !! Z.to_nat 0 = Some a_i ∧
    [{[1]}; ∅; ∅] !! Z.to_nat 2 = Some a_j ∧
    [∅; ∅; {[1]}] !! Z.to_nat 0 = Some b_i ∧
    [∅; ∅; {[1]}] !! Z.to_nat 2 = Some b_j ∧
    shifted 1 a_i a_j b_i b_j.
Proof.
  apply (transpositions_are_shifts [{[1]}; ∅; ∅] [∅; ∅; {[1]}] 3 [] []
           [mkTransposition 0 2 1]) with (t := mkTransposition 0 2 1).
  - vm_compute. reflexivity.
  - left.
Defined.

Lemma edits_are_disagreements_witness :
  (∀ e, e ∈ [mkAddition 1 "a"; mkAddition 1 "b"] →
        ∃ (k : nat) (a_k b_k : gset Z),
          [{[1; 2]}; {[3]}] !! k = Some a_k ∧ [{[3]}; {[1; 2]}] !! k = Some b_k ∧
          ((add_side e = "a" ∧ add_type e ∈ a_k ∖ b_k) ∨
           (add_side e = "b" ∧ add_type e ∈ b_k ∖ a_k))) ∧
  (∀ s, s ∈ [mkSubstitution 2 3; mkSubstitution 3 2] →
        ∃ (k : nat) (a_k b_k : gset Z),
          [{[1; 2]}; {[3]}] !! k = Some a_k ∧ [{[3]}; {[1; 2]}] !! k = Some b_k ∧
          type_a s ∈ a_k ∖ b_k ∧ type_b s ∈ b_k ∖ a_k).
Proof.
  apply (edits_are_disagreements [{[1; 2]}; {[3]}] [{[3]}; {[1; 2]}] 2 _ _ []).
  vm_compute. reflexivity.
Defined.

Lemma empty_mapping_raises_KeyError_witness :
  ((∃ i j d, candidate [{[1]}; ∅] [∅; {[1]}] i j d ∧ j - i + 1 ∈ [2]) →
   find_transpositions [{[1]}; ∅] [∅; {[1]}] [2] ∅ = Raise KeyError) ∧
  (¬ (∃ i j d, candidate [{[1]}; ∅] [∅; {[1]}] i j d ∧ j - i + 1 ∈ [2]) →
   find_transpositions [{[1]}; ∅] [∅; {[1]}] [2] ∅ = Ok ([], ∅)).
Proof.
  apply (empty_mapping_raises_KeyError [{[1]}; ∅] [∅; {[1]}] [2]).
  - reflexivity.
  - intros n ->%list_elem_of_singleton. lia.
Defined.

End edit_origin_scenarios.

(** ** The two strings trading places *)

Section trading_places.
Context {runtime : ObjectIdentity}.

Lemma additions_substitutions_swap d a b :
  additions_substitutions d b a = additions_substitutions d a b.
Proof.
  unfold additions_substitutions.
  by replace (Z.abs (len_set b - len_set a))
    with (Z.abs (len_set a - len_set b)) by lia.
Qed.

Lemma has_substitutions_swap i j d os :
  has_substitutions i j d (swap_record <$> os) = has_substitutions i j d os.
Proof.
  unfold has_substitutions. rewrite !lookup_fmap.
  destruct (os !! i) as [r_i|]; [|done].
  destruct (os !! j) as [r_j|]; [|done].
  change (swap_record <$> Some r_i) with (Some (swap_record r_i)).
  change (swap_record <$> Some r_j) with (Some (swap_record r_j)).
  cbv beta iota. cbn [swap_record sim a_b b_a].
  rewrite (additions_substitutions_swap (sim r_i) (a_b r_i) (b_a r_i)).
  by rewrite (additions_substitutions_swap (sim r_j) (a_b r_j) (b_a r_j)).
Qed.

Lemma discard_at_swap k d os :
  discard_at k d (swap_record <$> os)
  = result_map (fmap swap_record) (discard_at k d os).
Proof.
  unfold discard_at. rewrite lookup_fmap.
  destruct (os !! k) as [r|]; simpl; [|done]. by rewrite fmap_insert.
Qed.

Lemma apply_candidate_swap i j d st :
  apply_candidate i j d (swap_state st)
  = result_map swap_state (apply_candidate i j d st).
Proof.
  unfold apply_candidate. simpl. rewrite has_substitutions_swap.
  destruct (negb _ && negb _); [|done].
  rewrite discard_at_swap.
  destruct (discard_at i d (options_set st)) as [os1|]; simpl; [|done].
  rewrite discard_at_swap.
  by destruct (discard_at j d os1).
Qed.

Lemma for_each_simulation {A S} (f f' : A → S → result S) (g : S → S) l st :
  (∀ x st0, f' x (g st0) = result_map g (f x st0)) →
  for_each f' l (g st) = result_map g (for_each f l st).
Proof.
  intros Hsim. revert st. induction l as [|x l IH]; intros st; simpl; [done|].
  rewrite Hsim. destruct (f x st); simpl; [apply IH|done].
Qed.

Lemma py_index_raises {A} (l : list A) i e :
  py_index l i = Raise e → e = IndexError.
Proof.
  unfold py_index. cbv zeta. case_bool_decide; [|by intros [= <-]].
  destruct (l !! _); [done|by intros [= <-]].
Qed.

Lemma potential_transpositions_swap a_i a_j b_i b_j :
  potential_transpositions b_i b_j a_i a_j
  = potential_transpositions a_i a_j b_i b_j.
Proof.
  apply set_eq. intros d. rewrite !potential_transpositions_shifted.
  unfold shifted. tauto.
Qed.

Lemma scan_window_swap a b n_i i st :
  scan_window b a n_i i (swap_state st)
  = result_map swap_state (scan_window a b n_i i st).
Proof.
  unfold scan_window.
  destruct (py_index a i) as [a_i|e1] eqn:H1;
    destruct (py_index a (i + n_i)) as [a_j|e2] eqn:H2;
    destruct (py_index b i) as [b_i|e3] eqn:H3;
    destruct (py_index b (i + n_i)) as [b_j|e4] eqn:H4; simpl;
    try apply py_index_raises in H1 as ->;
    try apply py_index_raises in H2 as ->;
    try apply py_index_raises in H3 as ->;
    try apply py_index_raises in H4 as ->; try done.
  rewrite potential_transpositions_swap.
  apply for_each_simulation. intros d st0. apply apply_candidate_swap.
Qed.

Lemma find_transpositions_from_swap a b n_t st :
  len a = len b →
  find_transpositions_from b a n_t (swap_state st)
  = result_map swap_state (find_transpositions_from a b n_t st).
Proof.
  intros Hlen. unfold find_transpositions_from.
  apply for_each_simulation. intros n st0. unfold scan_span. rewrite Hlen.
  apply for_each_simulation. intros i st1. apply scan_window_swap.
Qed.

Lemma sym_diff_comm x y : sym_diff x y = sym_diff y x.
Proof. unfold sym_diff. set_solver. Qed.

Lemma optional_set_edits_swap a b :
  optional_set_edits b a = swap_record <$> optional_set_edits a b.
Proof.
  apply map_eq. intros k. rewrite lookup_fmap, !optional_set_edits_lookup.
  case_decide; [|done]. rewrite !lookup_zip_with.
  destruct (a !! Z.to_nat k) as [a_k|], (b !! Z.to_nat k) as [b_k|];
    simpl; try done.
  unfold position_record. simpl. rewrite (sym_diff_comm b_k a_k).
  by case_decide.
Qed.

(** The matcher loop on consistent records: how many additions and how
    many substitutions it appends. *)
Lemma collect_edits_counts (l : list Difference) acc :
  (∀ r, r ∈ l → consistent r) →
  ∃ acc', for_each collect_edits l acc = Ok acc' ∧
          length acc'.1 = (length acc.1 + sum_list_with unpaired_count l)%nat ∧
          length acc'.2 = (length acc.2 + sum_list_with paired_count l)%nat.
Proof.
  revert acc. induction l as [|r l IH]; intros acc Hl; simpl.
  - exists acc. split; [done|]. lia.
  - destruct (Hl r) as [Hdisj Hd]; [left|].
    destruct (search_pairings_spec (a_b r) (b_a r)) as [[Hm Hsize] _].
    pose proof (length_added_list_pairing _ _ _ Hdisj Hm) as Hlen.
    assert (collect_edits r acc
            = Ok (acc.1 ++ added_list (a_b r) (b_a r) (search_pairings (a_b r) (b_a r)).2,
                  acc.2 ++ iter_substitutions
                             (substitution_set (search_pairings (a_b r) (b_a r)).2)))
      as ->.
    { unfold collect_edits.
      by rewrite (additions_substitutions_sets_returns _ _ _ Hdisj Hd). }
    simpl. destruct (IH (acc.1 ++ added_list (a_b r) (b_a r) (search_pairings (a_b r) (b_a r)).2,
                  acc.2 ++ iter_substitutions
                             (substitution_set (search_pairings (a_b r) (b_a r)).2)))
      as (acc' & Hrun & H1 & H2).
    { intros r' Hr'. apply Hl. by right. }
    exists acc'. split; [done|]. simpl in H1, H2.
    rewrite length_app in H1, H2.
    rewrite length_iter_substitutions, size_substitution_set in H2.
    assert (unpaired_count r
            = length (added_list (a_b r) (b_a r) (search_pairings (a_b r) (b_a r)).2))
      as -> by (unfold unpaired_count; lia).
    assert (paired_count r = size (search_pairings (a_b r) (b_a r)).2)
      as -> by (unfold paired_count; lia).
    lia.
Qed.

Lemma sum_dict_values (f : Difference → nat) os :
  sum_list_with f (dict_values os)
  = sum_list_with (λ kr, f kr.2) (map_to_list os).
Proof.
  unfold dict_values.
  rewrite <- (merge_sort_Permutation key_le (map_to_list os)) at 2.
  generalize (merge_sort key_le (map_to_list os)). intros l.
  induction l as [|x l IH]; simpl; [done|]. by rewrite IH.
Qed.

Lemma sum_dict_values_swap (f : Difference → nat) os :
  (∀ r, f (swap_record r) = f r) →
  sum_list_with f (dict_values (swap_record <$> os))
  = sum_list_with f (dict_values os).
Proof.
  intros Hf. rewrite !sum_dict_values, map_to_list_fmap.
  generalize (map_to_list os). intros l.
  induction l as [|[k r] l IH]; [done|].
  rewrite fmap_cons. cbn [sum_list_with]. rewrite IH. simpl. by rewrite Hf.
Qed.

Lemma consistent_swap r : consistent r → consistent (swap_record r).
Proof. unfold consistent, swap_record. simpl. set_solver. Qed.

(** In the model the two calls differ by the swap of the one-sided
    sets alone, the runtime being the same for both. *)
Lemma edit_counts_swap (a b : list (gset Z)) (n_t : Z) :
  length a = length b →
  ∃ adds subs adds' subs' ts,
    boundary_edit_distance a b n_t = Ok (adds, subs, ts) ∧
    boundary_edit_distance b a n_t = Ok (adds', subs', ts) ∧
    length adds' = length adds ∧ length subs' = length subs.
Proof.
  intros Hlen.
  assert (len a = len b) as Hlen' by (unfold len; lia).
  destruct (find_transpositions_from_wf a b (py_range 2 (n_t + 1)))
    as (st & Hst & Hinv); [apply span_range_positive|lia|].
  pose proof (find_transpositions_from_swap a b (py_range 2 (n_t + 1))
                (mkScan ∅ [] (optional_set_edits a b)) Hlen') as Hswap.
  rewrite Hst in Hswap. simpl in Hswap.
  change (swap_state (mkScan ∅ [] (optional_set_edits a b)))
    with (mkScan ∅ [] (swap_record <$> optional_set_edits a b)) in Hswap.
  rewrite <- optional_set_edits_swap in Hswap.
  destruct (collect_edits_counts (dict_values (options_set st)) ([], []))
    as ([adds subs] & Hrun & H1 & H2).
  { intros r [k Hk]%elem_of_dict_values. by eapply wf_consistent. }
  destruct (collect_edits_counts
              (dict_values (swap_record <$> options_set st)) ([], []))
    as ([adds' subs'] & Hrun' & H1' & H2').
  { intros r [k Hk]%elem_of_dict_values. rewrite lookup_fmap in Hk.
    destruct (options_set st !! k) as [r0|] eqn:Hk0; simpl in Hk; [|done].
    injection Hk as <-. eapply consistent_swap, wf_consistent; eauto. }
  exists adds, subs, adds', subs', (transpositions st).
  split; [|split; [|split]].
  - by rewrite (boundary_edit_distance_scanned a b n_t st Hst), Hrun.
  - rewrite (boundary_edit_distance_scanned b a n_t _ Hswap). simpl.
    by rewrite Hrun'.
  - simpl in *. rewrite H1, H1'. apply sum_dict_values_swap.
    intros r. unfold unpaired_count, swap_record. simpl. lia.
  - simpl in *. rewrite H2, H2'. apply sum_dict_values_swap.
    intros r. unfold paired_count, swap_record. simpl. lia.
Qed.

End trading_places.

(** ** Shared labels under two runtimes *)

Lemma same_object_shared {runtime : ObjectIdentity} t c :
  small_int (t_type c) → same_object t c = bool_decide (t_type t = t_type c).
Proof.
  intros Hsmall. case_bool_decide as Heq.
  - by apply same_object_small.
  - destruct (same_object t c) eqn:Hs; [|done].
    by apply same_object_sound in Hs.
Qed.

Lemma apply_candidate_runtime (runtime runtime' : ObjectIdentity) i j d st :
  small_int d →
  apply_candidate (runtime := runtime') i j d st
  = apply_candidate (runtime := runtime) i j d st.
Proof.
  intros Hsmall. unfold apply_candidate.
  assert (overlaps_existing (runtime := runtime') i j d (options_transp st)
          = overlaps_existing (runtime := runtime) i j d (options_transp st))
    as ->; [|done].
  unfold overlaps_existing, check_position.
  assert (∀ ts, existsb (λ t, same_object (ObjectIdentity := runtime') t
                                (mkTransposition i j d)) ts
                = existsb (λ t, same_object (ObjectIdentity := runtime) t
                                  (mkTransposition i j d)) ts) as Hex.
  { induction ts as [|t ts IH]; simpl; [done|].
    by rewrite IH, !same_object_shared. }
  destruct (options_transp st !! i), (options_transp st !! j);
    by rewrite ?Hex.
Qed.

Lemma find_transpositions_from_runtime (runtime runtime' : ObjectIdentity)
    a b n_t st :
  small_labels a ∨ small_labels b →
  find_transpositions_from (runtime := runtime') a b n_t st
  = find_transpositions_from (runtime := runtime) a b n_t st.
Proof.
  intros Hsmall. unfold find_transpositions_from.
  apply for_each_ext. intros n st0 _. unfold scan_span.
  apply for_each_ext. intros i st1 _. unfold scan_window.
  destruct (py_index a i) as [a_i|] eqn:Hai; simpl; [|done].
  destruct (py_index a (i + (n - 1))) as [a_j|] eqn:Haj; simpl; [|done].
  destruct (py_index b i) as [b_i|] eqn:Hbi; simpl; [|done].
  destruct (py_index b (i + (n - 1))) as [b_j|] eqn:Hbj; simpl; [|done].
  apply for_each_ext. intros d st2 Hd%elem_of_iter_set.
  apply apply_candidate_runtime.
  apply py_index_elem in Hai, Haj, Hbi, Hbj.
  unfold potential_transpositions, sym_diff in Hd.
  destruct Hsmall as [Hsmall|Hsmall].
  - assert (d ∈ a_i ∨ d ∈ a_j) as [?|?] by set_solver.
    + by apply (Hsmall a_i).
    + by apply (Hsmall a_j).
  - assert (d ∈ b_i ∨ d ∈ b_j) as [?|?] by set_solver.
    + by apply (Hsmall b_i).
    + by apply (Hsmall b_j).
Qed.

Lemma boundary_edit_distance_runtime (runtime runtime' : ObjectIdentity)
    (a b : list (gset Z)) (n_t : Z) :
  small_labels a ∨ small_labels b →
  boundary_edit_distance (runtime := runtime') a b n_t
  = boundary_edit_distance (runtime := runtime) a b n_t.
Proof.
  intros Hsmall. unfold boundary_edit_distance, find_transpositions.
  by rewrite (find_transpositions_from_runtime runtime runtime').
Qed.

(** X16.  Where the labels of one of the two strings are integers from
    -5 to 256, what [boundary_edit_distance] returns, or raises, does
    not depend on which equal labels the runtime holds as one object. *)
Theorem shared_labels_settle_identity (runtime runtime' : ObjectIdentity)
    (a b : list (gset Z)) (n_t : Z) :
  small_labels a ∨ small_labels b →
  boundary_edit_distance (runtime := runtime') a b n_t
  = boundary_edit_distance (runtime := runtime) a b n_t.
Proof. apply boundary_edit_distance_runtime. Qed.

(** X10.  Strings of equal length trading places, the labels of the
    first one integers from -5 to 256: the two calls, whichever equal
    labels are one object in each, return the same transpositions up to
    their order, as many additions and as many substitutions. *)
Theorem edit_counts_are_symmetric (runtime runtime' : ObjectIdentity)
    (a b : list (gset Z)) (n_t : Z) :
  length a = length b → small_labels a →
  ∃ adds subs ts adds' subs' ts',
    boundary_edit_distance (runtime := runtime) a b n_t = Ok (adds, subs, ts) ∧
    boundary_edit_distance (runtime := runtime') b a n_t = Ok (adds', subs', ts') ∧
    ts' ≡ₚ ts ∧ length adds' = length adds ∧ length subs' = length subs.
Proof.
  intros Hlen Hsmall.
  destruct (edit_counts_swap (runtime := runtime) a b n_t Hlen)
    as (adds & subs & adds' & subs' & ts & H1 & H2 & H3 & H4).
  exists adds, subs, ts, adds', subs', ts.
  split; [done|]. split; [|done].
  rewrite <- H2. apply boundary_edit_distance_runtime. by right.
Qed.

Lemma shared_labels_settle_identity_witness :
  boundary_edit_distance (runtime := fresh_objects)
    [{[1; 2]}; {[3]}; ∅] [{[3]}; {[1; 2]}; {[4]}] 2
  = boundary_edit_distance (runtime := by_value)
      [{[1; 2]}; {[3]}; ∅] [{[3]}; {[1; 2]}; {[4]}] 2.
Proof.
  apply (shared_labels_settle_identity by_value fresh_objects
           [{[1; 2]}; {[3]}; ∅] [{[3]}; {[1; 2]}; {[4]}] 2).
  left. apply (bool_decide_unpack _). vm_compute. exact I.
Defined.

Lemma edit_counts_are_symmetric_witness :
  ∃ adds subs ts adds' subs' ts',
    boundary_edit_distance (runtime := by_value)
      [{[1; 2]}; {[3]}; ∅] [{[3]}; {[1; 2]}; {[4]}] 2
    = Ok (adds, subs, ts) ∧
    boundary_edit_distance (runtime := fresh_objects)
      [{[3]}; {[1; 2]}; {[4]}] [{[1; 2]}; {[3]}; ∅] 2
    = Ok (adds', subs', ts') ∧
    ts' ≡ₚ ts ∧ length adds' = length adds ∧ length subs' = length subs.
Proof.
  apply (edit_counts_are_symmetric by_value fresh_objects
           [{[1; 2]}; {[3]}; ∅] [{[3]}; {[1; 2]}; {[4]}] 2).
  - reflexivity.
  - apply (bool_decide_unpack _). vm_compute. exact I.
Defined.

(** ** A single boundary type *)

Section single_type.
Context {runtime : ObjectIdentity}.

(** X11.  With a single boundary type, every label set of both strings
    holding at most the label [t], no substitution is ever returned. *)
Theorem single_type_has_no_substitution (a b : list (gset Z)) n_t (t : Z)
    adds subs ts :
  (∀ s, s ∈ a → s ⊆ {[t]}) → (∀ s, s ∈ b → s ⊆ {[t]}) →
  boundary_edit_distance a b n_t = Ok (adds, subs, ts) →
  subs = [].
Proof.
  intros Ha Hb Hbed. destruct subs as [|s subs]; [done|].
  destruct (edits_located a b n_t _ _ _ Hbed) as [_ Hsub].
  destruct (Hsub s) as (k & a_k & b_k & Hak & Hbk & H1 & H2); [left|].
  apply list_elem_of_lookup_2 in Hak, Hbk.
  specialize (Ha a_k Hak). specialize (Hb b_k Hbk).
  apply elem_of_difference in H1 as [H1 H1'].
  apply elem_of_difference in H2 as [H2 H2'].
  pose proof (Ha _ H1) as E1%elem_of_singleton.
  pose proof (Hb _ H2) as E2%elem_of_singleton.
  rewrite E1 in H1. rewrite E2 in H2'. done.
Qed.

(** ** Spans beyond the length of the first string *)

Lemma scan_span_too_wide a b n st :
  len a < n → scan_span a b n st = Ok st.
Proof. intros Hn. unfold scan_span. by rewrite py_range_empty by lia. Qed.

Lemma for_each_scan_span_too_wide a b (l : list Z) st :
  (∀ n, n ∈ l → len a < n) → for_each (scan_span a b) l st = Ok st.
Proof.
  intros Hl. induction l as [|n l IH]; simpl; [done|].
  rewrite scan_span_too_wide by (apply Hl; left). simpl.
  apply IH. intros m Hm. apply Hl. by right.
Qed.

Lemma find_transpositions_from_saturates a b n_t st :
  len a ≤ n_t →
  find_transpositions_from a b (py_range 2 (n_t + 1)) st
  = find_transpositions_from a b (py_range 2 (len a + 1)) st.
Proof.
  intros Hn. unfold find_transpositions_from. rewrite !sorted_span_range.
  destruct (decide (len a < 2)) as [Hlt|Hge].
  - rewrite !for_each_scan_span_too_wide; [done|..];
      intros n Hin%span_range; lia.
  - rewrite (py_range_split 2 (len a + 1) (n_t + 1)) by lia.
    rewrite for_each_app.
    destruct (for_each (scan_span a b) (py_range 2 (len a + 1)) st) as [st1|];
      simpl; [|done].
    apply for_each_scan_span_too_wide. intros n Hin%elem_of_py_range. lia.
Qed.

(** X12.  The maximum span saturates at the length of the first string:
    a larger [n_t] changes nothing, result or error. *)
Theorem span_saturates (a b : list (gset Z)) (n_t : Z) :
  len a ≤ n_t →
  boundary_edit_distance a b n_t = boundary_edit_distance a b (len a).
Proof.
  intros Hn. unfold boundary_edit_distance, find_transpositions.
  by rewrite (find_transpositions_from_saturates a b n_t).
Qed.

End single_type.

Section single_type_scenarios.
#[local] Existing Instance by_value.

Lemma single_type_has_no_substitution_witness :
  ([] : list Substitution) = [].
Proof.
  apply (single_type_has_no_substitution
           [{[1]}; ∅; {[1]}] [∅; {[1]}; ∅] 2 1
           [mkAddition 1 "a"] [] [mkTransposition 0 1 1]).
  - intros s Hs. repeat (apply elem_of_cons in Hs as [->|Hs]);
      try (apply (bool_decide_unpack _); vm_compute; exact I).
    by apply elem_of_nil in Hs.
  - intros s Hs. repeat (apply elem_of_cons in Hs as [->|Hs]);
      try (apply (bool_decide_unpack _); vm_compute; exact I).
    by apply elem_of_nil in Hs.
  - vm_compute. reflexivity.
Defined.

Lemma span_saturates_witness :
  boundary_edit_distance [{[1]}; ∅; ∅] [∅; ∅; {[1]}] 7
  = boundary_edit_distance [{[1]}; ∅; ∅] [∅; ∅; {[1]}]
      (len [{[1]} : gset Z; ∅; ∅]).
Proof.
  apply (span_saturates [{[1]}; ∅; ∅] [∅; ∅; {[1]}] 7). by vm_compute.
Defined.

End single_type_scenarios.

(** ** Ties in the pairing search *)

(** The fold keeps the first of the visited pairings of least delta. *)
Lemma search_fold_first (L : list (list Z * list Z)) :
  L ≠ [] →
  ∃ before pp after,
    L = before ++ pp :: after ∧
    foldl (λ st pp, consider_pairing pp.1 pp.2 st) (None, ∅) L
    = (Some (delta_of pp), pairing_of pp) ∧
    (∀ q, q ∈ before → delta_of pp < delta_of q) ∧
    (∀ q, q ∈ after → delta_of pp ≤ delta_of q).
Proof.
  induction L as [|x L IH] using rev_ind; [done|]. intros _.
  rewrite foldl_app. simpl. destruct (decide (L = [])) as [->|Hne].
  - exists [], x, []. split; [done|]. split; [done|].
    split; by intros q ?%elem_of_nil.
  - destruct (IH Hne) as (before & pp & after & -> & -> & Hb & Ha).
    unfold consider_pairing. simpl.
    fold (pairing_of x). fold (delta_of x). case_bool_decide as Hlt.
    + exists (before ++ pp :: after), x, []. split; [done|]. split; [done|].
      split; [|by intros q ?%elem_of_nil].
      intros q [Hq|[->|Hq]%elem_of_cons]%elem_of_app.
      * specialize (Hb q Hq). lia.
      * done.
      * specialize (Ha q Hq). lia.
    + exists before, pp, (after ++ [x]).
      split; [by rewrite <- app_assoc|]. split; [done|]. split; [done|].
      intros q [Hq| ->%list_elem_of_singleton]%elem_of_app; [by apply Ha|lia].
Qed.

(** X13.  Ties are broken by the order of the search.  Among the pairs of
    orderings the two loops visit, the pairing returned is that of the
    first pair of least delta: every pair visited before it has a
    strictly larger delta, every pair visited after it a delta at least
    as large. *)
Theorem first_least_pairing_wins (a b : gset Z) :
  ∃ before pp after,
    all_orderings a b = before ++ pp :: after ∧
    search_pairings a b = (Some (delta_of pp), pairing_of pp) ∧
    (∀ q, q ∈ before → delta_of pp < delta_of q) ∧
    (∀ q, q ∈ after → delta_of pp ≤ delta_of q).
Proof.
  rewrite search_pairings_flat. apply search_fold_first.
  intros Hnil.
  assert ((elements a, elements b) ∈ all_orderings a b) as Hin
    by by apply elem_of_all_orderings.
  rewrite Hnil in Hin. by apply elem_of_nil in Hin.
Qed.

Lemma optional_set_edits_records_witness :
  (∀ r, optional_set_edits [{[1]}; ∅] [∅; {[1]}; {[2]}] !! 1 = Some r ↔
        ∃ a_k b_k, 0 ≤ 1 ∧ [{[1]}; ∅] !! Z.to_nat 1 = Some a_k ∧
                   [∅; {[1]}; {[2]}] !! Z.to_nat 1 = Some b_k ∧ a_k ≠ b_k ∧
                   r = mkDifference (sym_diff a_k b_k) (a_k ∖ b_k) (b_k ∖ a_k)) ∧
  (is_Some (optional_set_edits [{[1]}; ∅] [∅; {[1]}; {[2]}] !! 1) →
   0 ≤ 1 < len [{[1]} : gset Z; ∅] `min` len [∅ : gset Z; {[1]}; {[2]}]).
Proof. apply (optional_set_edits_records [{[1]}; ∅] [∅; {[1]}; {[2]}] 1). Defined.
